(** * Verification of the automatic unit-merge engine

    Shallow embedding of [spikeinterface/curation/auto_merge.py] and the
    properties of its candidate-matrix pipeline.

    Layout: numbers, Python results, dense arrays, the functions of
    [auto_merge.py] in source order of dependency, then the theorems. *)

From Stdlib Require Import String ZArith QArith Qabs Qround Bool Lia Arith.
From Stdlib Require Import Floats.
From Stdlib Require Uint63.
From Stdlib Require Import List Sorted.
Import ListNotations.
Close Scope Q_scope.

Set Implicit Arguments.

(** ** Numbers

    Every float of the source is a NumPy/Python [float64].  The functions
    are written once over the operations they use; [binary64] runs them on
    IEEE 754 doubles exactly as Python does, [exact] runs them on the
    rationals, the arithmetic the docstrings reason in. *)

Module Numeric.

Class Number (F : Type) : Type := {
  zero : F;
  one : F;
  add : F -> F -> F;
  sub : F -> F -> F;
  mul : F -> F -> F;
  div : F -> F -> F;
  neg : F -> F;
  abs : F -> F;
  sqrt : F -> F;
  ltb : F -> F -> bool;
  leb : F -> F -> bool;
  eqb : F -> F -> bool;
  (** [float(z)] for a Python or NumPy integer *)
  of_Z : Z -> F;
  (** the value as an array of dtype [float32] stores it *)
  f32 : F -> F;
  (** [int(round(x))]: round half to even; [None] where Python raises
      ([ValueError] on nan, [OverflowError] on an infinity) *)
  int_round : F -> option Z
}.

Definition gtb {F} `{Number F} (x y : F) : bool := ltb y x.
Definition geb {F} `{Number F} (x y : F) : bool := leb y x.
Definition of_nat {F} `{Number F} (n : nat) : F := of_Z (Z.of_nat n).
(** [x != x] holds of nan only *)
Definition isnan {F} `{Number F} (x : F) : bool := negb (eqb x x).

(** *** IEEE 754 binary64 *)

(** The integer nearest to [m * 2^e], ties to the even one. *)
Definition round_half_even_pow2 (m : positive) (e : Z) : Z :=
  match e with
  | Z0 => Zpos m
  | Zpos p => Z.shiftl (Zpos m) (Zpos p)
  | Zneg p =>
      let d := Z.shiftl 1 (Zpos p) in
      let q := Z.div (Zpos m) d in
      let r := Z.modulo (Zpos m) d in
      match Z.compare (2 * r) d with
      | Lt => q
      | Gt => q + 1
      | Eq => if Z.even q then q else q + 1
      end
  end%Z.

Definition float_int_round (x : float) : option Z :=
  match Prim2SF x with
  | S754_zero _ => Some 0%Z
  | S754_finite s m e =>
      let k := round_half_even_pow2 m e in
      Some (if s then Z.opp k else k)
  | S754_infinity _ | S754_nan => None
  end.

(** [float(z)]; NumPy integers are 64-bit, so the magnitude fits 63 bits. *)
Definition float_of_Z (z : Z) : float :=
  match z with
  | Z0 => PrimFloat.zero
  | Zpos _ => PrimFloat.of_uint63 (Uint63.of_Z z)
  | Zneg p => PrimFloat.opp (PrimFloat.of_uint63 (Uint63.of_Z (Zpos p)))
  end.

(** Rounding to single precision (24 bits, [emax] 128); every binary32
    value is a binary64 value. *)
Definition float_f32 (x : float) : float :=
  match Prim2SF x with
  | S754_finite s m e => SF2Prim (binary_round 24 128 s m e)
  | _ => x
  end.

#[export] Instance binary64 : Number float := {
  zero := PrimFloat.zero;
  one := PrimFloat.one;
  add := PrimFloat.add;
  sub := PrimFloat.sub;
  mul := PrimFloat.mul;
  div := PrimFloat.div;
  neg := PrimFloat.opp;
  abs := PrimFloat.abs;
  sqrt := PrimFloat.sqrt;
  ltb := PrimFloat.ltb;
  leb := PrimFloat.leb;
  eqb := PrimFloat.eqb;
  of_Z := float_of_Z;
  f32 := float_f32;
  int_round := float_int_round
}.

(** *** Exact rationals *)

(** Round half to even on a rational. *)
Definition Q_int_round (q : Q) : option Z :=
  let f := Qfloor q in
  let r := (q - inject_Z f)%Q in
  Some (match Qcompare r (1 # 2) with
        | Lt => f
        | Gt => (f + 1)%Z
        | Eq => if Z.even f then f else (f + 1)%Z
        end).

Definition Qltb (x y : Q) : bool := negb (Qle_bool y x).

(** The rationals have no square root of their own: the instance takes one. *)
Definition exact (qsqrt : Q -> Q) : Number Q := {|
  zero := 0%Q;
  one := 1%Q;
  add := Qplus;
  sub := Qminus;
  mul := Qmult;
  div := Qdiv;
  neg := Qopp;
  abs := Qabs;
  sqrt := qsqrt;
  ltb := Qltb;
  leb := Qle_bool;
  eqb := Qeq_bool;
  of_Z := inject_Z;
  f32 := fun q => q;
  int_round := Q_int_round
|}.

(** The largest multiple of [1 / Qden q] that is at most the square root of
    [q]: the root itself on squares of rationals. *)
Definition Qsqrt_floor (q : Q) : Q :=
  Z.sqrt (Qnum q * Zpos (Qden q)) # Qden q.

End Numeric.

(** ** Python outcomes *)

Module Py.

Inductive exn : Type :=
| AssertionError (msg : string)
| UnboundLocalError (name : string)
| AttributeError (msg : string)
| TypeError (msg : string)
| ValueError (msg : string)
| IndexError
| RecursionError.

Inductive result (A : Type) : Type :=
| Ok (a : A)
| Raise (e : exn).
Arguments Ok {A} a.
Arguments Raise {A} e.

Definition bind {A B} (r : result A) (k : A -> result B) : result B :=
  match r with
  | Ok a => k a
  | Raise e => Raise e
  end.

Definition returned {A} (r : result A) : bool :=
  match r with Ok _ => true | Raise _ => false end.

(** [for x in xs: acc = body(x, acc)], stopping at the first exception. *)
Fixpoint for_each {A S} (xs : list A) (body : A -> S -> result S) (acc : S)
  : result S :=
  match xs with
  | [] => Ok acc
  | x :: rest => bind (body x acc) (for_each rest body)
  end.

Fixpoint map_result {A B} (f : A -> result B) (xs : list A) : result (list B) :=
  match xs with
  | [] => Ok []
  | x :: rest =>
      bind (f x) (fun y => bind (map_result f rest) (fun ys => Ok (y :: ys)))
  end.

(** [range(lo, hi)] over indices. *)
Definition range (lo hi : nat) : list nat := seq lo (hi - lo).

End Py.

Declare Scope py_scope.
Notation "x <- c1 ;; c2" := (Py.bind c1 (fun x => c2))
  (at level 61, c1 at next level, right associativity) : py_scope.
Notation "'assert!' c 'or' e ;; k" := (if c then k else Py.Raise e)
  (at level 61, c at next level, e at next level, right associativity) : py_scope.
Open Scope py_scope.

(** ** NumPy arrays

    One-dimensional arrays are lists.  An N x N array over the units is a
    function of the two unit indices, read on [0, N) only; the correlogram
    tensor and the template array give a list (of bins, of samples) per
    index. *)

Module Np.
Import Numeric Py.

Definition matrix (A : Type) : Type := nat -> nat -> A.

Section Arrays.
Context {F : Type} `{Number F}.

(** [np.sum]: the additions from left to right.  NumPy adds arrays of
    eight elements and more in pairwise blocks, which rounds differently
    on [binary64] and is the same number on [exact]. *)
Definition sum (x : list F) : F := fold_left add x zero.

(** [np.mean]: [0/0] on the empty array. *)
Definition mean (x : list F) : F := div (sum x) (of_nat (length x)).

(** [np.max] and [np.min] of two values: a nan wins. *)
Definition max2 (a b : F) : F :=
  if isnan a then a else if isnan b then b else if ltb a b then b else a.
Definition min2 (a b : F) : F :=
  if isnan a then a else if isnan b then b else if ltb b a then b else a.

Definition reduce (op : F -> F -> F) (x : list F) : result F :=
  match x with
  | [] => Raise (ValueError "zero-size array to reduction operation")%string
  | a :: rest => Ok (fold_left op rest a)
  end.
Definition max (x : list F) : result F := reduce max2 x.
Definition min (x : list F) : result F := reduce min2 x.

(** [a[i]] for an integer [i]: a negative index counts from the end. *)
Definition getitem {A} (a : list A) (i : Z) : result A :=
  let n := Z.of_nat (length a) in
  let k := if (i <? 0)%Z then (i + n)%Z else i in
  if ((0 <=? k) && (k <? n))%Z
  then match nth_error a (Z.to_nat k) with
       | Some v => Ok v
       | None => Raise IndexError
       end
  else Raise IndexError.

(** [a[inds]] for an integer array [inds]. *)
Definition take {A} (a : list A) (inds : list Z) : result (list A) :=
  map_result (getitem a) inds.

(** [np.arange(lo, hi, dtype=int)]. *)
Definition arange (lo hi : Z) : list Z :=
  map (fun k => (lo + Z.of_nat k)%Z) (seq 0 (Z.to_nat (hi - lo))).

(** [a[start:stop]] with Python's treatment of negative and overlong
    bounds. *)
Definition slice {A} (a : list A) (start stop : Z) : list A :=
  let n := Z.of_nat (length a) in
  let clamp (i : Z) := Z.to_nat (Z.min n (Z.max 0 (if (i <? 0)%Z then i + n else i)))%Z in
  let lo := clamp start in
  let hi := clamp stop in
  firstn (hi - lo) (skipn lo a).

(** [op(a, b)] elementwise along the first axis, with NumPy's broadcasting
    of an axis of length one. *)
Definition broadcast {A B C} (op : A -> B -> C) (a : list A) (b : list B)
  : result (list C) :=
  if (length a =? length b)%nat then Ok (map (fun p => op (fst p) (snd p)) (combine a b))
  else match a, b with
       | [a0], _ => Ok (map (op a0) b)
       | _, [b0] => Ok (map (fun x => op x b0) a)
       | _, _ => Raise (ValueError "operands could not be broadcast together")%string
       end.

(** [np.nonzero] of an N x N boolean array: the True positions, row by row. *)
Definition nonzero (n : nat) (m : matrix bool) : list (nat * nat) :=
  flat_map (fun i => map (pair i) (filter (m i) (seq 0 n))) (seq 0 n).

(** The number of True entries. *)
Definition count_true (n : nat) (m : matrix bool) : nat :=
  length (nonzero n m).

(** [m[i, j] = v] *)
Definition set {A} (m : matrix A) (i j : nat) (v : A) : matrix A :=
  fun a b => if ((a =? i) && (b =? j))%nat then v else m a b.

(** [m[rows, :] = v] for a boolean index [rows] *)
Definition set_rows {A} (m : matrix A) (rows : nat -> bool) (v : A) : matrix A :=
  fun a b => if rows a then v else m a b.

(** [m[:, cols] = v] for a boolean index [cols] *)
Definition set_cols {A} (m : matrix A) (cols : nat -> bool) (v : A) : matrix A :=
  fun a b => if cols b then v else m a b.

(** [m & c] *)
Definition mask_and (m c : matrix bool) : matrix bool :=
  fun a b => m a b && c a b.

(** [np.full((n, n), np.nan)] holds no value yet: every comparison with an
    entry that was never assigned is False, as with nan. *)
Definition full_nan : matrix (option F) := fun _ _ => None.

Definition lt_entry (v : option F) (t : F) : bool :=
  match v with Some x => ltb x t | None => false end.

End Arrays.
End Np.

Module Scipy.
Import Numeric Py.

Section Signal.
Context {F : Type} `{Number F}.

(** [np.gradient] of a one-dimensional array with unit spacing: central
    differences inside, one-sided differences at the two ends. *)
Definition gradient (f : list F) : result (list F) :=
  let n := length f in
  let at_ (i : nat) := nth i f zero in
  assert! (2 <=? n)%nat
    or ValueError "Shape of array too small to calculate a numerical gradient" ;;
  Ok (map (fun i =>
             if (i =? 0)%nat then div (sub (at_ 1%nat) (at_ 0%nat)) one
             else if (i =? n - 1)%nat then div (sub (at_ (n - 1)%nat) (at_ (n - 2)%nat)) one
             else div (sub (at_ (i + 1)%nat) (at_ (i - 1)%nat)) (mul (of_Z 2) one))
          (seq 0 n)).

(** The inner loop of [find_peaks]: walk over a plateau of values equal to
    [x[i]], never past the last index. *)
Fixpoint plateau_end (x : list F) (xi : F) (i_max fuel i_ahead : nat) : nat :=
  match fuel with
  | O => i_ahead
  | S fuel' =>
      if (i_ahead <? i_max)%nat && eqb (nth i_ahead x zero) xi
      then plateau_end x xi i_max fuel' (S i_ahead)
      else i_ahead
  end.

(** [scipy.signal.find_peaks(x)[0]]: the midpoint of every plateau that is
    strictly higher than both its neighbours; the first and the last sample
    are never peaks. *)
Fixpoint local_maxima (x : list F) (i_max fuel i : nat) : list nat :=
  match fuel with
  | O => []
  | S fuel' =>
      if (i <? i_max)%nat then
        let xi := nth i x zero in
        if ltb (nth (i - 1) x zero) xi then
          let i_ahead := plateau_end x xi i_max (i_max - i) (i + 1) in
          if ltb (nth i_ahead x zero) xi
          then ((i + (i_ahead - 1)) / 2)%nat :: local_maxima x i_max fuel' (i_ahead + 1)
          else local_maxima x i_max fuel' (i + 1)
        else local_maxima x i_max fuel' (i + 1)
      else []
  end.

Definition find_peaks (x : list F) : list nat :=
  local_maxima x (length x - 1) (length x) 1.

End Signal.
End Scipy.

(** ** [auto_merge.py] *)

Module AutoMerge.
Import Numeric Py Np.

Section Functions.
Context {F : Type} `{Number F}.

(** The correlogram tensor [(N, N, B)]: [corr i j] is the row
    [correlograms[i, j, :]], [num_bins] is [shape[2]]. *)
Record tensor : Type := {
  num_bins : nat;
  corr : nat -> nat -> list F
}.

(** [normalize_correlogram] *)
Definition normalize_correlogram (correlogram : list F) : list F :=
  let mean := Np.mean correlogram in
  if eqb mean zero then correlogram
  else map (fun v => div v mean) correlogram.

(** [get_unit_adaptive_window].  [depth] is the number of recursive calls
    the interpreter still allows: Python raises [RecursionError] beyond
    its recursion limit.  The fallback [20.0] is stored by the caller in an
    integer array, hence an integer here. *)
Fixpoint get_unit_adaptive_window (depth : nat) (auto_corr : list F) (threshold : F)
  : result Z :=
  if eqb (Np.sum (map abs auto_corr)) zero then Ok 20%Z
  else
    g1 <- Scipy.gradient auto_corr ;;
    g2 <- Scipy.gradient g1 ;;
    let derivative_2 := map neg g2 in
    let peaks := Scipy.find_peaks derivative_2 in
    let peaks := filter (fun p => geb (nth p auto_corr zero) threshold) peaks in
    let peaks := filter (fun p => (p <? length auto_corr / 2)%nat) peaks in
    match rev peaks with
    | [] =>
        (* If none of the peaks crossed the threshold, redo with threshold/2. *)
        match depth with
        | O => Raise RecursionError
        | S depth' => get_unit_adaptive_window depth' auto_corr (div threshold (of_Z 2))
        end
    | last_peak :: _ =>
        (* keep the last peak (nearest to center) *)
        Ok (Z.of_nat (length auto_corr / 2) - Z.of_nat last_peak)%Z
    end.

(** [int(round(x))] *)
Definition py_int_round (x : F) : result Z :=
  match int_round x with
  | Some k => Ok k
  | None => Raise (ValueError "cannot convert float NaN to integer")
  end.

(** The body of the double loop of [compute_correlogram_diff] for one pair
    that is still a candidate. *)
Definition correlogram_pair_diff (num_spikes : nat -> Z) (correlograms_smoothed : tensor)
  (win_sizes : nat -> Z) (unit_ind1 unit_ind2 : nat) : result F :=
  (* Index of the middle of the correlograms. *)
  let m := Z.of_nat (num_bins correlograms_smoothed / 2) in
  let num1 := num_spikes unit_ind1 in
  let num2 := num_spikes unit_ind2 in
  (* Weighted window (larger unit imposes its window). *)
  win_size <- py_int_round
    (div (of_Z (num1 * win_sizes unit_ind1 + num2 * win_sizes unit_ind2)) (of_Z (num1 + num2))) ;;
  (* Plage of indices where correlograms are inside the window. *)
  let corr_inds := Np.arange (m - win_size) (m + win_size) in
  let shift := 0%Z in
  let auto_corr1 := normalize_correlogram (corr correlograms_smoothed unit_ind1 unit_ind1) in
  let auto_corr2 := normalize_correlogram (corr correlograms_smoothed unit_ind2 unit_ind2) in
  let cross_corr := normalize_correlogram (corr correlograms_smoothed unit_ind1 unit_ind2) in
  let abs_diff (a b : list F) := map (fun p => abs (sub (fst p) (snd p))) (combine a b) in
  cross1 <- Np.take cross_corr (map (fun k => k - shift)%Z corr_inds) ;;
  auto1 <- Np.take auto_corr1 corr_inds ;;
  let diff1 := div (Np.sum (abs_diff cross1 auto1)) (of_nat (length corr_inds)) in
  cross2 <- Np.take cross_corr (map (fun k => k - shift)%Z corr_inds) ;;
  auto2 <- Np.take auto_corr2 corr_inds ;;
  let diff2 := div (Np.sum (abs_diff cross2 auto2)) (of_nat (length corr_inds)) in
  (* Weighted difference (larger unit imposes its difference). *)
  Ok (div (add (mul (of_Z num1) diff1) (mul (of_Z num2) diff2)) (of_Z (num1 + num2))).

(** [compute_correlogram_diff]; [n] is [len(sorting.unit_ids)] and
    [num_spikes] is [sorting.count_num_spikes_per_unit(outputs="array")]. *)
Definition compute_correlogram_diff (n : nat) (num_spikes : nat -> Z)
  (correlograms_smoothed : tensor) (win_sizes : nat -> Z)
  (pair_mask : option (matrix bool)) : result (matrix (option F)) :=
  let pair_mask := match pair_mask with
                   | None => fun _ _ => true
                   | Some mask => mask
                   end in
  for_each (range 0 n) (fun unit_ind1 corr_diff =>
    for_each (range (unit_ind1 + 1) n) (fun unit_ind2 corr_diff =>
      if negb (pair_mask unit_ind1 unit_ind2) then Ok corr_diff
      else
        w_diff <- correlogram_pair_diff num_spikes correlograms_smoothed win_sizes
                    unit_ind1 unit_ind2 ;;
        Ok (Np.set corr_diff unit_ind1 unit_ind2 (Some w_diff)))
      corr_diff)
    Np.full_nan.


(** *** Template differences *)

(** The template array [(num_units, num_samples, num_channels)]:
    [template u] is [templates_array[u]], one row per sample. *)
Record templates : Type := {
  num_chans : nat;
  template : nat -> list (list F)
}.

(** [np.argsort], a NumPy routine whose order among equal keys the source
    does not fix. *)
Variable argsort : list F -> list nat.

Definition sum2 (t : list (list F)) : F := Np.sum (concat t).
Definition map2_rows (op : F -> F -> F) (a b : list (list F)) : result (list (list F)) :=
  Np.broadcast (fun r1 r2 => map (fun p => op (fst p) (snd p)) (combine r1 r2)) a b.
Definition abs2 (t : list (list F)) : list (list F) := map (map abs) t.
Definition square2 (t : list (list F)) : list (list F) := map (map (fun v => mul v v)) t.
(** [np.linalg.norm] of a two-dimensional array: the Frobenius norm. *)
Definition linalg_norm (t : list (list F)) : F := sqrt (sum2 (square2 t)).
(** [t[:, chan_inds]]; the indices come from [argsort] or [flatnonzero]
    over the channel axis. *)
Definition columns (t : list (list F)) (chan_inds : list nat) : list (list F) :=
  map (fun row => map (fun c => nth c row zero) chan_inds) t.

(** [np.max(np.abs(template1 + template2), axis=0)] *)
Definition channel_amplitudes (nchan : nat) (template1 template2 : list (list F))
  : result (list F) :=
  both <- map2_rows add template1 template2 ;;
  map_result (fun c => Np.max (map (fun row => nth c row zero) (abs2 both))) (seq 0 nchan).

Definition template_norm (template_metric : string) (template1 template2 : list (list F)) : F :=
  if String.eqb template_metric "l1" then add (sum2 (abs2 template1)) (sum2 (abs2 template2))
  else if String.eqb template_metric "l2" then add (sum2 (square2 template1)) (sum2 (square2 template2))
  else if String.eqb template_metric "cosine" then mul (linalg_norm template1) (linalg_norm template2)
  else zero.

(** The distance [d] at one shift. *)
Definition shift_diff (template_metric : string) (norm : F) (num_shift : nat)
  (template1 template2 : list (list F)) (shift : Z) : result F :=
  let num_samples := Z.of_nat (length template1) in
  let num_shift := Z.of_nat num_shift in
  let temp1 := Np.slice template1 num_shift (num_samples - num_shift) in
  let temp2 := Np.slice template2 (num_shift + shift) (num_samples - num_shift + shift) in
  if String.eqb template_metric "l1" then
    d <- map2_rows sub temp1 temp2 ;; Ok (div (sum2 (abs2 d)) norm)
  else if String.eqb template_metric "l2" then
    d <- map2_rows sub temp1 temp2 ;; Ok (div (linalg_norm d) norm)
  else if String.eqb template_metric "cosine" then
    p <- map2_rows mul temp1 temp2 ;; Ok (sub one (div (sum2 p) norm))
  else Raise (UnboundLocalError "d").

(** The channels a pair is compared on ("take best channels"). *)
Definition best_channels (templates_array : templates) (num_channels : option nat)
  (adaptative_masks : bool) (sparsity_mask : nat -> list bool) (unit_ind1 unit_ind2 : nat)
  : result (list nat) :=
  let template1 := template templates_array unit_ind1 in
  let template2 := template templates_array unit_ind2 in
  if negb adaptative_masks then
    amplitudes <- channel_amplitudes (num_chans templates_array) template1 template2 ;;
    let order := rev (argsort amplitudes) in
    Ok (match num_channels with
        | Some k => firstn k order
        | None => order
        end)
  else
    Ok (filter (fun c => nth c (sparsity_mask unit_ind1) false
                         && nth c (sparsity_mask unit_ind2) false)
               (seq 0 (length (sparsity_mask unit_ind1)))).

(** [all_shift_diff]: the distance at every shift, or ones when no channel
    is left. *)
Definition all_shift_diffs (num_shift : nat) (template_metric : string)
  (template1 template2 : list (list F)) (chan_inds : list nat) : result (list F) :=
  let all_shifts := Np.arange (- Z.of_nat num_shift) (Z.of_nat num_shift + 1) in
  if (0 <? length chan_inds)%nat then
    let template1 := columns template1 chan_inds in
    let template2 := columns template2 chan_inds in
    let norm := template_norm template_metric template1 template2 in
    map_result (shift_diff template_metric norm num_shift template1 template2) all_shifts
  else Ok (map (fun _ => of_Z 1) all_shifts).

(** The body of the double loop of [compute_templates_diff] for one pair
    that is still a candidate: [np.min(all_shift_diff)]. *)
Definition template_pair_diff (templates_array : templates) (num_channels : option nat)
  (num_shift : nat) (template_metric : string) (adaptative_masks : bool)
  (sparsity_mask : nat -> list bool) (unit_ind1 unit_ind2 : nat) : result F :=
  chan_inds <- best_channels templates_array num_channels adaptative_masks sparsity_mask
                 unit_ind1 unit_ind2 ;;
  all_shift_diff <- all_shift_diffs num_shift template_metric
                      (template templates_array unit_ind1)
                      (template templates_array unit_ind2) chan_inds ;;
  Np.min all_shift_diff.

(** [compute_templates_diff]; [n] is [len(sorting.unit_ids)], [sparsity]
    is [sparsity.mask] when a [ChannelSparsity] is passed. *)
Definition compute_templates_diff (n : nat) (templates_array : templates)
  (num_channels : option nat) (num_shift : nat) (pair_mask : option (matrix bool))
  (template_metric : string) (sparsity : option (nat -> list bool))
  : result (matrix (option F)) :=
  assert! (existsb (String.eqb template_metric) ["l1"; "l2"; "cosine"]%string)
    or AssertionError "Not a valid metric!" ;;
  let pair_mask := match pair_mask with
                   | None => fun _ _ => true
                   | Some mask => mask
                   end in
  let adaptative_masks :=
    match sparsity with
    | None => false
    | Some _ => match num_channels with None => true | Some _ => false end
    end in
  let sparsity_mask := match sparsity with
                       | None => fun _ => []
                       | Some mask => mask
                       end in
  for_each (range 0 n) (fun unit_ind1 templates_diff =>
    for_each (range (unit_ind1 + 1) n) (fun unit_ind2 templates_diff =>
      if negb (pair_mask unit_ind1 unit_ind2) then Ok templates_diff
      else
        d <- template_pair_diff templates_array num_channels num_shift template_metric
               adaptative_masks sparsity_mask unit_ind1 unit_ind2 ;;
        Ok (Np.set templates_diff unit_ind1 unit_ind2 (Some d)))
      templates_diff)
    Np.full_nan.


(** *** The collaborators

    The sorting, the analyzer and its extensions, the quality metrics and
    the merged-unit simulation are other modules of the package: the
    pipeline only calls them.  [U] is the type of unit identifiers. *)

Variable U : Type.

Record Sorting : Type := {
  (** [len(sorting.unit_ids)] *)
  num_units : nat;
  (** [sorting.unit_ids[i]] *)
  unit_ids : nat -> U;
  (** [sorting.count_num_spikes_per_unit(outputs="array")[i]] *)
  count_num_spikes_per_unit : nat -> Z
}.

Record Analyzer : Type := {
  sorting : Sorting;
  (** the contaminations of [compute_refrac_period_violations(analyzer,
      refractory_period_ms, censored_period_ms)], by unit index *)
  compute_refrac_period_violations : F -> F -> nat -> F;
  (** [get_extension("unit_locations")]: the first two coordinates per unit *)
  ext_unit_locations : option (nat -> F * F);
  (** [get_channel_locations()], by channel *)
  get_channel_locations : nat -> F * F;
  (** [get_template_extremum_channel(analyzer, peak_sign, ...)], by unit *)
  get_template_extremum_channel : string -> nat -> nat;
  (** [get_extension("correlograms").get_data()] *)
  ext_correlograms : option (tensor * list F);
  (** [compute_correlograms(sorting, window_ms, bin_ms)] *)
  compute_correlograms : F -> F -> tensor * list F;
  (** [get_extension("template_similarity").get_data()] *)
  ext_template_similarity : option (matrix F);
  (** [get_extension("templates").get_data(outputs="numpy")] *)
  ext_templates : option templates;
  (** [sorting_analyzer.sparsity.mask] *)
  sparsity : option (nat -> list bool);
  (** present when both [spike_locations] and [spike_amplitudes] are
      computed: for [k_nn] and a unit that has spikes, the unit index of
      every nearest neighbour of every spike of the unit,
      [spikes["unit_index"][ind.flatten()]] for the [ind] that the fitted
      tree answers *)
  ext_spike_neighbours : option (nat -> nat -> list nat);
  (** [compute_presence_distance(sorting, pair_mask, **kwargs)] *)
  compute_presence_distance : matrix bool -> matrix F;
  (** [estimate_cross_contamination(train1, train2, sf, n_frames,
      (censored, refractory), limit)] for the trains of two units *)
  estimate_cross_contamination : nat -> nat -> F * F -> F -> F * F;
  (** [compute_firing_rates(analyzer)], by unit index *)
  compute_firing_rates : nat -> F;
  (** contamination of the unit obtained by merging two units with
      [MergeUnitsSorting(..., delta_time_ms=censored_period_ms)], for
      [refractory_period_ms] and [censored_period_ms] *)
  merged_contamination : F -> F -> nat -> nat -> F;
  (** firing rate of that merged unit *)
  merged_firing_rate : F -> nat -> nat -> F
}.

(** [smooth_correlogram] convolves every row with a normalised Gaussian
    kernel through [np.exp] and [scipy.signal.fftconvolve(mode="same")]:
    this is that row operation, for [bins] and [sigma_smooth_ms]. *)
Variable gaussian_fftconvolve : list F -> F -> list F -> list F.

(** [smooth_correlogram]; [n] is [len(correlograms)]. *)
Definition smooth_correlogram (n : nat) (correlograms : tensor) (bins : list F)
  (sigma_smooth_ms : F) : tensor :=
  if (n =? 0)%nat then correlograms (* np.empty of the same shape *)
  else {| num_bins := num_bins correlograms;
          corr := fun i j => gaussian_fftconvolve bins sigma_smooth_ms (corr correlograms i j) |}.

(** [compute_cross_contaminations]; both arrays have dtype [float32]. *)
Definition compute_cross_contaminations (analyzer : Analyzer) (pair_mask : option (matrix bool))
  (CC_threshold : F) (refractory_period : F * F) : matrix F * matrix F :=
  let n := num_units (sorting analyzer) in
  let pair_mask := match pair_mask with
                   | None => fun _ _ => true
                   | Some mask => mask
                   end in
  fold_left (fun acc unit_ind1 =>
    fold_left (fun acc unit_ind2 =>
      if negb (pair_mask unit_ind1 unit_ind2) then acc
      else
        let '(cc, p) := estimate_cross_contamination analyzer unit_ind1 unit_ind2
                          refractory_period CC_threshold in
        (Np.set (fst acc) unit_ind1 unit_ind2 (f32 cc),
         Np.set (snd acc) unit_ind1 unit_ind2 (f32 p)))
      (range (unit_ind1 + 1) n) acc)
    (range 0 n) (fun _ _ => f32 zero, fun _ _ => f32 zero).

(** The quality score [f * (1 - (k + 1) * c)]. *)
Definition score (k f c : F) : F := mul f (sub one (mul (add k one) c)).

(** [check_improve_contaminations_score]: works on a copy of [pair_mask]. *)
Definition check_improve_contaminations_score (analyzer : Analyzer) (pair_mask : matrix bool)
  (contaminations : nat -> F) (firing_contamination_balance : F)
  (refractory_period_ms censored_period_ms : F) : matrix bool * list (U * U) :=
  let sorting := sorting analyzer in
  let firing_rates := compute_firing_rates analyzer in
  fold_left (fun acc ind =>
      let '(pair_mask, pairs_removed) := acc in
      let '(ind1, ind2) := ind in
      let c_1 := contaminations ind1 in
      let c_2 := contaminations ind2 in
      let f_1 := firing_rates ind1 in
      let f_2 := firing_rates ind2 in
      (* make a merged sorting and take one unit *)
      let c_new := merged_contamination analyzer refractory_period_ms censored_period_ms ind1 ind2 in
      let f_new := merged_firing_rate analyzer censored_period_ms ind1 ind2 in
      (* old and new scores *)
      let k := firing_contamination_balance in
      let score_1 := score k f_1 c_1 in
      let score_2 := score k f_2 c_2 in
      let score_new := score k f_new c_new in
      if ltb score_new score_1 || ltb score_new score_2 then
        (* the score is not improved *)
        (Np.set pair_mask ind1 ind2 false,
         pairs_removed ++ [(unit_ids sorting ind1, unit_ids sorting ind2)])
      else acc)
    (Np.nonzero (num_units sorting) pair_mask)
    (pair_mask, []).

(** [np.unique(values, return_counts=True)] for unit indices below [n]. *)
Definition unique_counts (n : nat) (values : list nat) : list (nat * nat) :=
  map (fun u => (u, count_occ Nat.eq_dec values u))
      (filter (fun u => existsb (Nat.eqb u) values) (seq 0 n)).

(** [get_pairs_via_nntree] with [sparse_distances=False], as the pipeline
    calls it: the mask it is given is narrowed in place and returned.
    [kdtree.kneighbors(data[mask])] is asked for every unit in turn: for a
    unit without spikes [data[mask]] is empty and scikit-learn raises
    [ValueError]. *)
Definition get_pairs_via_nntree (analyzer : Analyzer) (k_nn : nat)
  (pair_mask : option (matrix bool)) : result (matrix bool) :=
  let n := num_units (sorting analyzer) in
  let pair_mask := match pair_mask with
                   | None => fun _ _ => true
                   | Some mask => mask
                   end in
  match ext_spike_neighbours analyzer with
  | None => Raise (AttributeError "'NoneType' object has no attribute 'get_data'")
  | Some kneighbors =>
      for_each (range 0 n) (fun unit_ind pair_mask =>
          if (count_num_spikes_per_unit (sorting analyzer) unit_ind =? 0)%Z
          then Raise (ValueError "Found array with 0 sample(s) (shape=(0, 3)) while a minimum of 1 is required by NearestNeighbors.")
          else
            let found := unique_counts n (kneighbors k_nn unit_ind) in
            let chan_inds := map fst found in
            let all_counts := map (fun uc => of_nat (snd uc)) found in
            let best_indices := tl (rev (argsort all_counts)) in
            let best := map (fun b => nth b chan_inds 0%nat) best_indices in
            Ok (fun a b => if (a =? unit_ind)%nat
                           then pair_mask a b && existsb (Nat.eqb b) best
                           else pair_mask a b))
        pair_mask
  end.


(** *** The pipeline controller *)

(** The keyword arguments of [get_potential_auto_merge].  The defaults of
    the source are [steps=None], [preset=None], [num_channels=5],
    [num_shift=5], [template_metric="l1"], [extra_outputs=False]. *)
Record Params : Type := {
  minimum_spikes : Z;
  maximum_distance_um : F;
  peak_sign : string;
  bin_ms : F;
  window_ms : F;
  corr_diff_thresh : F;
  template_diff_thresh : F;
  censored_period_ms : F;
  refractory_period_ms : F;
  sigma_smooth_ms : F;
  contamination_threshold : F;
  adaptative_window_threshold : F;
  censor_correlograms_ms : F;
  num_channels : option nat;
  num_shift : nat;
  firing_contamination_balance : F;
  extra_outputs : bool;
  steps : option (list string);
  presence_distance_thresh : F;
  preset : option string;
  template_metric : string;
  p_value : F;
  CC_threshold : F;
  k_nn : nat
}.

(** The values the dictionary [outs] holds. *)
Inductive diagnostic : Type :=
| Distances (d : matrix F)
| Differences (d : matrix (option F))
| Correlograms (c : tensor)
| Bins (b : list F)
| WinSizes (w : nat -> Z)
| CrossContaminations (cc p : matrix F)
| Pairs (p : list (U * U)).

(** [outs[key] = value] *)
Fixpoint dict_set (outs : list (string * diagnostic)) (key : string) (value : diagnostic)
  : list (string * diagnostic) :=
  match outs with
  | [] => [(key, value)]
  | (k, v) :: rest =>
      if String.eqb k key then (k, value) :: rest else (k, v) :: dict_set rest key value
  end.

Definition dict_get (outs : list (string * diagnostic)) (key : string) : option diagnostic :=
  option_map snd (find (fun kv => String.eqb (fst kv) key) outs).

(** The local variables that live across iterations of the stage loop.
    [contaminations] is bound by the [remove_contaminated] stage only. *)
Record locals : Type := {
  pair_mask : matrix bool;
  contaminations : option (nat -> F);
  outs : list (string * diagnostic)
}.

Definition all_steps : list string :=
  [ "min_spikes"; "remove_contaminated"; "unit_positions"; "correlogram";
    "template_similarity"; "presence_distance"; "knn"; "cross_contamination";
    "check_increase_score" ]%string.

Definition preset_steps (preset : option string) : option (list string) :=
  match preset with
  | None =>
      Some [ "min_spikes"; "remove_contaminated"; "unit_positions";
             "template_similarity"; "correlogram"; "check_increase_score" ]%string
  | Some name =>
      if String.eqb name "temporal_splits" then
        Some [ "min_spikes"; "remove_contaminated"; "unit_positions";
               "template_similarity"; "correlogram"; "presence_distance";
               "check_increase_score" ]%string
      else if String.eqb name "lussac" then
        Some [ "min_spikes"; "remove_contaminated"; "unit_positions";
               "template_similarity"; "cross_contamination"; "check_increase_score" ]%string
      else if String.eqb name "knn" then
        Some [ "min_spikes"; "remove_contaminated"; "unit_positions"; "knn";
               "correlogram"; "check_increase_score" ]%string
      else None
  end.

(** [np.triu(m)] of a one-dimensional [m]: NumPy broadcasts [m] over the
    rows and zeroes what lies strictly below the diagonal. *)
Definition triu_1d (m : nat -> Z) : matrix Z :=
  fun i j => if (j <? i)%nat then 0%Z else m j.

(** [np.triu(np.arange(n)) > 0] *)
Definition initial_pair_mask : matrix bool :=
  fun i j => (0 <? triu_1d Z.of_nat i j)%Z.

(** The recursion depth left to [get_unit_adaptive_window] when the
    [correlogram] stage calls it. *)
Variable recursion_limit : nat.

Definition step_is (step name : string) (steps : list string) : bool :=
  String.eqb step name && existsb (String.eqb name) steps.

(** [scipy.spatial.distance.cdist(..., metric="euclidean")] on two points *)
Definition euclidean (a b : F * F) : F :=
  let dx := sub (fst a) (fst b) in
  let dy := sub (snd a) (snd b) in
  sqrt (add (mul dx dx) (mul dy dy)).

(** One iteration of [for step in steps], after the assertion on the name. *)
Definition run_step (analyzer : Analyzer) (p : Params) (steps : list string)
  (step : string) (st : locals) : result locals :=
  let sorting := sorting analyzer in
  let n := num_units sorting in
  let mask := pair_mask st in
  (* STEP 1 *)
  if String.eqb step "min_spikes" then
    let num_spikes := count_num_spikes_per_unit sorting in
    let to_remove := fun i => (num_spikes i <? minimum_spikes p)%Z in
    let mask := Np.set_rows mask to_remove false in
    let mask := Np.set_cols mask to_remove false in
    Ok {| pair_mask := mask; contaminations := contaminations st; outs := outs st |}
  (* STEP 2 : remove contaminated auto corr *)
  else if String.eqb step "remove_contaminated" then
    let contaminations := compute_refrac_period_violations analyzer
                            (refractory_period_ms p) (censored_period_ms p) in
    let to_remove := fun i => gtb (contaminations i) (contamination_threshold p) in
    let mask := Np.set_rows mask to_remove false in
    let mask := Np.set_cols mask to_remove false in
    Ok {| pair_mask := mask; contaminations := Some contaminations; outs := outs st |}
  (* STEP 3 : unit positions are estimated roughly with channel *)
  else if step_is step "unit_positions" steps then
    let unit_locations :=
      match ext_unit_locations analyzer with
      | Some locations => locations
      | None =>
          let unit_max_chan := get_template_extremum_channel analyzer (peak_sign p) in
          fun i => get_channel_locations analyzer (unit_max_chan i)
      end in
    let unit_distances := fun i j => euclidean (unit_locations i) (unit_locations j) in
    let mask := Np.mask_and mask (fun i j => leb (unit_distances i j) (maximum_distance_um p)) in
    Ok {| pair_mask := mask; contaminations := contaminations st;
          outs := dict_set (outs st) "unit_distances" (Distances unit_distances) |}
  (* STEP 4 : potential auto merge by correlogram *)
  else if step_is step "correlogram" steps then
    let '(correlograms, bins) :=
      match ext_correlograms analyzer with
      | Some data => data
      | None => compute_correlograms analyzer (window_ms p) (bin_ms p)
      end in
    let censor := map (fun b => geb b (neg (censor_correlograms_ms p))
                               && ltb b (censor_correlograms_ms p)) (removelast bins) in
    let correlograms :=
      {| num_bins := num_bins correlograms;
         corr := fun i j => map (fun vc : F * bool => if snd vc then of_Z 0 else fst vc)
                                (combine (corr correlograms i j) censor) |} in
    let correlograms_smoothed := smooth_correlogram n correlograms bins (sigma_smooth_ms p) in
    (* find correlogram window for each units *)
    win_sizes <- for_each (range 0 n) (fun unit_ind win_sizes =>
        let auto_corr := corr correlograms_smoothed unit_ind unit_ind in
        top <- Np.max auto_corr ;;
        let thresh := mul top (adaptative_window_threshold p) in
        win_size <- get_unit_adaptive_window recursion_limit auto_corr thresh ;;
        Ok (fun i => if (i =? unit_ind)%nat then win_size else win_sizes i))
      (fun _ => 0%Z) ;;
    correlogram_diff <- compute_correlogram_diff n (count_num_spikes_per_unit sorting)
                          correlograms_smoothed win_sizes (Some mask) ;;
    let mask := Np.mask_and mask
                  (fun i j => Np.lt_entry (correlogram_diff i j) (corr_diff_thresh p)) in
    let outs := dict_set (outs st) "correlograms" (Correlograms correlograms) in
    let outs := dict_set outs "bins" (Bins bins) in
    let outs := dict_set outs "correlograms_smoothed" (Correlograms correlograms_smoothed) in
    let outs := dict_set outs "correlogram_diff" (Differences correlogram_diff) in
    let outs := dict_set outs "win_sizes" (WinSizes win_sizes) in
    Ok {| pair_mask := mask; contaminations := contaminations st; outs := outs |}
  (* STEP 5 : check if potential merge with CC also have template similarity *)
  else if step_is step "template_similarity" steps then
    templates_diff <-
      match ext_template_similarity analyzer with
      | Some templates_similarity =>
          Ok (fun i j => Some (sub (of_Z 1) (templates_similarity i j)))
      | None =>
          match ext_templates analyzer with
          | None => Raise (AssertionError
              "auto_merge with template_similarity requires a SortingAnalyzer with extension templates")
          | Some templates_array =>
              compute_templates_diff n templates_array (num_channels p) (num_shift p)
                (Some mask) (template_metric p) (sparsity analyzer)
          end
      end ;;
    let mask := Np.mask_and mask
                  (fun i j => Np.lt_entry (templates_diff i j) (template_diff_thresh p)) in
    Ok {| pair_mask := mask; contaminations := contaminations st;
          outs := dict_set (outs st) "templates_diff" (Differences templates_diff) |}
  else if step_is step "knn" steps then
    mask <- get_pairs_via_nntree analyzer (k_nn p) (Some mask) ;;
    Ok {| pair_mask := mask; contaminations := contaminations st; outs := outs st |}
  (* STEP 6 : [optional] check how the rates overlap in times *)
  else if step_is step "presence_distance" steps then
    let presence_distances := compute_presence_distance analyzer mask in
    let mask := Np.mask_and mask
                  (fun i j => gtb (presence_distances i j) (presence_distance_thresh p)) in
    Ok {| pair_mask := mask; contaminations := contaminations st;
          outs := dict_set (outs st) "presence_distances" (Distances presence_distances) |}
  (* STEP 7 : [optional] check if the cross contamination is significant *)
  else if step_is step "cross_contamination" steps then
    let refractory := (censored_period_ms p, refractory_period_ms p) in
    let '(CC, p_values) := compute_cross_contaminations analyzer (Some mask)
                             (CC_threshold p) refractory in
    let mask := Np.mask_and mask (fun i j => gtb (p_values i j) (f32 (p_value p))) in
    Ok {| pair_mask := mask; contaminations := contaminations st;
          outs := dict_set (outs st) "cross_contaminations" (CrossContaminations CC p_values) |}
  (* STEP 8 : validate the potential merges with CC increase the contamination quality metrics *)
  else if step_is step "check_increase_score" steps then
    match contaminations st with
    | None => Raise (UnboundLocalError "contaminations")
    | Some contaminations =>
        let '(mask, pairs_decreased_score) :=
          check_improve_contaminations_score analyzer mask contaminations
            (firing_contamination_balance p) (refractory_period_ms p) (censored_period_ms p) in
        Ok {| pair_mask := mask; contaminations := Some contaminations;
              outs := dict_set (outs st) "pairs_decreased_score" (Pairs pairs_decreased_score) |}
    end
  else Ok st.

(** What a run of the stage loop leaves behind: the stages whose body was
    entered, in order, and the locals or the exception that ended it. *)
Record trace (A : Type) : Type := {
  executed : list string;
  outcome : result A
}.

(** [for step in steps: assert step in all_steps; ...] *)
Fixpoint run_steps (analyzer : Analyzer) (p : Params) (steps remaining : list string)
  (st : locals) : trace locals :=
  match remaining with
  | [] => {| executed := []; outcome := Ok st |}
  | step :: rest =>
      if negb (existsb (String.eqb step) all_steps) then
        {| executed := [];
           outcome := Raise (AssertionError (step ++ " is not a valid step")%string) |}
      else
        match run_step analyzer p steps step st with
        | Raise e => {| executed := [step]; outcome := Raise e |}
        | Ok st' =>
            let t := run_steps analyzer p steps rest st' in
            {| executed := step :: executed t; outcome := outcome t |}
        end
  end.

(** The list [steps] the loop iterates over. *)
Definition resolve_steps (p : Params) : option (list string) :=
  match steps p with
  | Some given => Some given
  | None => preset_steps (preset p)
  end.

(** FINAL STEP : create the final list from pair_mask boolean matrix *)
Definition potential_merges (sorting : Sorting) (mask : matrix bool) : list (U * U) :=
  map (fun ind => (unit_ids sorting (fst ind), unit_ids sorting (snd ind)))
      (Np.nonzero (num_units sorting) mask).

(** [get_potential_auto_merge], with the stages it entered. *)
Definition get_potential_auto_merge_trace (analyzer : Analyzer) (p : Params)
  : trace (list (U * U) * option (list (string * diagnostic))) :=
  match resolve_steps p with
  | None => {| executed := [];
               outcome := Raise (TypeError "'NoneType' object is not iterable") |}
  | Some steps =>
      let st := {| pair_mask := initial_pair_mask; contaminations := None; outs := [] |} in
      let t := run_steps analyzer p steps steps st in
      {| executed := executed t;
         outcome := st' <- outcome t ;;
                    let merges := potential_merges (sorting analyzer) (pair_mask st') in
                    Ok (merges, if extra_outputs p then Some (outs st') else None) |}
  end.

(** [get_potential_auto_merge] *)
Definition get_potential_auto_merge (analyzer : Analyzer) (p : Params)
  : result (list (U * U) * option (list (string * diagnostic))) :=
  outcome (get_potential_auto_merge_trace analyzer p).

End Functions.

Arguments tensor F : clear implicits.
Arguments templates F : clear implicits.
Arguments Analyzer F U : clear implicits.
Arguments Params F : clear implicits.
Arguments diagnostic F U : clear implicits.
Arguments locals F U : clear implicits.

End AutoMerge.

(** ** Vocabulary of the properties *)

Module Spec.
Import Numeric Py Np AutoMerge.

(** [after] has no True entry that [before] has not: entries were only
    cleared. *)
Definition shrinks (before after : matrix bool) : Prop :=
  forall i j, after i j = true -> before i j = true.

(** The strictly lower-triangular part is False. *)
Definition lower_false (m : matrix bool) : Prop :=
  forall i j, (j < i)%nat -> m i j = false.

(** No two rows of [unit_ids] hold the same identifier. *)
Definition distinct_ids {U} (s : Sorting U) : Prop :=
  forall i j, (i < num_units s)%nat -> (j < num_units s)%nat ->
    unit_ids s i = unit_ids s j -> i = j.

(** [l] without the entries equal to [name]. *)
Definition without (name : string) (l : list string) : list string :=
  filter (fun s => negb (String.eqb s name)) l.

Section Pipeline.
Context {F : Type} `{Number F} {U : Type}.
Variable argsort : list F -> list nat.
Variable gaussian_fftconvolve : list F -> F -> list F -> list F.
Variable recursion_limit : nat.

(** The candidate matrix after each stage of the loop that completed, in
    order. *)
Fixpoint mask_history (analyzer : Analyzer F U) (p : Params F) (steps remaining : list string)
  (st : locals F U) : list (matrix bool) :=
  match remaining with
  | [] => []
  | step :: rest =>
      if negb (existsb (String.eqb step) all_steps) then []
      else
        match run_step argsort gaussian_fftconvolve recursion_limit analyzer p steps step st with
        | Raise _ => []
        | Ok st' => pair_mask st' :: mask_history analyzer p steps rest st'
        end
  end.

(** The locals when the loop starts. *)
Definition initial_locals : locals F U :=
  {| pair_mask := initial_pair_mask; contaminations := None; outs := [] |}.

(** [p] with another [steps] argument. *)
Definition with_steps (p : Params F) (given : option (list string)) : Params F :=
  {| minimum_spikes := minimum_spikes p;
     maximum_distance_um := maximum_distance_um p;
     peak_sign := peak_sign p;
     bin_ms := bin_ms p;
     window_ms := window_ms p;
     corr_diff_thresh := corr_diff_thresh p;
     template_diff_thresh := template_diff_thresh p;
     censored_period_ms := censored_period_ms p;
     refractory_period_ms := refractory_period_ms p;
     sigma_smooth_ms := sigma_smooth_ms p;
     contamination_threshold := contamination_threshold p;
     adaptative_window_threshold := adaptative_window_threshold p;
     censor_correlograms_ms := censor_correlograms_ms p;
     num_channels := num_channels p;
     num_shift := num_shift p;
     firing_contamination_balance := firing_contamination_balance p;
     extra_outputs := extra_outputs p;
     steps := given;
     presence_distance_thresh := presence_distance_thresh p;
     preset := preset p;
     template_metric := template_metric p;
     p_value := p_value p;
     CC_threshold := CC_threshold p;
     k_nn := k_nn p |}.

(** [p] with another [template_metric] argument. *)
Definition with_metric (p : Params F) (metric : string) : Params F :=
  {| minimum_spikes := minimum_spikes p;
     maximum_distance_um := maximum_distance_um p;
     peak_sign := peak_sign p;
     bin_ms := bin_ms p;
     window_ms := window_ms p;
     corr_diff_thresh := corr_diff_thresh p;
     template_diff_thresh := template_diff_thresh p;
     censored_period_ms := censored_period_ms p;
     refractory_period_ms := refractory_period_ms p;
     sigma_smooth_ms := sigma_smooth_ms p;
     contamination_threshold := contamination_threshold p;
     adaptative_window_threshold := adaptative_window_threshold p;
     censor_correlograms_ms := censor_correlograms_ms p;
     num_channels := num_channels p;
     num_shift := num_shift p;
     firing_contamination_balance := firing_contamination_balance p;
     extra_outputs := extra_outputs p;
     steps := steps p;
     presence_distance_thresh := presence_distance_thresh p;
     preset := preset p;
     template_metric := metric;
     p_value := p_value p;
     CC_threshold := CC_threshold p;
     k_nn := k_nn p |}.

(** The reading of "fails fast" for stage names: a run whose list holds a
    name outside the recognized set enters no stage at all and ends in an
    [AssertionError]. *)
Definition unknown_step_fails_first (analyzer : Analyzer F U) (p : Params F) : Prop :=
  forall given bad,
    resolve_steps p = Some given -> In bad given -> ~ In bad all_steps ->
    let t := get_potential_auto_merge_trace argsort gaussian_fftconvolve recursion_limit
               analyzer p in
    executed t = [] /\ exists msg, outcome t = Raise (AssertionError msg).

(** The same for the metric: a run whose [template_metric] is none of
    [l1], [l2], [cosine] enters no stage at all and ends in an
    [AssertionError]. *)
Definition unknown_metric_fails_first (analyzer : Analyzer F U) (p : Params F) : Prop :=
  ~ In (template_metric p) ["l1"; "l2"; "cosine"]%string ->
  let t := get_potential_auto_merge_trace argsort gaussian_fftconvolve recursion_limit
             analyzer p in
  executed t = [] /\ exists msg, outcome t = Raise (AssertionError msg).

(** What [run_steps] leaves when the name [bad] is met after the stages
    [pre]: the trace of [pre], ended by the assertion on [bad] if [pre]
    completed. *)
Definition rejected_after (analyzer : Analyzer F U) (p : Params F) (steps pre : list string)
  (bad : string) (st : locals F U) : trace (locals F U) :=
  let t := run_steps argsort gaussian_fftconvolve recursion_limit analyzer p steps pre st in
  {| executed := executed t;
     outcome := match outcome t with
                | Ok _ => Raise (AssertionError (bad ++ " is not a valid step")%string)
                | Raise e => Raise e
                end |}.

End Pipeline.

(** *** The loops over the candidate pairs

    [compute_correlogram_diff] and [compute_templates_diff] fill their
    array with the same double loop; [body] is what they compute for one
    pair. *)

Section PairLoop.
Context {F : Type}.
Variable n : nat.
Variable mask : matrix bool.
Variable body : nat -> nat -> result F.

Definition entry_of (r : result F) : option F :=
  match r with Ok d => Some d | Raise _ => None end.

Definition inner (unit_ind1 : nat) (unit_ind2 : nat) (acc : matrix (option F))
  : result (matrix (option F)) :=
  if negb (mask unit_ind1 unit_ind2) then Ok acc
  else d <- body unit_ind1 unit_ind2 ;; Ok (Np.set acc unit_ind1 unit_ind2 (Some d)).

Definition pair_loop : result (matrix (option F)) :=
  for_each (range 0 n)
    (fun unit_ind1 acc => for_each (range (unit_ind1 + 1) n) (inner unit_ind1) acc)
    (fun _ _ => None).

End PairLoop.

(** *** The correlogram difference, as the specification words it *)

Section Correlograms.
Context {F : Type} `{Number F}.

(** The spike-count-weighted average of two values. *)
Definition weighted_average (n1 n2 : Z) (x1 x2 : F) : F :=
  div (add (mul (of_Z n1) x1) (mul (of_Z n2) x2)) (of_Z (n1 + n2)).

(** The window of a pair before rounding: the spike-count-weighted average
    of the two windows. *)
Definition weighted_window (num_spikes win_sizes : nat -> Z) (i j : nat) : F :=
  div (of_Z (num_spikes i * win_sizes i + num_spikes j * win_sizes j))
      (of_Z (num_spikes i + num_spikes j)).

(** The bins within the half-window [w] around the centre bin [m]:
    [m - w], ..., [m + w - 1]. *)
Definition window_bins (m w : Z) : list nat :=
  map Z.to_nat (Np.arange (m - w) (m + w)).

(** The mean absolute difference of two correlograms over [bins]. *)
Definition mean_abs_diff (cross auto : list F) (bins : list nat) : F :=
  div (Np.sum (map (fun b => abs (sub (nth b cross zero) (nth b auto zero))) bins))
      (of_nat (length bins)).

(** A correlogram normalized to unit mean: every bin divided by the mean
    of the bins, the sum of the bins over their number; a correlogram
    whose mean is zero is left as it is. *)
Definition unit_mean (correlogram : list F) : list F :=
  let mean := div (fold_left add correlogram zero) (of_nat (length correlogram)) in
  if eqb mean zero then correlogram
  else map (fun bin => div bin mean) correlogram.

(** The correlogram difference of the pair (i, j) for the window [w]: the
    spike-count-weighted average of the two mean absolute differences,
    over the bins of the window, between the normalized cross-correlogram
    and the normalized auto-correlogram of each unit. *)
Definition correlogram_difference (num_spikes : nat -> Z) (c : tensor F) (w : Z)
  (i j : nat) : F :=
  let bins := window_bins (Z.of_nat (num_bins c / 2)) w in
  let cross := unit_mean (corr c i j) in
  weighted_average (num_spikes i) (num_spikes j)
    (mean_abs_diff cross (unit_mean (corr c i i)) bins)
    (mean_abs_diff cross (unit_mean (corr c j j)) bins).

End Correlograms.

(** *** The adaptive window *)

Section Window.
Context {F : Type} `{Number F}.

(** The recursion reaches a window: some recursion depth is enough for
    [get_unit_adaptive_window] to return. *)
Definition reaches_window (auto_corr : list F) (threshold : F) : Prop :=
  exists depth w, get_unit_adaptive_window depth auto_corr threshold = Ok w.

(** The recursion reaches no window, however deep it may go. *)
Definition never_returns (auto_corr : list F) (threshold : F) : Prop :=
  forall depth, get_unit_adaptive_window depth auto_corr threshold = Raise RecursionError.

(** The local maxima of the negated second derivative that lie left of the
    centre, whatever the threshold. *)
Definition left_peaks (auto_corr : list F) : result (list nat) :=
  g1 <- Scipy.gradient auto_corr ;;
  g2 <- Scipy.gradient g1 ;;
  Ok (filter (fun p => (p <? length auto_corr / 2)%nat) (Scipy.find_peaks (map neg g2))).

(** The peaks that cross the threshold, [peaks[auto_corr[peaks] >=
    threshold]], before those at the centre and right of it are dropped. *)
Definition threshold_peaks (auto_corr : list F) (threshold : F) : result (list nat) :=
  g1 <- Scipy.gradient auto_corr ;;
  g2 <- Scipy.gradient g1 ;;
  Ok (filter (fun p => geb (nth p auto_corr zero) threshold)
             (Scipy.find_peaks (map neg g2))).

(** The threshold after [k] halvings. *)
Fixpoint halved (k : nat) (threshold : F) : F :=
  match k with
  | O => threshold
  | S k' => halved k' (div threshold (of_Z 2))
  end.

End Window.

(** *** Template differences *)

Section Templates.
Context {F : Type} `{Number F}.
Variable argsort : list F -> list nat.

(** [adaptative_masks] and [sparsity_mask] as [compute_templates_diff]
    derives them from its arguments. *)
Definition adaptative_masks_of (num_channels : option nat)
  (sparsity : option (nat -> list bool)) : bool :=
  match sparsity with
  | None => false
  | Some _ => match num_channels with None => true | Some _ => false end
  end.

Definition sparsity_mask_of (sparsity : option (nat -> list bool)) : nat -> list bool :=
  match sparsity with
  | None => fun _ => []
  | Some mask => mask
  end.

(** The channels [compute_templates_diff] compares a pair on. *)
Definition compared_channels (templates_array : templates F) (num_channels : option nat)
  (sparsity : option (nat -> list bool)) (unit_ind1 unit_ind2 : nat) : result (list nat) :=
  best_channels argsort templates_array num_channels
    (adaptative_masks_of num_channels sparsity) (sparsity_mask_of sparsity)
    unit_ind1 unit_ind2.

(** The two sparsity masks share no channel. *)
Definition disjoint_channels (mask1 mask2 : list bool) : Prop :=
  forall c, nth c mask1 false && nth c mask2 false = false.

End Templates.

(** Every entry of a two-dimensional array of rationals is zero. *)
Definition all_zero2 (t : list (list Q)) : Prop :=
  Forall (Forall (fun v => v == 0)%Q) t.

(** *** Normalization *)

Section Normalize.
Context {F : Type} `{Number F}.


End Normalize.



(** *** The arguments of the functions *)

Section Arguments.
Context {F : Type} `{Number F} {U : Type}.
Variable argsort : list F -> list nat.

(** [pair_mask] as the functions read it: all ones when it is [None]. *)
Definition mask_or_ones (pair_mask : option (matrix bool)) : matrix bool :=
  match pair_mask with
  | None => fun _ _ => true
  | Some mask => mask
  end.

(** The columns row [unit_ind] of the matrix keeps in
    [get_pairs_via_nntree]: [chan_inds[best_indices]], the units found
    among the neighbours of the spikes of [unit_ind], the first of the
    descending order of counts left out. *)
Definition kept_neighbours (analyzer : Analyzer F U) (kneighbors : nat -> nat -> list nat)
  (k_nn unit_ind : nat) : list nat :=
  let found := unique_counts (num_units (sorting analyzer)) (kneighbors k_nn unit_ind) in
  let chan_inds := map fst found in
  let all_counts := map (fun uc => of_nat (snd uc)) found in
  let best_indices := tl (rev (argsort all_counts)) in
  map (fun b => nth b chan_inds 0%nat) best_indices.

(** Row [unit_ind] after its pass of the loop of [get_pairs_via_nntree]:
    [pair_mask[unit_ind] &= np.isin(np.arange(n), chan_inds[best_indices])]. *)
Definition narrow_row (analyzer : Analyzer F U) (kneighbors : nat -> nat -> list nat)
  (k_nn : nat) (pair_mask : matrix bool) (unit_ind : nat) : matrix bool :=
  fun a b => if (a =? unit_ind)%nat
             then pair_mask a b
                  && existsb (Nat.eqb b) (kept_neighbours analyzer kneighbors k_nn unit_ind)
             else pair_mask a b.

(** What [kneighbors] raises for a unit without spikes. *)
Definition no_sample_error : exn :=
  ValueError "Found array with 0 sample(s) (shape=(0, 3)) while a minimum of 1 is required by NearestNeighbors.".

(** Every unit has a spike. *)
Definition every_unit_spikes (s : Sorting U) : Prop :=
  forall a, (a < num_units s)%nat -> count_num_spikes_per_unit s a <> 0%Z.

(** The test of [check_improve_contaminations_score] on the pair
    [(ind1, ind2)]: [score_new < score_1 or score_new < score_2]. *)
Definition score_decreases (analyzer : Analyzer F U) (contaminations : nat -> F)
  (firing_contamination_balance refractory_period_ms censored_period_ms : F)
  (ind1 ind2 : nat) : bool :=
  let k := firing_contamination_balance in
  let score_1 := score k (compute_firing_rates analyzer ind1) (contaminations ind1) in
  let score_2 := score k (compute_firing_rates analyzer ind2) (contaminations ind2) in
  let score_new :=
    score k (merged_firing_rate analyzer censored_period_ms ind1 ind2)
            (merged_contamination analyzer refractory_period_ms censored_period_ms ind1 ind2) in
  ltb score_new score_1 || ltb score_new score_2.

(** [p] with another [preset] argument. *)
Definition with_preset (p : Params F) (name : option string) : Params F :=
  {| minimum_spikes := minimum_spikes p;
     maximum_distance_um := maximum_distance_um p;
     peak_sign := peak_sign p;
     bin_ms := bin_ms p;
     window_ms := window_ms p;
     corr_diff_thresh := corr_diff_thresh p;
     template_diff_thresh := template_diff_thresh p;
     censored_period_ms := censored_period_ms p;
     refractory_period_ms := refractory_period_ms p;
     sigma_smooth_ms := sigma_smooth_ms p;
     contamination_threshold := contamination_threshold p;
     adaptative_window_threshold := adaptative_window_threshold p;
     censor_correlograms_ms := censor_correlograms_ms p;
     num_channels := num_channels p;
     num_shift := num_shift p;
     firing_contamination_balance := firing_contamination_balance p;
     extra_outputs := extra_outputs p;
     steps := steps p;
     presence_distance_thresh := presence_distance_thresh p;
     preset := name;
     template_metric := template_metric p;
     p_value := p_value p;
     CC_threshold := CC_threshold p;
     k_nn := k_nn p |}.

(** [p] with another [extra_outputs] argument. *)
Definition with_extra_outputs (p : Params F) (flag : bool) : Params F :=
  {| minimum_spikes := minimum_spikes p;
     maximum_distance_um := maximum_distance_um p;
     peak_sign := peak_sign p;
     bin_ms := bin_ms p;
     window_ms := window_ms p;
     corr_diff_thresh := corr_diff_thresh p;
     template_diff_thresh := template_diff_thresh p;
     censored_period_ms := censored_period_ms p;
     refractory_period_ms := refractory_period_ms p;
     sigma_smooth_ms := sigma_smooth_ms p;
     contamination_threshold := contamination_threshold p;
     adaptative_window_threshold := adaptative_window_threshold p;
     censor_correlograms_ms := censor_correlograms_ms p;
     num_channels := num_channels p;
     num_shift := num_shift p;
     firing_contamination_balance := firing_contamination_balance p;
     extra_outputs := flag;
     steps := steps p;
     presence_distance_thresh := presence_distance_thresh p;
     preset := preset p;
     template_metric := template_metric p;
     p_value := p_value p;
     CC_threshold := CC_threshold p;
     k_nn := k_nn p |}.

End Arguments.

(** *** What the stages compute *)

Section StageValues.
Context {F : Type} `{Number F} {U : Type}.
Variable gaussian_fftconvolve : list F -> F -> list F -> list F.
Variable recursion_limit : nat.

(** [unit_locations] of the [unit_positions] stage: the extension when it
    is computed, else the location of the extremum channel. *)
Definition unit_locations (analyzer : Analyzer F U) (p : Params F) : nat -> F * F :=
  match ext_unit_locations analyzer with
  | Some locations => locations
  | None => fun i => get_channel_locations analyzer
                       (get_template_extremum_channel analyzer (peak_sign p) i)
  end.

(** [correlograms, bins] of the [correlogram] stage. *)
Definition correlogram_data (analyzer : Analyzer F U) (p : Params F) : tensor F * list F :=
  match ext_correlograms analyzer with
  | Some data => data
  | None => compute_correlograms analyzer (window_ms p) (bin_ms p)
  end.

(** [correlograms] after [correlograms[:, :, mask] = 0]. *)
Definition censored_correlograms (analyzer : Analyzer F U) (p : Params F) : tensor F :=
  let correlograms := fst (correlogram_data analyzer p) in
  let bins := snd (correlogram_data analyzer p) in
  let censor := map (fun b => geb b (neg (censor_correlograms_ms p))
                             && ltb b (censor_correlograms_ms p)) (removelast bins) in
  {| num_bins := num_bins correlograms;
     corr := fun i j => map (fun vc : F * bool => if snd vc then of_Z 0 else fst vc)
                            (combine (corr correlograms i j) censor) |}.

(** [correlograms_smoothed] *)
Definition smoothed_correlograms (analyzer : Analyzer F U) (p : Params F) : tensor F :=
  smooth_correlogram gaussian_fftconvolve (num_units (sorting analyzer))
    (censored_correlograms analyzer p) (snd (correlogram_data analyzer p)) (sigma_smooth_ms p).

(** [win_sizes]: the loop over the units that calls
    [get_unit_adaptive_window]. *)
Definition window_sizes (analyzer : Analyzer F U) (p : Params F) : result (nat -> Z) :=
  for_each (range 0 (num_units (sorting analyzer))) (fun unit_ind win_sizes =>
      let auto_corr := corr (smoothed_correlograms analyzer p) unit_ind unit_ind in
      top <- Np.max auto_corr ;;
      let thresh := mul top (adaptative_window_threshold p) in
      win_size <- get_unit_adaptive_window recursion_limit auto_corr thresh ;;
      Ok (fun i => if (i =? unit_ind)%nat then win_size else win_sizes i))
    (fun _ => 0%Z).

(** The keys of [outs] a stage assigns. *)
Definition stage_keys (step : string) : list string :=
  (if String.eqb step "unit_positions" then ["unit_distances"]
   else if String.eqb step "correlogram" then
     ["correlograms"; "bins"; "correlograms_smoothed"; "correlogram_diff"; "win_sizes"]
   else if String.eqb step "template_similarity" then ["templates_diff"]
   else if String.eqb step "presence_distance" then ["presence_distances"]
   else if String.eqb step "cross_contamination" then ["cross_contaminations"]
   else if String.eqb step "check_increase_score" then ["pairs_decreased_score"]
   else [])%string.

(** The assignments [outs[key] = value] of a list of keys, in order. *)
Definition assign (d : list (string * diagnostic F U)) (kvs : list (string * diagnostic F U))
  : list (string * diagnostic F U) :=
  fold_left (fun d kv => dict_set d (fst kv) (snd kv)) kvs d.

(** The local [contaminations] is unbound or holds what the
    [remove_contaminated] stage binds it to. *)
Definition bound_by_stage (analyzer : Analyzer F U) (p : Params F) (st : locals F U) : Prop :=
  contaminations st = None
  \/ contaminations st
     = Some (compute_refrac_period_violations analyzer (refractory_period_ms p)
               (censored_period_ms p)).

End StageValues.

End Spec.

(** ** A small recording

    Three units on [binary64], used where a property is run on data. *)

Module Demo.
Import Numeric Py Np AutoMerge.
#[local] Set Warnings "-inexact-float".

(** A stable ascending [argsort] by insertion: what NumPy's sort does on
    the short arrays used here. *)
Fixpoint insert_index {F} `{Number F} (v : F) (i : nat) (sorted : list (F * nat))
  : list (F * nat) :=
  match sorted with
  | [] => [(v, i)]
  | (w, j) :: rest =>
      if ltb v w then (v, i) :: (w, j) :: rest
      else (w, j) :: insert_index v i rest
  end.

Definition argsort_insertion {F} `{Number F} (x : list F) : list nat :=
  map snd
    (fold_left (fun sorted vi => insert_index (fst vi) (snd vi) sorted)
               (combine x (seq 0 (length x))) []).

(** Smoothing left out: every row is returned as it is. *)
Definition no_smoothing {F} (bins : list F) (sigma : F) (row : list F) : list F := row.

Definition sorting3 : Sorting string :=
  {| num_units := 3;
     unit_ids := fun i => nth i ["a"; "b"; "c"]%string "?"%string;
     count_num_spikes_per_unit := fun i => nth i [200; 150; 300]%Z 0%Z |}.

Definition templates3 : templates float :=
  {| num_chans := 2;
     template := fun u =>
       nth u [ [[0; 0]; [1; 0]; [4; 1]; [1; 0]; [0; 0]];
               [[0; 0]; [1; 0]; [4; 1]; [1; 0]; [0; 0]];
               [[0; 0]; [0; 9]; [0; 40]; [0; 9]; [0; 0]] ]%float [] |}.

Definition correlograms3 : tensor float * list float :=
  ({| num_bins := 6; corr := fun i j => [1; 2; 3; 3; 2; 1]%float |},
   [-0.75; -0.5; -0.25; 0; 0.25; 0.5; 0.75]%float).

Definition analyzer3 : Analyzer float string :=
  {| sorting := sorting3;
     compute_refrac_period_violations := fun _ _ i => nth i [0.05; 0.5; 0.1]%float 0%float;
     ext_unit_locations :=
       Some (fun i => nth i [(0, 0); (10, 0); (500, 0)]%float (0, 0)%float);
     get_channel_locations := fun c => (0%float, PrimFloat.mul 20 (of_nat c));
     get_template_extremum_channel := fun _ u => u;
     ext_correlograms := None;
     compute_correlograms := fun _ _ => correlograms3;
     ext_template_similarity := None;
     ext_templates := Some templates3;
     sparsity := None;
     ext_spike_neighbours := None;
     compute_presence_distance := fun _ _ _ => 0%float;
     estimate_cross_contamination := fun _ _ _ _ => (0, 1)%float;
     compute_firing_rates := fun i => nth i [10; 5; 20]%float 0%float;
     merged_contamination := fun _ _ i j =>
       if ((i =? 0) && (j =? 2))%nat then 0.25%float else 0.1%float;
     merged_firing_rate := fun _ i j =>
       PrimFloat.add (nth i [10; 5; 20]%float 0%float) (nth j [10; 5; 20]%float 0%float) |}.

(** The defaults of [get_potential_auto_merge]. *)
Definition defaults : Params float :=
  {| minimum_spikes := 100;
     maximum_distance_um := 150;
     peak_sign := "neg";
     bin_ms := 0.25;
     window_ms := 100;
     corr_diff_thresh := 0.16;
     template_diff_thresh := 0.25;
     censored_period_ms := 0.3;
     refractory_period_ms := 1;
     sigma_smooth_ms := 0.6;
     contamination_threshold := 0.2;
     adaptative_window_threshold := 0.5;
     censor_correlograms_ms := 0.15;
     num_channels := Some 5%nat;
     num_shift := 5;
     firing_contamination_balance := 2.5;
     extra_outputs := false;
     steps := None;
     presence_distance_thresh := 100;
     preset := None;
     template_metric := "l1";
     p_value := 0.2;
     CC_threshold := 0.1;
     k_nn := 5 |}%float.

(** The pipeline on [binary64] with the stand-ins above and Python's
    default recursion limit. *)
Definition run (analyzer : Analyzer float string) (p : Params float) :=
  get_potential_auto_merge_trace argsort_insertion no_smoothing 1000 analyzer p.

(** Two units with six-bin correlograms. *)
Definition tensor2 : tensor float :=
  {| num_bins := 6;
     corr := fun i j =>
       if (i =? j)%nat
       then (if (i =? 0)%nat then [1; 2; 3; 3; 2; 1] else [2; 2; 4; 4; 2; 2])%float
       else [1; 1; 2; 2; 1; 1]%float |}.
Definition spikes2 (i : nat) : Z := nth i [100; 300]%Z 0%Z.
Definition windows2 (i : nat) : Z := nth i [1; 2]%Z 0%Z.

(** The array a function returned, for a run that is known to return. *)
Definition returned_array {F} (r : result (matrix (option F))) : matrix (option F) :=
  match r with Ok D => D | Raise _ => fun _ _ => None end.

(** Two units with the same three-sample template on one channel. *)
Definition identical2 : templates float :=
  {| num_chans := 1; template := fun _ => [[1]; [2]; [1]]%float |}.

(** The same on the rationals. *)
Definition identical2_exact : templates Q :=
  {| num_chans := 1; template := fun _ => [[1]; [2]; [1]]%Q |}.

(** Two units on two channels, each silent on the channel of the other,
    and the sparsity masks that say so. *)
Definition disjoint2 : templates float :=
  {| num_chans := 2;
     template := fun u => if (u =? 0)%nat then [[1; 0]; [1; 0]; [1; 0]]%float
                          else [[0; 1]; [0; 1]; [0; 1]]%float |}.
Definition disjoint_masks (u : nat) : list bool :=
  if (u =? 0)%nat then [true; false] else [false; true].

(** [pair_mask] of all ones. *)
Definition all_pairs : matrix bool := fun _ _ => true.


(** The units found among the nearest neighbours of the spikes of each
    unit: the first unit is on its own. *)
Definition neighbours3 (k_nn unit_ind : nat) : list nat :=
  nth unit_ind [[0; 0; 0; 0]; [1; 1; 2; 1; 2; 0]; [2; 2; 1; 2]]%nat [].

(** The three units with low contaminations, with spike locations and
    amplitudes computed, and far apart in time. *)
Definition analyzer3_clean : Analyzer float string :=
  {| sorting := sorting3;
     compute_refrac_period_violations := fun _ _ i => nth i [0.05; 0.1; 0.1]%float 0%float;
     ext_unit_locations := ext_unit_locations analyzer3;
     get_channel_locations := get_channel_locations analyzer3;
     get_template_extremum_channel := get_template_extremum_channel analyzer3;
     ext_correlograms := ext_correlograms analyzer3;
     compute_correlograms := compute_correlograms analyzer3;
     ext_template_similarity := ext_template_similarity analyzer3;
     ext_templates := ext_templates analyzer3;
     sparsity := sparsity analyzer3;
     ext_spike_neighbours := Some neighbours3;
     compute_presence_distance := fun _ _ _ => 200%float;
     estimate_cross_contamination := estimate_cross_contamination analyzer3;
     compute_firing_rates := compute_firing_rates analyzer3;
     merged_contamination := merged_contamination analyzer3;
     merged_firing_rate := merged_firing_rate analyzer3 |}.

(** The same three units, the second one without a spike. *)
Definition analyzer3_silent : Analyzer float string :=
  {| sorting := {| num_units := 3;
                   unit_ids := unit_ids sorting3;
                   count_num_spikes_per_unit := fun i => nth i [200; 0; 300]%Z 0%Z |};
     compute_refrac_period_violations := compute_refrac_period_violations analyzer3_clean;
     ext_unit_locations := ext_unit_locations analyzer3_clean;
     get_channel_locations := get_channel_locations analyzer3_clean;
     get_template_extremum_channel := get_template_extremum_channel analyzer3_clean;
     ext_correlograms := ext_correlograms analyzer3_clean;
     compute_correlograms := compute_correlograms analyzer3_clean;
     ext_template_similarity := ext_template_similarity analyzer3_clean;
     ext_templates := ext_templates analyzer3_clean;
     sparsity := sparsity analyzer3_clean;
     ext_spike_neighbours := ext_spike_neighbours analyzer3_clean;
     compute_presence_distance := compute_presence_distance analyzer3_clean;
     estimate_cross_contamination := estimate_cross_contamination analyzer3_clean;
     compute_firing_rates := compute_firing_rates analyzer3_clean;
     merged_contamination := merged_contamination analyzer3_clean;
     merged_firing_rate := merged_firing_rate analyzer3_clean |}.

(** The matrix a function returned, for a run that is known to return. *)
Definition returned_matrix (r : result (matrix bool)) : matrix bool :=
  match r with Ok m => m | Raise _ => fun _ _ => false end.

(** The list a call returned, for a run that is known to return. *)
Definition returned_merges {F U} (r : result (list (U * U) * option (list (string * diagnostic F U))))
  : list (U * U) :=
  match r with Ok (merges, _) => merges | Raise _ => [] end.

(** The dictionary a call returned with the list. *)
Definition returned_diagnostics {F U}
  (r : result (list (U * U) * option (list (string * diagnostic F U))))
  : option (list (string * diagnostic F U)) :=
  match r with Ok (_, diagnostics) => diagnostics | Raise _ => None end.

End Demo.

(** * Properties *)

Module Properties.
Import Numeric Py Np AutoMerge Spec.
Unset Implicit Arguments.

(** ** Boolean matrices *)

Lemma shrinks_refl m : shrinks m m.
Proof. intros i j Hij; exact Hij. Qed.

Lemma shrinks_trans m1 m2 m3 : shrinks m1 m2 -> shrinks m2 m3 -> shrinks m1 m3.
Proof. intros H12 H23 i j Hij. apply H12, H23, Hij. Qed.

Lemma in_nonzero n (m : matrix bool) i j :
  In (i, j) (nonzero n m) <-> (i < n)%nat /\ (j < n)%nat /\ m i j = true.
Proof.
  unfold nonzero. rewrite in_flat_map. split.
  - intros (a & Ha & Hin). apply in_map_iff in Hin as (b & Hb & Hin).
    inversion Hb; subst a b. apply filter_In in Hin as (Hj & Hm).
    apply in_seq in Ha. apply in_seq in Hj. repeat split; (lia || assumption).
  - intros (Hi & Hj & Hm). exists i. split.
    + apply in_seq. lia.
    + apply in_map, filter_In. split; [apply in_seq; lia | exact Hm].
Qed.

Lemma filter_length_le {A} (f g : A -> bool) (l : list A) :
  (forall x, f x = true -> g x = true) ->
  (length (filter f l) <= length (filter g l))%nat.
Proof.
  intros Hfg. induction l as [|x l IH]; simpl; [lia|].
  destruct (f x) eqn:Hf.
  - rewrite (Hfg x Hf). simpl. lia.
  - destruct (g x); simpl; lia.
Qed.

Lemma count_true_le n (before after : matrix bool) :
  shrinks before after -> (count_true n after <= count_true n before)%nat.
Proof.
  intros Hs. unfold count_true, nonzero.
  generalize (seq 0 n) at 2 4. intros rows.
  induction rows as [|i rows IH]; simpl; [lia|].
  rewrite !length_app, !length_map.
  pose proof (filter_length_le (after i) (before i) (seq 0 n) (Hs i)). lia.
Qed.

(** ** Every stage narrows the candidate matrix *)

Section Pipeline.
Context {F : Type} `{Number F} {U : Type}.
Variable argsort : list F -> list nat.
Variable gaussian_fftconvolve : list F -> F -> list F -> list F.
Variable recursion_limit : nat.

Lemma set_false_shrinks (m : matrix bool) i j : shrinks m (Np.set m i j false).
Proof.
  intros a b. unfold Np.set. destruct ((a =? i)%nat && (b =? j)%nat); [discriminate | trivial].
Qed.

Lemma set_rows_false_shrinks (m : matrix bool) rows : shrinks m (Np.set_rows m rows false).
Proof. intros a b. unfold Np.set_rows. destruct (rows a); [discriminate | trivial]. Qed.

Lemma set_cols_false_shrinks (m : matrix bool) cols : shrinks m (Np.set_cols m cols false).
Proof. intros a b. unfold Np.set_cols. destruct (cols b); [discriminate | trivial]. Qed.

Lemma mask_and_shrinks (m c : matrix bool) : shrinks m (Np.mask_and m c).
Proof. intros a b. unfold Np.mask_and. intros Hab. apply andb_true_iff in Hab. tauto. Qed.

Lemma check_improve_shrinks (analyzer : Analyzer F U) mask cont k r c :
  shrinks mask (fst (check_improve_contaminations_score analyzer mask cont k r c)).
Proof.
  unfold check_improve_contaminations_score.
  generalize (Np.nonzero (num_units (sorting analyzer)) mask). intros inds.
  assert (Hgen : forall (acc : matrix bool * list (U * U)), shrinks mask (fst acc) ->
     shrinks mask (fst (fold_left (fun acc ind =>
      let '(pair_mask, pairs_removed) := acc in
      let '(ind1, ind2) := ind in
      if ltb (score k (merged_firing_rate analyzer c ind1 ind2)
                    (merged_contamination analyzer r c ind1 ind2))
             (score k (compute_firing_rates analyzer ind1) (cont ind1))
         || ltb (score k (merged_firing_rate analyzer c ind1 ind2)
                       (merged_contamination analyzer r c ind1 ind2))
                (score k (compute_firing_rates analyzer ind2) (cont ind2))
      then (Np.set pair_mask ind1 ind2 false,
            pairs_removed ++ [(unit_ids (sorting analyzer) ind1, unit_ids (sorting analyzer) ind2)])
      else acc) inds acc))).
  { induction inds as [|[i j] inds IH]; intros [m l] Hm; simpl; [exact Hm|].
    apply IH. destruct (_ || _); simpl; [|exact Hm].
    eapply shrinks_trans; [exact Hm | apply set_false_shrinks]. }
  apply Hgen. apply shrinks_refl.
Qed.

(** [get_pairs_via_nntree] once the spike locations and amplitudes are
    there: the loop over the units. *)
Lemma get_pairs_via_nntree_unfold (analyzer : Analyzer F U) k pair_mask kn :
  ext_spike_neighbours analyzer = Some kn ->
  get_pairs_via_nntree argsort analyzer k pair_mask
  = for_each (range 0 (num_units (sorting analyzer)))
      (fun unit_ind mask =>
         if (count_num_spikes_per_unit (sorting analyzer) unit_ind =? 0)%Z
         then Raise no_sample_error
         else Ok (narrow_row argsort analyzer kn k mask unit_ind))
      (mask_or_ones pair_mask).
Proof.
  intros Hext. unfold get_pairs_via_nntree. rewrite Hext.
  destruct pair_mask; reflexivity.
Qed.

(** The loop completes exactly when every unit it visits has a spike, and
    then it has narrowed the rows one after the other; else it raises the
    error of the first unit without spikes. *)
Lemma nntree_loop (analyzer : Analyzer F U) kn k (units : list nat) : forall m0,
  match for_each units
          (fun unit_ind mask =>
             if (count_num_spikes_per_unit (sorting analyzer) unit_ind =? 0)%Z
             then Raise no_sample_error
             else Ok (narrow_row argsort analyzer kn k mask unit_ind)) m0 with
  | Ok mask' =>
      Forall (fun u => count_num_spikes_per_unit (sorting analyzer) u <> 0%Z) units
      /\ mask' = fold_left (narrow_row argsort analyzer kn k) units m0
  | Raise e =>
      e = no_sample_error
      /\ Exists (fun u => count_num_spikes_per_unit (sorting analyzer) u = 0%Z) units
  end.
Proof.
  induction units as [|u units IH]; intros m0; cbn [for_each fold_left].
  - split; [constructor | reflexivity].
  - destruct (count_num_spikes_per_unit (sorting analyzer) u =? 0)%Z eqn:Hu; cbn [bind].
    + split; [reflexivity|]. left. apply Z.eqb_eq, Hu.
    + specialize (IH (narrow_row argsort analyzer kn k m0 u)).
      destruct (for_each units _ _) as [mask'|e].
      * destruct IH as [Hall ->]. split; [|reflexivity].
        constructor; [apply Z.eqb_neq, Hu | exact Hall].
      * destruct IH as [-> Hex]. split; [reflexivity | right; exact Hex].
Qed.

Lemma get_pairs_via_nntree_returned (analyzer : Analyzer F U) k pair_mask kn mask' :
  ext_spike_neighbours analyzer = Some kn ->
  get_pairs_via_nntree argsort analyzer k pair_mask = Ok mask' ->
  every_unit_spikes (sorting analyzer)
  /\ mask' = fold_left (narrow_row argsort analyzer kn k)
               (range 0 (num_units (sorting analyzer))) (mask_or_ones pair_mask).
Proof.
  intros Hext Hrun. rewrite (get_pairs_via_nntree_unfold _ _ _ _ Hext) in Hrun.
  pose proof (nntree_loop analyzer kn k (range 0 (num_units (sorting analyzer)))
                (mask_or_ones pair_mask)) as Hloop.
  rewrite Hrun in Hloop. destruct Hloop as [Hall ->]. split; [|reflexivity].
  intros a Ha. rewrite Forall_forall in Hall. apply Hall.
  unfold range. apply in_seq. lia.
Qed.

Lemma get_pairs_via_nntree_shrinks (analyzer : Analyzer F U) k mask mask' :
  get_pairs_via_nntree argsort analyzer k (Some mask) = Ok mask' -> shrinks mask mask'.
Proof.
  intros Hrun.
  destruct (ext_spike_neighbours analyzer) as [kn|] eqn:Hext;
    [|unfold get_pairs_via_nntree in Hrun; rewrite Hext in Hrun; discriminate].
  destruct (get_pairs_via_nntree_returned _ _ _ _ _ Hext Hrun) as [_ ->].
  cbn [mask_or_ones].
  generalize (range 0 (num_units (sorting analyzer))). intros units.
  assert (Hgen : forall m0, shrinks mask m0 ->
            shrinks mask (fold_left (narrow_row argsort analyzer kn k) units m0)).
  { induction units as [|u units IH]; intros m0 Hm0; simpl; [exact Hm0|].
    apply IH. intros a b. unfold narrow_row. destruct (a =? u)%nat; intros Hab; apply Hm0.
    - apply andb_true_iff in Hab. tauto.
    - exact Hab. }
  apply Hgen, shrinks_refl.
Qed.

Lemma run_step_shrinks (analyzer : Analyzer F U) p steps step st st' :
  run_step argsort gaussian_fftconvolve recursion_limit analyzer p steps step st = Ok st' ->
  shrinks (pair_mask st) (pair_mask st').
Proof.
  unfold run_step.
  destruct (String.eqb step "min_spikes").
  { intros Heq; inversion Heq; subst; simpl.
    eapply shrinks_trans; [apply set_rows_false_shrinks | apply set_cols_false_shrinks]. }
  destruct (String.eqb step "remove_contaminated").
  { intros Heq; inversion Heq; subst; simpl.
    eapply shrinks_trans; [apply set_rows_false_shrinks | apply set_cols_false_shrinks]. }
  destruct (step_is step "unit_positions" steps).
  { intros Heq; inversion Heq; subst; simpl. apply mask_and_shrinks. }
  destruct (step_is step "correlogram" steps).
  { destruct (match ext_correlograms analyzer with Some d => d | None => _ end) as [cg bins].
    destruct (for_each _ _ _) as [win_sizes|e]; simpl; [|discriminate].
    destruct (compute_correlogram_diff _ _ _ _ _) as [cd|e]; simpl; [|discriminate].
    intros Heq; inversion Heq; subst; simpl. apply mask_and_shrinks. }
  destruct (step_is step "template_similarity" steps).
  { destruct (match ext_template_similarity analyzer with Some d => _ | None => _ end) as [td|e];
      simpl; [|discriminate].
    intros Heq; inversion Heq; subst; simpl. apply mask_and_shrinks. }
  destruct (step_is step "knn" steps).
  { destruct (get_pairs_via_nntree _ _ _ _) as [m|e] eqn:Hk; simpl; [|discriminate].
    intros Heq; inversion Heq; subst; simpl.
    eapply get_pairs_via_nntree_shrinks; eassumption. }
  destruct (step_is step "presence_distance" steps).
  { intros Heq; inversion Heq; subst; simpl. apply mask_and_shrinks. }
  destruct (step_is step "cross_contamination" steps).
  { destruct (compute_cross_contaminations _ _ _ _) as [CC pv].
    intros Heq; inversion Heq; subst; simpl. apply mask_and_shrinks. }
  destruct (step_is step "check_increase_score" steps).
  { destruct (contaminations st) as [cont|]; [|discriminate].
    pose proof (check_improve_shrinks analyzer (pair_mask st) cont
                  (firing_contamination_balance p) (refractory_period_ms p)
                  (censored_period_ms p)) as Hs.
    destruct (check_improve_contaminations_score _ _ _ _ _ _) as [m l].
    intros Heq; inversion Heq; subst; simpl. exact Hs. }
  intros Heq; inversion Heq; subst. apply shrinks_refl.
Qed.


Lemma mask_history_sorted (analyzer : Analyzer F U) p steps remaining st :
  Sorted shrinks
    (pair_mask st :: mask_history argsort gaussian_fftconvolve recursion_limit
                       analyzer p steps remaining st).
Proof.
  revert st. induction remaining as [|step rest IH]; intros st; cbn [mask_history run_steps outcome executed].
  - repeat constructor.
  - destruct (negb (existsb (String.eqb step) all_steps)); [repeat constructor|].
    destruct (run_step _ _ _ _ _ _ _ _) as [st'|e] eqn:Hstep; [|repeat constructor].
    constructor; [apply IH|]. constructor.
    eapply run_step_shrinks; eassumption.
Qed.

Lemma run_steps_shrinks (analyzer : Analyzer F U) p steps remaining st st' :
  outcome (run_steps argsort gaussian_fftconvolve recursion_limit
             analyzer p steps remaining st) = Ok st' ->
  shrinks (pair_mask st) (pair_mask st').
Proof.
  revert st. induction remaining as [|step rest IH]; intros st; cbn [mask_history run_steps outcome executed].
  - intros Heq; inversion Heq; subst. apply shrinks_refl.
  - destruct (negb (existsb (String.eqb step) all_steps)); [discriminate|].
    destruct (run_step _ _ _ _ _ _ _ _) as [st1|e] eqn:Hstep; cbn [outcome executed]; [|discriminate].
    intros Hrest. eapply shrinks_trans; [eapply run_step_shrinks; eassumption|].
    apply IH, Hrest.
Qed.

(** The history is the run: a run that completes went through one matrix
    per stage and ends on the last of them. *)
Lemma mask_history_of_run (analyzer : Analyzer F U) p steps remaining st st' :
  outcome (run_steps argsort gaussian_fftconvolve recursion_limit
             analyzer p steps remaining st) = Ok st' ->
  let history := mask_history argsort gaussian_fftconvolve recursion_limit
                   analyzer p steps remaining st in
  length history = length remaining /\
  last (pair_mask st :: history) (pair_mask st) = pair_mask st'.
Proof.
  revert st. induction remaining as [|step rest IH]; intros st; cbn [mask_history run_steps outcome executed].
  - intros Heq; inversion Heq; subst. split; reflexivity.
  - destruct (negb (existsb (String.eqb step) all_steps)); [discriminate|].
    destruct (run_step _ _ _ _ _ _ _ _) as [st1|e] eqn:Hstep; cbn [outcome executed]; [|discriminate].
    intros Hrest. destruct (IH st1 Hrest) as [Hlen Hlast]. split.
    + simpl. f_equal. exact Hlen.
    + simpl in Hlast.
      destruct (mask_history _ _ _ _ _ _ _ _) as [|m ms] eqn:Hh; simpl in *; [exact Hlast|].
      rewrite <- Hlast. clear. revert m. induction ms as [|m' ms IHms]; intros m; simpl; [reflexivity|].
      destruct ms; [reflexivity|]. apply (IHms m').
Qed.

(** C1. Candidate-set monotonicity: whatever the stage sequence, from the
    matrix the loop starts with through the matrix after each stage, every
    stage only clears entries (no entry that is False is True afterwards),
    and so the number of True entries after a stage is at most the number
    before it. *)
Theorem candidate_set_monotone (analyzer : Analyzer F U) (p : Params F)
  (steps remaining : list string) (st : locals F U) :
  let n := num_units (sorting analyzer) in
  Sorted (fun before after =>
            shrinks before after /\ (count_true n after <= count_true n before)%nat)
    (pair_mask st :: mask_history argsort gaussian_fftconvolve recursion_limit
                       analyzer p steps remaining st).
Proof.
  intros n.
  pose proof (mask_history_sorted analyzer p steps remaining st) as Hsorted.
  induction Hsorted as [|m ms Hs IH Hhd]; constructor.
  - exact IH.
  - destruct Hhd as [|m' ms' Hmm']; constructor.
    split; [exact Hmm' | apply count_true_le, Hmm'].
Qed.


(** ** The candidate matrix is upper triangular *)

Lemma initial_pair_mask_spec i j :
  initial_pair_mask i j = true <-> (i <= j)%nat /\ (0 < j)%nat.
Proof.
  unfold initial_pair_mask, triu_1d.
  destruct (j <? i)%nat eqn:Hji.
  - apply Nat.ltb_lt in Hji. split; [discriminate | lia].
  - apply Nat.ltb_ge in Hji. rewrite Z.ltb_lt. lia.
Qed.

Lemma initial_lower_false : lower_false initial_pair_mask.
Proof.
  intros i j Hji. destruct (initial_pair_mask i j) eqn:Hm; [|reflexivity].
  apply initial_pair_mask_spec in Hm. lia.
Qed.

Lemma lower_false_shrinks before after :
  shrinks before after -> lower_false before -> lower_false after.
Proof.
  intros Hs Hb i j Hji. destruct (after i j) eqn:Ha; [|reflexivity].
  rewrite <- (Hb i j Hji). symmetry. apply Hs, Ha.
Qed.

Lemma sorted_shrinks_lower_false m ms :
  Sorted shrinks (m :: ms) -> lower_false m -> Forall lower_false (m :: ms).
Proof.
  revert m. induction ms as [|m' ms IH]; intros m Hsorted Hm.
  - constructor; [exact Hm | constructor].
  - constructor; [exact Hm|].
    inversion Hsorted as [|? ? Hrest Hhd]; subst.
    inversion Hhd; subst.
    apply IH; [exact Hrest|]. eapply lower_false_shrinks; eassumption.
Qed.

Lemma in_potential_merges (s : Sorting U) mask a b :
  In (a, b) (potential_merges s mask) <->
  exists i j, (i < num_units s)%nat /\ (j < num_units s)%nat /\ mask i j = true /\
              a = unit_ids s i /\ b = unit_ids s j.
Proof.
  unfold potential_merges. rewrite in_map_iff. split.
  - intros ([i j] & Heq & Hin). simpl in Heq. inversion Heq; subst.
    apply in_nonzero in Hin. exists i, j. tauto.
  - intros (i & j & Hi & Hj & Hm & -> & ->). exists (i, j). split; [reflexivity|].
    apply in_nonzero. tauto.
Qed.

(** C8. Finalizer symmetry: when the unit identifiers are distinct, the
    list a run returns never holds both (a, b) and (b, a) for two different
    units; and the strictly lower-triangular part of the candidate matrix
    is False when the loop starts and after every stage. *)
Theorem finalizer_symmetry (analyzer : Analyzer F U) (p : Params F)
  (merges : list (U * U)) (diagnostics : option (list (string * diagnostic F U))) :
  distinct_ids (sorting analyzer) ->
  get_potential_auto_merge argsort gaussian_fftconvolve recursion_limit analyzer p
    = Ok (merges, diagnostics) ->
  (forall a b, a <> b -> ~ (In (a, b) merges /\ In (b, a) merges)) /\
  (forall given, resolve_steps p = Some given ->
     Forall lower_false
       (initial_pair_mask :: mask_history argsort gaussian_fftconvolve recursion_limit
                               analyzer p given given initial_locals)).
Proof.
  intros Hids Hrun. split.
  - unfold get_potential_auto_merge, get_potential_auto_merge_trace in Hrun.
    destruct (resolve_steps p) as [given|]; [|discriminate].
    cbn [outcome] in Hrun.
    destruct (outcome (run_steps _ _ _ _ _ _ _ _)) as [st'|e] eqn:Hloop; [|discriminate].
    simpl in Hrun. inversion Hrun; subst merges diagnostics; clear Hrun.
    apply run_steps_shrinks in Hloop. simpl in Hloop.
    assert (Hlow : lower_false (pair_mask st'))
      by (eapply lower_false_shrinks; [exact Hloop | apply initial_lower_false]).
    intros a b Hab [Hin1 Hin2].
    apply in_potential_merges in Hin1 as (i & j & Hi & Hj & Hm & Ha & Hb).
    apply in_potential_merges in Hin2 as (i' & j' & Hi' & Hj' & Hm' & Hb' & Ha').
    assert (i' = j) by (apply Hids; congruence || assumption).
    assert (j' = i) by (apply Hids; congruence || assumption).
    subst i' j'.
    destruct (Nat.lt_trichotomy i j) as [Hlt | [Heq | Hgt]].
    + rewrite (Hlow j i Hlt) in Hm'. discriminate.
    + subst j. apply Hab. congruence.
    + rewrite (Hlow i j Hgt) in Hm. discriminate.
  - intros given _. apply (sorted_shrinks_lower_false initial_pair_mask).
    + apply (mask_history_sorted analyzer p given given initial_locals).
    + apply initial_lower_false.
Qed.

(** C10. The matrix [np.triu(np.arange(n)) > 0] is False at (0, 0) and
    True at every other diagonal entry; so a run with an explicitly empty
    stage list returns, besides every pair strictly above the diagonal, the
    self-pair of every unit but the first. *)
Theorem initial_mask_self_pairs (analyzer : Analyzer F U) (p : Params F) :
  steps p = Some [] ->
  (initial_pair_mask 0%nat 0%nat = false /\ forall i, (1 <= i)%nat -> initial_pair_mask i i = true) /\
  exists merges diagnostics,
    get_potential_auto_merge argsort gaussian_fftconvolve recursion_limit analyzer p
      = Ok (merges, diagnostics) /\
    let s := sorting analyzer in
    (forall i, (1 <= i < num_units s)%nat -> In (unit_ids s i, unit_ids s i) merges) /\
    (forall i j, (i < j < num_units s)%nat -> In (unit_ids s i, unit_ids s j) merges) /\
    (forall a b, In (a, b) merges ->
       exists i j, (i <= j < num_units s)%nat /\ (0 < j)%nat /\
                   a = unit_ids s i /\ b = unit_ids s j).
Proof.
  intros Hsteps. split.
  - split; [reflexivity|]. intros i Hi. apply initial_pair_mask_spec. lia.
  - unfold get_potential_auto_merge, get_potential_auto_merge_trace, resolve_steps.
    rewrite Hsteps. cbn [run_steps outcome bind pair_mask].
    eexists. eexists. split; [reflexivity|]. cbn zeta. split; [|split].
    + intros i Hi. apply in_potential_merges. exists i, i.
      repeat split; try lia. apply initial_pair_mask_spec. lia.
    + intros i j Hij. apply in_potential_merges. exists i, j.
      repeat split; try lia. apply initial_pair_mask_spec. lia.
    + intros a b Hin. apply in_potential_merges in Hin as (i & j & Hi & Hj & Hm & Ha & Hb).
      apply initial_pair_mask_spec in Hm. exists i, j. repeat split; (lia || assumption).
Qed.

(** ** Rejection of unknown names *)

Lemma run_steps_app (analyzer : Analyzer F U) p steps pre post st :
  run_steps argsort gaussian_fftconvolve recursion_limit analyzer p steps (pre ++ post) st =
  let t := run_steps argsort gaussian_fftconvolve recursion_limit analyzer p steps pre st in
  match outcome t with
  | Ok st' =>
      let t' := run_steps argsort gaussian_fftconvolve recursion_limit analyzer p steps post st' in
      {| executed := executed t ++ executed t'; outcome := outcome t' |}
  | Raise e => {| executed := executed t; outcome := Raise e |}
  end.
Proof.
  revert st. induction pre as [|step pre IH]; intros st; cbn [app run_steps outcome executed].
  - destruct (run_steps _ _ _ _ _ _ post st); reflexivity.
  - destruct (negb (existsb (String.eqb step) all_steps)); [reflexivity|].
    destruct (run_step _ _ _ _ _ _ _ _) as [st1|e]; [|reflexivity].
    rewrite IH. cbn zeta. cbn [outcome executed].
    destruct (outcome (run_steps _ _ _ _ _ _ pre st1)); reflexivity.
Qed.

Lemma existsb_eqb_in (name : string) (l : list string) :
  In name l -> existsb (String.eqb name) l = true.
Proof.
  intros Hin. apply existsb_exists. exists name. split; [exact Hin | apply String.eqb_refl].
Qed.

(** C3, as the code has it.  An unrecognized stage name is rejected when
    the loop reaches it: the stages listed before it have run by then, and
    the exception is theirs if one of them raised.  An unsupported
    [template_metric] is rejected by [compute_templates_diff], before it
    compares any pair; a [template_similarity] stage that reads the
    analyzer's [template_similarity] extension never looks at the metric. *)
Theorem unknown_step_rejected_when_reached (analyzer : Analyzer F U) (p : Params F)
  (steps pre : list string) (bad : string) (post : list string) (st : locals F U) :
  existsb (String.eqb bad) all_steps = false ->
  run_steps argsort gaussian_fftconvolve recursion_limit analyzer p steps
    (pre ++ bad :: post) st
    = rejected_after argsort gaussian_fftconvolve recursion_limit analyzer p steps pre bad st
  /\ (forall n templates_array num_channels num_shift mask metric sparsity,
        existsb (String.eqb metric) ["l1"; "l2"; "cosine"]%string = false ->
        compute_templates_diff argsort n templates_array num_channels num_shift mask
          metric sparsity = Raise (AssertionError "Not a valid metric!"))
  /\ (forall similarity st0,
        ext_template_similarity analyzer = Some similarity ->
        In "template_similarity"%string steps ->
        returned (run_step argsort gaussian_fftconvolve recursion_limit analyzer p steps
                    "template_similarity" st0) = true).
Proof.
  intros Hbad. split; [|split].
  - rewrite run_steps_app. unfold rejected_after. cbn zeta.
    destruct (outcome (run_steps _ _ _ _ _ _ pre st)) as [st'|e]; [|reflexivity].
    cbn [run_steps]. rewrite Hbad. cbn [negb executed outcome].
    rewrite app_nil_r. reflexivity.
  - intros n ta nc ns mask metric sp Hmetric. unfold compute_templates_diff.
    rewrite Hmetric. reflexivity.
  - intros similarity st0 Hext Hin. unfold run_step, step_is.
    rewrite (existsb_eqb_in _ _ Hin). rewrite Hext. reflexivity.
Qed.

(** ** The quality-score stage without [remove_contaminated] *)

Lemma run_step_keeps_contaminations (analyzer : Analyzer F U) p steps step st st' :
  String.eqb step "remove_contaminated" = false ->
  run_step argsort gaussian_fftconvolve recursion_limit analyzer p steps step st = Ok st' ->
  contaminations st' = contaminations st.
Proof.
  intros Hstep. unfold run_step. rewrite Hstep.
  destruct (String.eqb step "min_spikes").
  { intros Heq; inversion Heq; reflexivity. }
  destruct (step_is step "unit_positions" steps).
  { intros Heq; inversion Heq; reflexivity. }
  destruct (step_is step "correlogram" steps).
  { destruct (match ext_correlograms analyzer with Some d => d | None => _ end) as [cg bins].
    destruct (for_each _ _ _) as [win_sizes|e]; simpl; [|discriminate].
    destruct (compute_correlogram_diff _ _ _ _ _) as [cd|e]; simpl; [|discriminate].
    intros Heq; inversion Heq; reflexivity. }
  destruct (step_is step "template_similarity" steps).
  { destruct (match ext_template_similarity analyzer with Some d => _ | None => _ end) as [td|e];
      simpl; [|discriminate].
    intros Heq; inversion Heq; reflexivity. }
  destruct (step_is step "knn" steps).
  { destruct (get_pairs_via_nntree _ _ _ _) as [m|e]; simpl; [|discriminate].
    intros Heq; inversion Heq; reflexivity. }
  destruct (step_is step "presence_distance" steps).
  { intros Heq; inversion Heq; reflexivity. }
  destruct (step_is step "cross_contamination" steps).
  { destruct (compute_cross_contaminations _ _ _ _) as [CC pv].
    intros Heq; inversion Heq; reflexivity. }
  destruct (step_is step "check_increase_score" steps).
  { destruct (contaminations st) as [cont|] eqn:Hc; [|discriminate].
    destruct (check_improve_contaminations_score _ _ _ _ _ _) as [m l].
    intros Heq; inversion Heq; reflexivity. }
  intros Heq; inversion Heq; subst; reflexivity.
Qed.

Lemma check_increase_score_unbound (analyzer : Analyzer F U) p steps st :
  In "check_increase_score"%string steps ->
  contaminations st = None ->
  run_step argsort gaussian_fftconvolve recursion_limit analyzer p steps
    "check_increase_score" st = Raise (UnboundLocalError "contaminations").
Proof.
  intros Hin Hc. unfold run_step, step_is.
  rewrite (existsb_eqb_in _ _ Hin), Hc. reflexivity.
Qed.

Lemma run_steps_unbound (analyzer : Analyzer F U) p steps pre post st :
  In "check_increase_score"%string steps ->
  contaminations st = None ->
  returned (outcome (run_steps argsort gaussian_fftconvolve recursion_limit analyzer p steps
                       (without "remove_contaminated" pre ++ "check_increase_score"%string :: post)
                       st)) = false.
Proof.
  intros Hin. revert st. induction pre as [|step pre IH]; intros st Hc.
  - cbn [without filter app run_steps].
    replace (negb (existsb (String.eqb "check_increase_score") all_steps)) with false
      by reflexivity.
    rewrite (check_increase_score_unbound analyzer p steps st Hin Hc). reflexivity.
  - unfold without. cbn [filter].
    destruct (String.eqb step "remove_contaminated") eqn:Hstep; cbn [negb].
    + apply IH, Hc.
    + cbn [app run_steps].
      destruct (negb (existsb (String.eqb step) all_steps)); [reflexivity|].
      destruct (run_step _ _ _ _ _ _ _ _) as [st1|e] eqn:Hrun; [|reflexivity].
      cbn [outcome]. apply IH.
      rewrite (run_step_keeps_contaminations _ _ _ _ _ _ Hstep Hrun). exact Hc.
Qed.

(** C6. A stage list that holds [check_increase_score] with no
    [remove_contaminated] before it does not run to completion: the local
    variable [contaminations] is bound by the [remove_contaminated] branch
    only, and the call of [check_improve_contaminations_score] reads it. *)
Theorem check_increase_score_needs_remove_contaminated (analyzer : Analyzer F U)
  (p : Params F) (pre post : list string) :
  let given := without "remove_contaminated" pre
               ++ "check_increase_score"%string :: post in
  returned (get_potential_auto_merge argsort gaussian_fftconvolve recursion_limit analyzer
              (with_steps p (Some given))) = false
  /\ get_potential_auto_merge_trace argsort gaussian_fftconvolve recursion_limit analyzer
       (with_steps p (Some ["check_increase_score"%string]))
     = {| executed := ["check_increase_score"%string];
          outcome := Raise (UnboundLocalError "contaminations") |}.
Proof.
  intros given. split.
  - unfold get_potential_auto_merge, get_potential_auto_merge_trace.
    change (resolve_steps (with_steps p (Some given))) with (Some given).
    cbn [outcome].
    assert (Hin : In "check_increase_score"%string given)
      by (apply in_or_app; right; left; reflexivity).
    pose proof (run_steps_unbound analyzer (with_steps p (Some given)) given pre post
                  initial_locals Hin eq_refl) as Hraise.
    fold given in Hraise. fold (@initial_locals F U).
    destruct (outcome (run_steps _ _ _ _ _ _ _ _)); [discriminate | reflexivity].
  - unfold get_potential_auto_merge_trace.
    change (resolve_steps (with_steps p (Some ["check_increase_score"%string])))
      with (Some ["check_increase_score"%string]).
    cbn [run_steps].
    replace (negb (existsb (String.eqb "check_increase_score") all_steps)) with false
      by reflexivity.
    rewrite check_increase_score_unbound; [reflexivity | left; reflexivity | reflexivity].
Qed.

(** ** The quality-score validator *)

Section Validator.
Variable analyzer : Analyzer F U.
Variable cont : nat -> F.
Variables k r c : F.

Let quality (f contamination : F) : F := mul f (sub one (mul (add k one) contamination)).
Let score_unit (i : nat) : F := quality (compute_firing_rates analyzer i) (cont i).
Let score_merged (i j : nat) : F :=
  quality (merged_firing_rate analyzer c i j) (merged_contamination analyzer r c i j).
Let rejected (ind : nat * nat) : bool :=
  ltb (score_merged (fst ind) (snd ind)) (score_unit (fst ind))
  || ltb (score_merged (fst ind) (snd ind)) (score_unit (snd ind)).
Let ids (ind : nat * nat) : U * U :=
  (unit_ids (sorting analyzer) (fst ind), unit_ids (sorting analyzer) (snd ind)).
Let pair_eqb (a b : nat * nat) : bool :=
  ((fst a =? fst b) && (snd a =? snd b))%nat.

Let body (acc : matrix bool * list (U * U)) (ind : nat * nat) : matrix bool * list (U * U) :=
  if rejected ind then (Np.set (fst acc) (fst ind) (snd ind) false, snd acc ++ [ids ind])
  else acc.

Lemma check_improve_as_fold mask :
  check_improve_contaminations_score analyzer mask cont k r c
  = fold_left body (Np.nonzero (num_units (sorting analyzer)) mask) (mask, []).
Proof.
  unfold check_improve_contaminations_score.
  generalize (mask, @nil (U * U)) as acc.
  generalize (Np.nonzero (num_units (sorting analyzer)) mask) as inds.
  induction inds as [|[i j] inds IH]; intros [m l]; [reflexivity|].
  cbn [fold_left]. rewrite IH. reflexivity.
Qed.

Lemma fold_body inds : forall acc,
  let res := fold_left body inds acc in
  (forall i j, fst res i j
               = fst acc i j && negb (existsb (pair_eqb (i, j)) (filter rejected inds)))
  /\ snd res = snd acc ++ map ids (filter rejected inds).
Proof.
  induction inds as [|ind inds IH]; intros acc; cbn [fold_left filter].
  - cbn zeta. split; [intros; simpl; rewrite andb_true_r; reflexivity|].
    simpl. rewrite app_nil_r. reflexivity.
  - specialize (IH (body acc ind)). cbn zeta in *. destruct IH as [IHm IHl].
    destruct (rejected ind) eqn:Hrej.
    + assert (Hbody : body acc ind
                      = (Np.set (fst acc) (fst ind) (snd ind) false, snd acc ++ [ids ind]))
        by (unfold body; rewrite Hrej; reflexivity).
      rewrite Hbody in IHm, IHl |- *. split.
      * intros i j. rewrite IHm. cbn [fst existsb]. unfold Np.set.
        unfold pair_eqb at 2. cbn [fst snd].
        destruct ((i =? fst ind)%nat && (j =? snd ind)%nat); simpl.
        -- rewrite andb_false_r. reflexivity.
        -- reflexivity.
      * rewrite IHl. cbn [snd map]. rewrite <- app_assoc. reflexivity.
    + assert (Hbody : body acc ind = acc) by (unfold body; rewrite Hrej; reflexivity).
      rewrite Hbody in IHm, IHl |- *. split; [exact IHm | exact IHl].
Qed.

(** C2. Quality-score validation: for every candidate pair the validator
    computes [firing_rate * (1 - (k + 1) * contamination)] for the first
    unit, the second unit and the merged unit; the matrix it returns is the
    candidate matrix with exactly those candidate pairs cleared whose merged
    score is strictly lower than the first or than the second score; and
    the list it returns holds exactly the cleared pairs, as identifiers, in
    the order of the matrix. *)
Theorem quality_score_validation (mask : matrix bool) :
  let n := num_units (sorting analyzer) in
  let res := check_improve_contaminations_score analyzer mask cont k r c in
  (forall i j, fst res i j
               = mask i j && negb ((i <? n)%nat && (j <? n)%nat && rejected (i, j)))
  /\ snd res = map ids (filter rejected (Np.nonzero n mask)).
Proof.
  intros n res. subst res. rewrite check_improve_as_fold. fold n.
  destruct (fold_body (Np.nonzero n mask) (mask, [])) as [Hm Hl]. cbn zeta in Hm, Hl.
  split; [|exact Hl].
  intros i j. rewrite Hm. cbn [fst].
  destruct (mask i j) eqn:Hmask; [|reflexivity]. cbn [andb]. f_equal.
  destruct (existsb _ _) eqn:Hex.
  - apply existsb_exists in Hex as ([a b] & Hin & Heq).
    unfold pair_eqb in Heq. cbn [fst snd] in Heq.
    apply andb_true_iff in Heq as [Ha Hb].
    apply Nat.eqb_eq in Ha. apply Nat.eqb_eq in Hb. subst a b.
    apply filter_In in Hin as [Hin Hrej]. apply in_nonzero in Hin as (Hi & Hj & _).
    apply Nat.ltb_lt in Hi. apply Nat.ltb_lt in Hj. fold n in Hi, Hj.
    rewrite Hi, Hj, Hrej. reflexivity.
  - destruct ((i <? n)%nat && (j <? n)%nat && rejected (i, j)) eqn:Hall; [|reflexivity].
    apply andb_true_iff in Hall as [Hij Hrej]. apply andb_true_iff in Hij as [Hi Hj].
    apply Nat.ltb_lt in Hi. apply Nat.ltb_lt in Hj.
    assert (Hin : In (i, j) (filter rejected (Np.nonzero n mask))).
    { apply filter_In. split; [apply in_nonzero; tauto | exact Hrej]. }
    assert (Htrue : existsb (pair_eqb (i, j)) (filter rejected (Np.nonzero n mask)) = true).
    { apply existsb_exists. exists (i, j). split; [exact Hin|].
      unfold pair_eqb. cbn [fst snd]. rewrite !Nat.eqb_refl. reflexivity. }
    congruence.
Qed.

End Validator.
End Pipeline.

(** ** Runs on the small recording *)

Section Recording.
Import Demo.
#[local] Set Warnings "-inexact-float".
#[local] Open Scope string_scope.

Lemma sorting3_distinct : distinct_ids sorting3.
Proof.
  intros i j Hi Hj. simpl in Hi, Hj.
  destruct i as [|[|[|i]]]; destruct j as [|[|[|j]]]; simpl;
    try lia; try reflexivity; discriminate.
Qed.

(** The symmetry of the finalizer on the three units, after the count and
    the position stages. *)
Lemma finalizer_symmetry_witness :
  let p := with_steps defaults (Some ["min_spikes"; "unit_positions"]) in
  let merges := [("a", "b"); ("b", "b"); ("c", "c")] in
  (forall a b : string, a <> b -> ~ (In (a, b) merges /\ In (b, a) merges)) /\
  (forall given, resolve_steps p = Some given ->
     Forall lower_false
       (initial_pair_mask :: mask_history argsort_insertion (@no_smoothing float) 1000
                               analyzer3 p given given initial_locals)).
Proof.
  apply (finalizer_symmetry argsort_insertion (@no_smoothing float) 1000 analyzer3
           (with_steps defaults (Some ["min_spikes"; "unit_positions"]))
           [("a", "b"); ("b", "b"); ("c", "c")] None).
  - exact sorting3_distinct.
  - vm_compute. reflexivity.
Defined.

(** The self-pairs of the three units with an empty stage list. *)
Lemma initial_mask_self_pairs_witness :
  (initial_pair_mask 0%nat 0%nat = false /\ forall i, (1 <= i)%nat -> initial_pair_mask i i = true) /\
  exists merges diagnostics,
    get_potential_auto_merge argsort_insertion (@no_smoothing float) 1000 analyzer3
      (with_steps defaults (Some [])) = Ok (merges, diagnostics) /\
    (forall i, (1 <= i < 3)%nat -> In (unit_ids sorting3 i, unit_ids sorting3 i) merges) /\
    (forall i j, (i < j < 3)%nat -> In (unit_ids sorting3 i, unit_ids sorting3 j) merges) /\
    (forall a b, In (a, b) merges ->
       exists i j, (i <= j < 3)%nat /\ (0 < j)%nat /\
                   a = unit_ids sorting3 i /\ b = unit_ids sorting3 j).
Proof.
  apply (initial_mask_self_pairs argsort_insertion (@no_smoothing float) 1000 analyzer3
           (with_steps defaults (Some []))).
  reflexivity.
Defined.

(** With no stage at all the three units give five pairs, two of them
    self-pairs. *)
Example empty_stage_list_run :
  outcome (run analyzer3 (with_steps defaults (Some [])))
  = Ok ([("a", "b"); ("a", "c"); ("b", "b"); ("b", "c"); ("c", "c")], None).
Proof. vm_compute. reflexivity. Qed.

(** Neither an unknown stage name nor an unknown metric is rejected
    before the first stage: with [min_spikes] ahead of the name
    [remove_outliers], and with the metric [l3] and [min_spikes] ahead of
    [template_similarity], the run has entered [min_spikes] when it fails. *)
Lemma fail_fast_counterexample :
  ~ unknown_step_fails_first argsort_insertion (@no_smoothing float) 1000 analyzer3
      (with_steps defaults (Some ["min_spikes"; "remove_outliers"]))
  /\ ~ unknown_metric_fails_first argsort_insertion (@no_smoothing float) 1000 analyzer3
      (with_metric (with_steps defaults (Some ["min_spikes"; "template_similarity"])) "l3").
Proof.
  split.
  - intros Hfast.
    destruct (Hfast ["min_spikes"; "remove_outliers"] "remove_outliers" eq_refl) as [Hexec _].
    + right; left; reflexivity.
    + intros Hin. simpl in Hin. repeat (destruct Hin as [Hin|Hin]; [discriminate|]). exact Hin.
    + vm_compute in Hexec. discriminate.
  - intros Hfast. destruct Hfast as [Hexec _].
    + simpl. intros Hin. repeat (destruct Hin as [Hin|Hin]; [discriminate|]). exact Hin.
    + vm_compute in Hexec. discriminate.
Qed.

(** The two runs, as they end. *)
Example unknown_step_run :
  let t := run analyzer3 (with_steps defaults (Some ["min_spikes"; "remove_outliers"])) in
  executed t = ["min_spikes"]
  /\ outcome t = Raise (AssertionError "remove_outliers is not a valid step").
Proof. vm_compute. split; reflexivity. Qed.

Example unknown_metric_run :
  let t := run analyzer3
             (with_metric (with_steps defaults (Some ["min_spikes"; "template_similarity"]))
                "l3") in
  executed t = ["min_spikes"; "template_similarity"]
  /\ outcome t = Raise (AssertionError "Not a valid metric!").
Proof. vm_compute. split; reflexivity. Qed.

(** The rejection of [remove_outliers] after [min_spikes] on the three
    units. *)
Lemma unknown_step_rejected_when_reached_witness :
  let p := with_steps defaults (Some ["min_spikes"; "remove_outliers"; "unit_positions"]) in
  let steps := ["min_spikes"; "remove_outliers"; "unit_positions"] in
  run_steps argsort_insertion (@no_smoothing float) 1000 analyzer3 p steps
    (["min_spikes"] ++ "remove_outliers" :: ["unit_positions"]) initial_locals
    = rejected_after argsort_insertion (@no_smoothing float) 1000 analyzer3 p steps
        ["min_spikes"] "remove_outliers" initial_locals
  /\ (forall n templates_array num_channels num_shift mask metric sparsity,
        existsb (String.eqb metric) ["l1"; "l2"; "cosine"] = false ->
        compute_templates_diff argsort_insertion n templates_array num_channels num_shift mask
          metric sparsity = Raise (AssertionError "Not a valid metric!"))
  /\ (forall similarity st0,
        ext_template_similarity analyzer3 = Some similarity ->
        In "template_similarity" steps ->
        returned (run_step argsort_insertion (@no_smoothing float) 1000 analyzer3 p steps
                    "template_similarity" st0) = true).
Proof.
  apply (unknown_step_rejected_when_reached argsort_insertion (@no_smoothing float) 1000
           analyzer3
           (with_steps defaults (Some ["min_spikes"; "remove_outliers"; "unit_positions"]))
           ["min_spikes"; "remove_outliers"; "unit_positions"]
           ["min_spikes"] "remove_outliers" ["unit_positions"] initial_locals).
  reflexivity.
Defined.

(** The quality-score stage alone. *)
Example check_increase_score_alone :
  let t := run analyzer3 (with_steps defaults (Some ["check_increase_score"])) in
  executed t = ["check_increase_score"]
  /\ outcome t = Raise (UnboundLocalError "contaminations").
Proof. vm_compute. split; reflexivity. Qed.

(** ... and after [remove_contaminated] the same stage completes. *)
Example check_increase_score_after_remove_contaminated :
  outcome (run analyzer3
             (with_steps defaults (Some ["remove_contaminated"; "check_increase_score"])))
  = Ok ([("c", "c")], None).
Proof. vm_compute. reflexivity. Qed.

(** The validator on the initial matrix: the merge of "a" and "c" would
    score 3.75 against 8.25 and 13, and is the one pair it clears. *)
Example validator_run :
  let res := (check_improve_contaminations_score analyzer3 initial_pair_mask
               (compute_refrac_period_violations analyzer3 1 0.3) 2.5 1 0.3)%float in
  (Np.nonzero 3 (fst res), snd res)
  = ([(0, 1); (1, 1); (1, 2); (2, 2)]%nat, [("a", "c")]).
Proof. vm_compute. reflexivity. Qed.

End Recording.


(** ** The loops over the candidate pairs *)

Section PairLoop.
Context {F : Type}.
Variable n : nat.
Variable mask : matrix bool.
Variable body : nat -> nat -> result F.

#[local] Abbreviation inner := (Spec.inner mask body).
#[local] Abbreviation pair_loop := (Spec.pair_loop n mask body).

Lemma existsb_range a b j :
  existsb (Nat.eqb j) (range a b) = ((a <=? j) && (j <? b))%nat.
Proof.
  unfold range. destruct (existsb _ _) eqn:Hex.
  - apply existsb_exists in Hex as (x & Hin & Heq). apply Nat.eqb_eq in Heq. subst x.
    apply in_seq in Hin. symmetry. apply andb_true_iff.
    split; [apply Nat.leb_le | apply Nat.ltb_lt]; lia.
  - destruct ((a <=? j)%nat && (j <? b)%nat) eqn:Hb; [|reflexivity].
    apply andb_true_iff in Hb as [Ha Hb]. apply Nat.leb_le in Ha. apply Nat.ltb_lt in Hb.
    assert (Htrue : existsb (Nat.eqb j) (seq a (b - a)) = true).
    { apply existsb_exists. exists j. split; [apply in_seq; lia | apply Nat.eqb_refl]. }
    congruence.
Qed.

Lemma inner_loop_entries u1 l : forall acc acc',
  for_each l (inner u1) acc = Ok acc' ->
  forall i j, acc' i j
    = if (i =? u1)%nat && existsb (Nat.eqb j) l && mask u1 j
      then entry_of (body u1 j) else acc i j.
Proof.
  induction l as [|u2 l IH]; intros acc acc' Hrun i j; cbn [for_each] in Hrun.
  - inversion Hrun; subst. cbn [existsb]. rewrite andb_false_r. reflexivity.
  - unfold Spec.inner at 1 in Hrun. destruct (mask u1 u2) eqn:Hm; cbn [negb bind] in Hrun.
    + destruct (body u1 u2) as [d|e] eqn:Hb; cbn [bind] in Hrun; [|discriminate].
      rewrite (IH _ _ Hrun i j). cbn [existsb]. unfold Np.set.
      destruct (i =? u1)%nat eqn:Hi; cbn [andb]; [|reflexivity].
      destruct (j =? u2)%nat eqn:Hj; cbn [orb andb].
      * apply Nat.eqb_eq in Hj. subst j. rewrite Hm, Hb. cbn [entry_of].
        destruct (existsb _ l); reflexivity.
      * reflexivity.
    + rewrite (IH _ _ Hrun i j). cbn [existsb].
      destruct (i =? u1)%nat eqn:Hi; cbn [andb]; [|reflexivity].
      destruct (j =? u2)%nat eqn:Hj; cbn [orb]; [|reflexivity].
      apply Nat.eqb_eq in Hj. subst j. rewrite Hm.
      rewrite !andb_false_r. reflexivity.
Qed.

Lemma outer_loop_entries l : forall acc acc',
  for_each l (fun unit_ind1 acc => for_each (range (unit_ind1 + 1) n) (inner unit_ind1) acc)
    acc = Ok acc' ->
  forall i j, acc' i j
    = if existsb (Nat.eqb i) l && (i <? j)%nat && (j <? n)%nat && mask i j
      then entry_of (body i j) else acc i j.
Proof.
  induction l as [|u1 l IH]; intros acc acc' Hrun i j; cbn [for_each] in Hrun.
  - inversion Hrun; subst. reflexivity.
  - destruct (for_each (range (u1 + 1) n) (inner u1) acc) as [acc1|e] eqn:Hin;
      cbn [bind] in Hrun; [|discriminate].
    rewrite (IH _ _ Hrun i j). cbn [existsb].
    rewrite (inner_loop_entries _ _ _ _ Hin i j), existsb_range.
    replace (u1 + 1 <=? j)%nat with (u1 <? j)%nat
      by (unfold Nat.ltb; f_equal; lia).
    destruct (i =? u1)%nat eqn:Hi; cbn [orb andb].
    + apply Nat.eqb_eq in Hi. subst u1.
      destruct (existsb (Nat.eqb i) l), (i <? j)%nat, (j <? n)%nat, (mask i j); reflexivity.
    + reflexivity.
Qed.

(** What the double loop leaves in the array it returns: the value of the
    body at every candidate pair above the diagonal, nothing elsewhere. *)
Lemma pair_loop_entries D :
  pair_loop = Ok D ->
  forall i j, D i j
    = if (i <? j)%nat && (j <? n)%nat && mask i j then entry_of (body i j) else None.
Proof.
  intros Hrun i j. unfold Spec.pair_loop in Hrun.
  rewrite (outer_loop_entries _ _ _ Hrun i j), existsb_range.
  destruct (i <? j)%nat eqn:Hij; cbn [andb]; [|rewrite andb_false_r; reflexivity].
  destruct (j <? n)%nat eqn:Hjn; cbn [andb]; [|rewrite andb_false_r; reflexivity].
  apply Nat.ltb_lt in Hij. apply Nat.ltb_lt in Hjn.
  replace (i <? n)%nat with true by (symmetry; apply Nat.ltb_lt; lia).
  reflexivity.
Qed.

Lemma pair_loop_entry D i j :
  pair_loop = Ok D -> (i < j < n)%nat -> mask i j = true ->
  exists d, body i j = Ok d /\ D i j = Some d.
Proof.
  intros Hrun Hij Hm.
  assert (Hvisited : forall l acc acc',
            for_each l (inner i) acc = Ok acc' -> In j l -> returned (body i j) = true).
  { induction l as [|u2 l IH]; intros acc acc' Hl Hin; [destruct Hin|].
    cbn [for_each] in Hl. unfold Spec.inner at 1 in Hl.
    destruct Hin as [->|Hin].
    - rewrite Hm in Hl. cbn [negb] in Hl.
      destruct (body i j); [reflexivity | discriminate].
    - destruct (negb (mask i u2)); cbn [bind] in Hl; [eapply IH; eassumption|].
      destruct (body i u2); cbn [bind] in Hl; [eapply IH; eassumption | discriminate]. }
  assert (Hrows : forall l acc acc',
            for_each l (fun u1 acc => for_each (range (u1 + 1) n) (inner u1) acc) acc = Ok acc' ->
            In i l -> returned (body i j) = true).
  { induction l as [|u1 l IH]; intros acc acc' Hl Hin; [destruct Hin|].
    cbn [for_each] in Hl.
    destruct (for_each (range (u1 + 1) n) (inner u1) acc) as [acc1|e] eqn:Hrow;
      cbn [bind] in Hl; [|discriminate].
    destruct Hin as [->|Hin]; [|eapply IH; eassumption].
    eapply Hvisited; [exact Hrow|]. apply in_seq. lia. }
  assert (Hret : returned (body i j) = true).
  { eapply Hrows; [exact Hrun|]. apply in_seq. lia. }
  destruct (body i j) as [d|e] eqn:Hb; [|discriminate].
  exists d. split; [reflexivity|].
  rewrite (pair_loop_entries D Hrun i j).
  replace (i <? j)%nat with true by (symmetry; apply Nat.ltb_lt; lia).
  replace (j <? n)%nat with true by (symmetry; apply Nat.ltb_lt; lia).
  rewrite Hm, Hb. reflexivity.
Qed.

(** The loop returns as soon as the body does at every candidate pair. *)
Lemma pair_loop_returns :
  (forall i j, (i < j < n)%nat -> mask i j = true -> returned (body i j) = true) ->
  returned pair_loop = true.
Proof.
  intros Hbody. unfold Spec.pair_loop.
  assert (Hinner : forall u1 l acc,
            (forall j, In j l -> (u1 < j < n)%nat) ->
            returned (for_each l (inner u1) acc) = true).
  { intros u1. induction l as [|u2 l IH]; intros acc Hl; [reflexivity|].
    cbn [for_each]. unfold Spec.inner at 1.
    destruct (mask u1 u2) eqn:Hm; cbn [negb bind].
    - specialize (Hbody u1 u2 (Hl u2 (or_introl eq_refl)) Hm).
      destruct (body u1 u2); [|discriminate]. cbn [bind].
      apply IH. intros j Hj. apply Hl. right. exact Hj.
    - apply IH. intros j Hj. apply Hl. right. exact Hj. }
  generalize (fun (_ _ : nat) => @None F) as acc.
  generalize (range 0 n) as l.
  induction l as [|u1 l IH]; intros acc; [reflexivity|].
  cbn [for_each].
  pose proof (Hinner u1 (range (u1 + 1) n) acc) as Hrow.
  destruct (for_each (range (u1 + 1) n) (inner u1) acc) as [acc1|e]; cbn [bind].
  - apply IH.
  - discriminate Hrow. intros j Hj. apply in_seq in Hj. lia.
Qed.

End PairLoop.

(** ** The correlogram difference *)

Section Correlograms.
Context {F : Type} `{Number F}.

Lemma getitem_nth {A} (a : list A) (k : Z) (v d : A) :
  Np.getitem a k = Ok v -> (0 <= k)%Z -> nth (Z.to_nat k) a d = v.
Proof.
  unfold Np.getitem. intros Hget Hk.
  replace (k <? 0)%Z with false in Hget by (symmetry; apply Z.ltb_ge; lia).
  destruct ((0 <=? k)%Z && (k <? Z.of_nat (length a))%Z); [|discriminate].
  destruct (nth_error a (Z.to_nat k)) as [x|] eqn:Hnth; [|discriminate].
  inversion Hget; subst. apply nth_error_nth. exact Hnth.
Qed.

Lemma take_nth {A} (a : list A) (d : A) (inds : list Z) : forall l,
  Np.take a inds = Ok l -> Forall (fun k => (0 <= k)%Z) inds ->
  l = map (fun k => nth (Z.to_nat k) a d) inds.
Proof.
  unfold Np.take. induction inds as [|k inds IH]; intros l Htake Hpos; cbn [map_result] in Htake.
  - inversion Htake. reflexivity.
  - inversion Hpos as [|? ? Hk Hrest]; subst.
    destruct (Np.getitem a k) as [v|e] eqn:Hget; cbn [bind] in Htake; [|discriminate].
    destruct (map_result (Np.getitem a) inds) as [vs|e] eqn:Hvs; cbn [bind] in Htake;
      [|discriminate].
    inversion Htake; subst. cbn [map]. f_equal.
    + symmetry. apply getitem_nth; assumption.
    + apply IH; [reflexivity | exact Hrest].
Qed.

Lemma take_returns {A} (a : list A) (inds : list Z) :
  Forall (fun k => (0 <= k < Z.of_nat (length a))%Z) inds ->
  returned (Np.take a inds) = true.
Proof.
  unfold Np.take. induction inds as [|k inds IH]; intros Hin; [reflexivity|].
  inversion Hin as [|? ? Hk Hrest]; subst. cbn [map_result].
  unfold Np.getitem at 1.
  replace (k <? 0)%Z with false by (symmetry; apply Z.ltb_ge; lia).
  replace ((0 <=? k)%Z && (k <? Z.of_nat (length a))%Z) with true
    by (symmetry; apply andb_true_iff; split; [apply Z.leb_le | apply Z.ltb_lt]; lia).
  destruct (nth_error a (Z.to_nat k)) as [v|] eqn:Hnth.
  - cbn [bind]. specialize (IH Hrest).
    destruct (map_result (Np.getitem a) inds); [reflexivity | discriminate].
  - apply nth_error_None in Hnth. lia.
Qed.

Lemma arange_bounds lo hi :
  Forall (fun k => (lo <= k < hi)%Z) (Np.arange lo hi).
Proof.
  unfold Np.arange. apply Forall_forall. intros k Hin.
  apply in_map_iff in Hin as (x & <- & Hx). apply in_seq in Hx. lia.
Qed.

Lemma combine_map_same {A B C} (f : A -> B) (g : A -> C) (l : list A) :
  combine (map f l) (map g l) = map (fun x => (f x, g x)) l.
Proof. induction l as [|x l IH]; simpl; [reflexivity | f_equal; exact IH]. Qed.

Lemma normalize_correlogram_length (x : list F) :
  length (normalize_correlogram x) = length x.
Proof.
  unfold normalize_correlogram. destruct (eqb _ _); [reflexivity | apply length_map].
Qed.

Lemma compute_correlogram_diff_as_loop n num_spikes c win_sizes mask :
  compute_correlogram_diff n num_spikes c win_sizes (Some mask)
  = pair_loop n mask (correlogram_pair_diff num_spikes c win_sizes).
Proof. reflexivity. Qed.

(** What [normalize_correlogram] computes: the correlogram divided by its
    mean, or the correlogram itself when the mean is zero. *)
Lemma normalize_correlogram_unit_mean (x : list F) :
  normalize_correlogram x = unit_mean x.
Proof. reflexivity. Qed.

(** C7. Correlogram-difference combination: for every pair (i, j), i < j,
    that is still a candidate, [compute_correlogram_diff] rounds the
    spike-count-weighted average of the two windows to an integer [w]
    and, the window lying within the correlogram on the left of the centre
    bin [m], reports for the pair the spike-count-weighted average
    [(n_i * d_i + n_j * d_j) / (n_i + n_j)] of the two mean absolute
    differences, over the bins [m - w .. m + w - 1], between the
    cross-correlogram and the auto-correlogram of each unit, each of the
    three divided by its own mean (left as it is when that mean is
    zero). *)
Theorem correlogram_diff_combination (n : nat) (num_spikes : nat -> Z) (c : tensor F)
  (win_sizes : nat -> Z) (mask : matrix bool) (D : matrix (option F)) (i j : nat) :
  compute_correlogram_diff n num_spikes c win_sizes (Some mask) = Ok D ->
  (i < j < n)%nat ->
  mask i j = true ->
  exists w : Z,
    int_round (weighted_window num_spikes win_sizes i j) = Some w /\
    ((0 <= Z.of_nat (num_bins c / 2) - w)%Z ->
     D i j = Some (correlogram_difference num_spikes c w i j)).
Proof.
  intros Hrun Hij Hm. rewrite compute_correlogram_diff_as_loop in Hrun.
  destruct (pair_loop_entry n mask _ D i j Hrun Hij Hm) as (d & Hbody & HD).
  unfold correlogram_pair_diff, py_int_round in Hbody.
  fold (weighted_window num_spikes win_sizes i j) in Hbody.
  destruct (int_round (weighted_window num_spikes win_sizes i j)) as [w|]; [|discriminate].
  exists w. split; [reflexivity|]. intros Hleft. rewrite HD. f_equal.
  cbn [bind] in Hbody.
  set (m := Z.of_nat (num_bins c / 2)) in *.
  set (inds := Np.arange (m - w) (m + w)) in *.
  assert (Hshift : map (fun k => (k - 0)%Z) inds = inds).
  { rewrite <- (map_id inds) at 2. apply map_ext. intros k. apply Z.sub_0_r. }
  rewrite Hshift in Hbody.
  assert (Hpos : Forall (fun k => (0 <= k)%Z) inds).
  { eapply Forall_impl; [|apply (arange_bounds (m - w) (m + w))]. cbn beta. intros k Hk. lia. }
  destruct (Np.take (normalize_correlogram (corr c i j)) inds) as [cross|e] eqn:Hcross;
    cbn [bind] in Hbody; [|discriminate].
  destruct (Np.take (normalize_correlogram (corr c i i)) inds) as [auto1|e] eqn:Hauto1;
    cbn [bind] in Hbody; [|discriminate].
  destruct (Np.take (normalize_correlogram (corr c j j)) inds) as [auto2|e] eqn:Hauto2;
    cbn [bind] in Hbody; [|discriminate].
  inversion Hbody; subst d; clear Hbody.
  rewrite (take_nth _ zero _ _ Hcross Hpos), (take_nth _ zero _ _ Hauto1 Hpos),
    (take_nth _ zero _ _ Hauto2 Hpos).
  unfold correlogram_difference, weighted_average, mean_abs_diff, window_bins.
  (* the rows the code normalizes are the rows divided by their mean *)
  change (unit_mean (corr c i j)) with (normalize_correlogram (corr c i j)).
  change (unit_mean (corr c i i)) with (normalize_correlogram (corr c i i)).
  change (unit_mean (corr c j j)) with (normalize_correlogram (corr c j j)).
  fold m. fold inds. rewrite !combine_map_same, !map_map, length_map. reflexivity.
Qed.

(** The function returns when every candidate pair has a window that
    lies within the rows it reads. *)
Lemma compute_correlogram_diff_returns (n : nat) (num_spikes : nat -> Z) (c : tensor F)
  (win_sizes : nat -> Z) (mask : matrix bool) :
  (forall i j, (i < j < n)%nat -> mask i j = true ->
     exists w, int_round (weighted_window num_spikes win_sizes i j) = Some w /\
       let m := Z.of_nat (num_bins c / 2) in
       (0 <= m - w)%Z /\
       (m + w <= Z.of_nat (length (corr c i j)))%Z /\
       (m + w <= Z.of_nat (length (corr c i i)))%Z /\
       (m + w <= Z.of_nat (length (corr c j j)))%Z) ->
  returned (compute_correlogram_diff n num_spikes c win_sizes (Some mask)) = true.
Proof.
  intros Hfit. rewrite compute_correlogram_diff_as_loop. apply pair_loop_returns.
  intros i j Hij Hm. destruct (Hfit i j Hij Hm) as (w & Hw & Hleft & Hx & Ha1 & Ha2).
  unfold correlogram_pair_diff, py_int_round.
  fold (weighted_window num_spikes win_sizes i j). rewrite Hw. cbn [bind].
  set (m := Z.of_nat (num_bins c / 2)) in *.
  set (inds := Np.arange (m - w) (m + w)) in *.
  assert (Hshift : map (fun k => (k - 0)%Z) inds = inds).
  { rewrite <- (map_id inds) at 2. apply map_ext. intros k. apply Z.sub_0_r. }
  rewrite Hshift.
  assert (Hin : forall row, (m + w <= Z.of_nat (length row))%Z ->
            returned (Np.take (normalize_correlogram row) inds) = true).
  { intros row Hrow. apply take_returns. rewrite normalize_correlogram_length.
    eapply Forall_impl; [|apply (arange_bounds (m - w) (m + w))]. cbn beta. intros k Hk. lia. }
  pose proof (Hin _ Hx) as H1. pose proof (Hin _ Ha1) as H2. pose proof (Hin _ Ha2) as H3.
  destruct (Np.take (normalize_correlogram (corr c i j)) inds); [|discriminate].
  destruct (Np.take (normalize_correlogram (corr c i i)) inds); [|discriminate].
  destruct (Np.take (normalize_correlogram (corr c j j)) inds); [|discriminate].
  reflexivity.
Qed.

End Correlograms.

Section CorrelogramRun.
Import Demo.

(** The correlogram difference of the two units of [tensor2]. *)
Lemma correlogram_diff_combination_witness :
  exists w : Z,
    int_round (weighted_window spikes2 windows2 0 1) = Some w /\
    ((0 <= Z.of_nat (num_bins tensor2 / 2) - w)%Z ->
     returned_array
       (compute_correlogram_diff 2 spikes2 tensor2 windows2 (Some initial_pair_mask)) 0 1
     = Some (correlogram_difference spikes2 tensor2 w 0 1)).
Proof.
  apply (correlogram_diff_combination 2 spikes2 tensor2 windows2 initial_pair_mask
           (returned_array
              (compute_correlogram_diff 2 spikes2 tensor2 windows2 (Some initial_pair_mask)))
           0 1).
  - vm_compute. reflexivity.
  - lia.
  - reflexivity.
Defined.

(** On the two units: the windows 1 and 2 of 100 and 300 spikes average
    to 1.75, rounded to 2; the cross-correlogram differs from the first
    auto-correlogram by 0.125 on average and not at all from the second. *)
Example correlogram_diff_run :
  int_round (weighted_window spikes2 windows2 0 1) = Some 2%Z
  /\ returned_array
       (compute_correlogram_diff 2 spikes2 tensor2 windows2 (Some initial_pair_mask)) 0 1
     = Some 0.03125%float.
Proof. vm_compute. split; reflexivity. Qed.

End CorrelogramRun.

(** ** The adaptive window *)

Section Window.
Context {F : Type} `{Number F}.

Lemma filter_comm {A} (f g : A -> bool) (l : list A) :
  filter f (filter g l) = filter g (filter f l).
Proof.
  induction l as [|x l IH]; [reflexivity|]. cbn [filter].
  destruct (f x) eqn:Hf, (g x) eqn:Hg; cbn [filter]; rewrite ?Hf, ?Hg, IH; reflexivity.
Qed.

(** One call, in terms of the peaks left of the centre. *)
Lemma get_unit_adaptive_window_unfold depth (x : list F) (t : F) ps :
  eqb (Np.sum (map abs x)) zero = false ->
  left_peaks x = Ok ps ->
  get_unit_adaptive_window depth x t =
  match rev (filter (fun p => geb (nth p x zero) t) ps) with
  | [] => match depth with
          | O => Raise RecursionError
          | S depth' => get_unit_adaptive_window depth' x (div t (of_Z 2))
          end
  | last_peak :: _ => Ok (Z.of_nat (length x / 2) - Z.of_nat last_peak)%Z
  end.
Proof.
  intros Hnz Hps. unfold left_peaks in Hps.
  destruct depth as [|depth']; cbn [get_unit_adaptive_window]; rewrite Hnz;
    (destruct (Scipy.gradient x) as [g1|e]; cbn [bind] in Hps |- *; [|discriminate]);
    (destruct (Scipy.gradient g1) as [g2|e]; cbn [bind] in Hps |- *; [|discriminate]);
    inversion Hps; subst ps; rewrite filter_comm; reflexivity.
Qed.

Lemma no_left_peak_never_returns (x : list F) (t : F) :
  eqb (Np.sum (map abs x)) zero = false ->
  left_peaks x = Ok [] ->
  never_returns x t.
Proof.
  intros Hnz Hps depth. revert t. induction depth as [|depth IH]; intros t;
    rewrite (get_unit_adaptive_window_unfold _ x t [] Hnz Hps); cbn [filter rev].
  - reflexivity.
  - apply IH.
Qed.

(** The recursive call is made whenever none of the peaks that cross the
    threshold lies left of the centre, also when some peak does cross
    it. *)
Lemma recursion_without_left_peak depth (x : list F) (t : F) ps :
  eqb (Np.sum (map abs x)) zero = false ->
  threshold_peaks x t = Ok ps ->
  (forall p, In p ps -> (length x / 2 <= p)%nat) ->
  get_unit_adaptive_window (S depth) x t
  = get_unit_adaptive_window depth x (div t (of_Z 2)).
Proof.
  intros Hnz Hps Hright. unfold threshold_peaks in Hps.
  cbn [get_unit_adaptive_window]. rewrite Hnz.
  destruct (Scipy.gradient x) as [g1|e]; cbn [bind] in Hps |- *; [|discriminate].
  destruct (Scipy.gradient g1) as [g2|e]; cbn [bind] in Hps |- *; [|discriminate].
  inversion Hps as [Heq]; clear Hps. rewrite Heq.
  assert (Hnone : filter (fun p => (p <? length x / 2)%nat) ps = []).
  { clear Heq. induction ps as [|p ps IH]; [reflexivity|]. cbn [filter].
    replace (p <? length x / 2)%nat with false
      by (symmetry; apply Nat.ltb_ge, Hright; left; reflexivity).
    apply IH. intros q Hq. apply Hright. right. exact Hq. }
  rewrite Hnone. reflexivity.
Qed.

Lemma never_returns_not_reaches (x : list F) (t : F) :
  never_returns x t -> ~ reaches_window x t.
Proof. intros Hnever (depth & w & Hw). rewrite (Hnever depth) in Hw. discriminate. Qed.

Lemma identically_zero_fallback depth (x : list F) (t : F) :
  eqb (Np.sum (map abs x)) zero = true ->
  get_unit_adaptive_window depth x t = Ok 20%Z.
Proof. intros Hz. destruct depth; cbn [get_unit_adaptive_window]; rewrite Hz; reflexivity. Qed.

Lemma left_peaks_left (x : list F) ps q :
  left_peaks x = Ok ps -> In q ps -> (q < length x / 2)%nat.
Proof.
  unfold left_peaks.
  destruct (Scipy.gradient x) as [g1|e]; cbn [bind]; [|discriminate].
  destruct (Scipy.gradient g1) as [g2|e]; cbn [bind]; [|discriminate].
  intros Heq Hq.
  assert (Hps : ps = filter (fun p => (p <? length x / 2)%nat) (Scipy.find_peaks (map neg g2)))
    by congruence.
  rewrite Hps in Hq. apply filter_In in Hq as [_ Hq]. apply Nat.ltb_lt. exact Hq.
Qed.

(** A peak left of the centre that passes the threshold after [k]
    halvings: [k] recursive calls are enough. *)
Lemma passes_after_halvings (x : list F) ps p :
  eqb (Np.sum (map abs x)) zero = false ->
  left_peaks x = Ok ps ->
  In p ps ->
  forall k t, geb (nth p x zero) (halved k t) = true ->
    exists w, get_unit_adaptive_window k x t = Ok w
              /\ (1 <= w <= Z.of_nat (length x / 2))%Z.
Proof.
  intros Hnz Hps Hin. induction k as [|k IH]; intros t Hpass;
    rewrite (get_unit_adaptive_window_unfold _ x t ps Hnz Hps).
  - cbn [halved] in Hpass.
    destruct (rev (filter _ ps)) as [|q qs] eqn:Hrev.
    + assert (Hp : In p (filter (fun p => geb (nth p x zero) t) ps))
        by (apply filter_In; split; assumption).
      apply in_rev in Hp. rewrite Hrev in Hp. destruct Hp.
    + eexists. split; [reflexivity|].
      assert (Hq : In q ps).
      { assert (Hq' : In q (rev (filter (fun p => geb (nth p x zero) t) ps)))
          by (rewrite Hrev; left; reflexivity).
        apply in_rev, filter_In in Hq'. tauto. }
      pose proof (left_peaks_left x ps q Hps Hq). lia.
  - destruct (rev (filter _ ps)) as [|q qs] eqn:Hrev.
    + apply IH. exact Hpass.
    + eexists. split; [reflexivity|].
      assert (Hq : In q ps).
      { assert (Hq' : In q (rev (filter (fun p => geb (nth p x zero) t) ps)))
          by (rewrite Hrev; left; reflexivity).
        apply in_rev, filter_In in Hq'. tauto. }
      pose proof (left_peaks_left x ps q Hps Hq). lia.
Qed.

End Window.

(** *** In exact arithmetic *)

Section ExactWindow.
Variable qsqrt : Q -> Q.
Let exactQ : Number Q := exact qsqrt.
#[local] Existing Instance exactQ.

Lemma sum_exact (l : list Q) (a : Q) :
  (fold_left Qplus l a == a + fold_right Qplus 0 l)%Q.
Proof.
  revert a. induction l as [|x l IH]; intros a; cbn [fold_left fold_right].
  - ring.
  - rewrite IH. ring.
Qed.

Lemma np_sum_exact (l : list Q) :
  (Np.sum l == fold_right Qplus 0 l)%Q.
Proof.
  change (fold_left Qplus l 0 == fold_right Qplus 0 l)%Q. rewrite sum_exact. ring.
Qed.

Lemma sum_nonneg (l : list Q) :
  Forall (fun v => 0 <= v)%Q l -> (0 <= fold_right Qplus 0 l)%Q.
Proof.
  induction 1 as [|x l Hx Hl IH]; cbn [fold_right]; [apply Qle_refl|].
  replace 0%Q with (0 + 0)%Q by reflexivity. apply Qplus_le_compat; assumption.
Qed.

Lemma sum_ge_member (l : list Q) (v : Q) :
  Forall (fun v => 0 <= v)%Q l -> In v l -> (v <= fold_right Qplus 0 l)%Q.
Proof.
  induction 1 as [|x l Hx Hl IH]; intros Hin; [destruct Hin|]. cbn [fold_right].
  destruct Hin as [->|Hin].
  - rewrite <- (Qplus_0_r v) at 1. apply Qplus_le_compat; [apply Qle_refl | apply sum_nonneg, Hl].
  - rewrite <- (Qplus_0_l v). apply Qplus_le_compat; [exact Hx | apply IH, Hin].
Qed.

Lemma abs_all_nonneg (x : list Q) : Forall (fun v => 0 <= v)%Q (map Qabs x).
Proof. apply Forall_forall. intros v Hin. apply in_map_iff in Hin as (u & <- & _). apply Qabs_nonneg. Qed.

Lemma sum_abs_zero_iff (x : list Q) :
  eqb (Np.sum (map (abs) x)) zero = true
  <-> Forall (fun v => v == 0)%Q x.
Proof.
  change (Qeq_bool (Np.sum (map Qabs x)) 0 = true <-> Forall (fun v => v == 0)%Q x).
  rewrite Qeq_bool_iff, np_sum_exact. split.
  - intros Hsum. apply Forall_forall. intros v Hin.
    assert (Hle : (Qabs v <= 0)%Q).
    { rewrite <- Hsum. apply sum_ge_member; [apply abs_all_nonneg | apply in_map, Hin]. }
    destruct (Qabs_Qle_condition v 0) as [Hcond _]. specialize (Hcond Hle).
    apply Qle_antisym; tauto.
  - induction 1 as [|v l Hv Hl IH]; cbn [map fold_right]; [reflexivity|].
    rewrite IH, Hv. reflexivity.
Qed.

Lemma halved_exact (k : nat) (t : Q) :
  (halved k t == t / inject_Z (2 ^ Z.of_nat k))%Q.
Proof.
  revert t. induction k as [|k IH]; intros t; cbn [halved].
  - change ((t == t / inject_Z 1)%Q). field.
  - rewrite IH. change (div t (of_Z 2)) with (t / inject_Z 2)%Q.
    replace (Z.of_nat (S k)) with (Z.succ (Z.of_nat k)) by lia.
    rewrite Z.pow_succ_r by lia. rewrite inject_Z_mult.
    assert (Hnz : ~ (inject_Z (2 ^ Z.of_nat k) == 0)%Q).
    { intros Heq. assert (Hpos : (0 < 2 ^ Z.of_nat k)%Z) by (apply Z.pow_pos_nonneg; lia).
      rewrite Zlt_Qlt in Hpos. rewrite Heq in Hpos. apply (Qlt_irrefl 0), Hpos. }
    field. exact Hnz.
Qed.

(** Halving reaches every positive level. *)
Lemma halving_reaches (t v : Q) :
  (0 < v)%Q -> exists k, (halved k t <= v)%Q.
Proof.
  intros Hv. set (c := Qceiling (t / v)). exists (Z.to_nat c).
  rewrite halved_exact.
  set (k := Z.of_nat (Z.to_nat c)).
  assert (Hpow : (c <= 2 ^ k)%Z).
  { assert (k < 2 ^ k)%Z by (apply Z.pow_gt_lin_r; lia). subst k. lia. }
  assert (Hpos : (0 < 2 ^ k)%Z) by (apply Z.pow_pos_nonneg; subst k; lia).
  apply Qle_shift_div_r.
  - change 0%Q with (inject_Z 0). rewrite <- Zlt_Qlt. exact Hpos.
  - assert (Hc : (t / v <= inject_Z (2 ^ k))%Q).
    { eapply Qle_trans; [apply Qle_ceiling|]. fold c. rewrite <- Zle_Qle. exact Hpow. }
    assert (Ht : (t == (t / v) * v)%Q) by (field; intros Heq; rewrite Heq in Hv; apply (Qlt_irrefl 0), Hv).
    rewrite Ht at 1. rewrite (Qmult_comm v).
    apply Qmult_le_compat_r; [exact Hc | apply Qlt_le_weak, Hv].
Qed.

(** A peak left of the centre at a positive bin: the halved threshold
    falls below it. *)
Lemma positive_left_peak_reaches (auto_corr : list Q) (threshold : Q) ps p :
  left_peaks auto_corr = Ok ps -> In p ps -> (0 < nth p auto_corr 0)%Q ->
  exists depth w,
    get_unit_adaptive_window depth auto_corr threshold = Ok w
    /\ (1 <= w <= Z.of_nat (length auto_corr / 2))%Z.
Proof.
  intros Hps Hin Hpos.
  assert (Hnz : eqb (Np.sum (map abs auto_corr)) zero = false).
  { destruct (eqb _ _) eqn:Hz; [|reflexivity].
    apply sum_abs_zero_iff in Hz. rewrite Forall_forall in Hz.
    assert (Hp : (p < length auto_corr)%nat).
    { destruct (Nat.lt_ge_cases p (length auto_corr)) as [Hlt|Hge]; [exact Hlt|].
      rewrite nth_overflow in Hpos by exact Hge. exfalso. apply (Qlt_irrefl 0), Hpos. }
    specialize (Hz (nth p auto_corr 0%Q) (nth_In _ _ Hp)).
    rewrite Hz in Hpos. exfalso. apply (Qlt_irrefl 0), Hpos. }
  destruct (halving_reaches threshold (nth p auto_corr 0%Q) Hpos) as [k Hk].
  exists k.
  apply (passes_after_halvings auto_corr ps p Hnz Hps Hin k threshold).
  change (Qle_bool (halved k threshold) (nth p auto_corr 0%Q) = true).
  apply Qle_bool_iff. exact Hk.
Qed.

End ExactWindow.

Section WindowRuns.
#[local] Set Warnings "-inexact-float".

(** C5. The recursion of [get_unit_adaptive_window] has no guard and
    the function does not always end with a window.  The recursive call is
    made whenever no peak that crosses the threshold lies left of the
    centre, also when a peak does cross it; so a correlogram that is not
    silent and whose negated second derivative has no local maximum left
    of the centre gets no window, whatever the threshold and the recursion
    limit: the call ends in [RecursionError].  On binary64, for the
    triangular correlogram [0, 1, 2, 3, 2, 1, 0] and the threshold 1.5:
    the centre bin is a peak, it crosses the threshold, and the call never
    returns.  With a peak left of the centre the call still ends in
    [RecursionError] when the threshold needs more halvings than the
    recursion limit allows: for a peak of height 5 and the threshold
    [1e305] a thousand calls are not enough, 1012 are. *)
Theorem adaptive_window_unguarded_recursion :
  (forall (F : Type) (H : Number F) (auto_corr : list F) (threshold : F),
     eqb (Np.sum (map abs auto_corr)) zero = false ->
     (forall ps depth,
        threshold_peaks auto_corr threshold = Ok ps ->
        (forall p, In p ps -> (length auto_corr / 2 <= p)%nat) ->
        get_unit_adaptive_window (S depth) auto_corr threshold
        = get_unit_adaptive_window depth auto_corr (div threshold (of_Z 2)))
     /\ (left_peaks auto_corr = Ok [] -> never_returns auto_corr threshold))
  /\ (threshold_peaks [0; 1; 2; 3; 2; 1; 0]%float 1.5%float = Ok [3%nat]
      /\ never_returns [0; 1; 2; 3; 2; 1; 0]%float 1.5%float)
  /\ (left_peaks [0; 0; 5; 1; 0; 2; 9; 2; 0; 1; 5; 0; 0]%float = Ok [2%nat]
      /\ get_unit_adaptive_window 1000 [0; 0; 5; 1; 0; 2; 9; 2; 0; 1; 5; 0; 0]%float
           1e305%float = Raise RecursionError
      /\ get_unit_adaptive_window 1012 [0; 0; 5; 1; 0; 2; 9; 2; 0; 1; 5; 0; 0]%float
           1e305%float = Ok 4%Z).
Proof.
  split; [|split].
  - intros F H auto_corr threshold Hnz. split.
    + intros ps depth Hps Hright. apply recursion_without_left_peak with (ps := ps); assumption.
    + intros Hps. apply no_left_peak_never_returns; assumption.
  - split; [vm_compute; reflexivity|].
    apply no_left_peak_never_returns; vm_compute; reflexivity.
  - repeat split; vm_compute; reflexivity.
Qed.

(** A triangular auto-correlogram: the only local maximum of its negated
    second derivative is the centre bin itself. *)
Example triangular_correlogram_run :
  left_peaks [0; 1; 2; 3; 2; 1; 0]%float = Ok []
  /\ get_unit_adaptive_window 1000 [0; 1; 2; 3; 2; 1; 0]%float 1.5%float
     = Raise RecursionError.
Proof. vm_compute. split; reflexivity. Qed.

(** A correlogram with side peaks of height 5 and threshold 8: one halving,
    then the peak four bins left of the centre passes. *)
Example side_peak_run :
  get_unit_adaptive_window 0 [0; 0; 5; 1; 0; 2; 9; 2; 0; 1; 5; 0; 0]%float 8%float
    = Raise RecursionError
  /\ get_unit_adaptive_window 1 [0; 0; 5; 1; 0; 2; 9; 2; 0; 1; 5; 0; 0]%float 8%float
     = Ok 4%Z.
Proof. vm_compute. split; reflexivity. Qed.

Example all_zero_run :
  get_unit_adaptive_window 0 [0; 0; 0; 0]%float 0.5%float = Ok 20%Z.
Proof. vm_compute. reflexivity. Qed.

End WindowRuns.

(** ** Template differences *)

Section Templates.
Context {F : Type} `{Number F}.
Variable argsort : list F -> list nat.

Lemma compute_templates_diff_as_loop n (T : templates F) num_channels num_shift mask metric
  sparsity :
  existsb (String.eqb metric) ["l1"; "l2"; "cosine"]%string = true ->
  compute_templates_diff argsort n T num_channels num_shift (Some mask) metric sparsity
  = pair_loop n mask
      (template_pair_diff argsort T num_channels num_shift metric
         (adaptative_masks_of num_channels sparsity) (sparsity_mask_of sparsity)).
Proof.
  intros Hmetric. unfold compute_templates_diff. rewrite Hmetric.
  destruct sparsity; reflexivity.
Qed.

Lemma compute_templates_diff_metric n (T : templates F) num_channels num_shift mask metric
  sparsity D :
  compute_templates_diff argsort n T num_channels num_shift mask metric sparsity = Ok D ->
  existsb (String.eqb metric) ["l1"; "l2"; "cosine"]%string = true.
Proof.
  unfold compute_templates_diff.
  destruct (existsb _ _); [reflexivity | discriminate].
Qed.

Lemma map_result_forall2 {A B} (f : A -> result B) (l : list A) : forall out,
  map_result f l = Ok out -> Forall2 (fun x y => f x = Ok y) l out.
Proof.
  induction l as [|x l IH]; intros out Hrun; cbn [map_result] in Hrun.
  - inversion Hrun. constructor.
  - destruct (f x) as [y|e] eqn:Hx; cbn [bind] in Hrun; [|discriminate].
    destruct (map_result f l) as [ys|e] eqn:Hl; cbn [bind] in Hrun; [|discriminate].
    inversion Hrun; subst. constructor; [exact Hx | apply IH; reflexivity].
Qed.

Lemma arange_length lo hi : length (Np.arange lo hi) = Z.to_nat (hi - lo).
Proof. unfold Np.arange. rewrite length_map, length_seq. reflexivity. Qed.

Lemma min_of_ones (k : nat) :
  Np.min2 (of_Z 1) (of_Z 1) = of_Z 1 ->
  Np.min (map (fun _ : Z => of_Z 1)
            (Np.arange (- Z.of_nat k) (Z.of_nat k + 1))) = Ok (of_Z 1).
Proof.
  intros Hmin. pose proof (arange_length (- Z.of_nat k) (Z.of_nat k + 1)) as Hlen.
  destruct (Np.arange (- Z.of_nat k) (Z.of_nat k + 1)) as [|z zs]; cbn [length] in Hlen; [lia|].
  cbn [map]. unfold Np.min, Np.reduce. f_equal. clear Hlen.
  induction zs as [|z' zs IH]; cbn [map fold_left]; [reflexivity|].
  rewrite Hmin. exact IH.
Qed.

(** With sparsity supplied and no channel count, a pair whose masks share
    no channel gets the distance one. *)
Lemma empty_intersection_distance n (T : templates F) num_shift mask metric masks D i j :
  Np.min2 (of_Z 1) (of_Z 1) = of_Z 1 ->
  compute_templates_diff argsort n T None num_shift (Some mask) metric (Some masks) = Ok D ->
  (i < j < n)%nat -> mask i j = true ->
  disjoint_channels (masks i) (masks j) ->
  D i j = Some (of_Z 1).
Proof.
  intros Hmin Hrun Hij Hm Hdisjoint.
  pose proof (compute_templates_diff_metric _ _ _ _ _ _ _ _ Hrun) as Hmetric.
  rewrite (compute_templates_diff_as_loop _ _ _ _ _ _ _ Hmetric) in Hrun.
  destruct (pair_loop_entry n mask _ D i j Hrun Hij Hm) as (d & Hbody & HD).
  rewrite HD. f_equal.
  unfold template_pair_diff, best_channels in Hbody.
  cbn [adaptative_masks_of sparsity_mask_of negb bind] in Hbody.
  assert (Hnone : filter (fun c => nth c (masks i) false && nth c (masks j) false)
                    (seq 0 (length (masks i))) = []).
  { generalize (seq 0 (length (masks i))) as cs.
    induction cs as [|c cs IH]; [reflexivity|]. cbn [filter]. rewrite (Hdisjoint c). exact IH. }
  rewrite Hnone in Hbody. unfold all_shift_diffs in Hbody. cbn [length Nat.ltb Nat.leb bind] in Hbody.
  rewrite (min_of_ones num_shift Hmin) in Hbody. congruence.
Qed.

End Templates.

(** *** In exact arithmetic *)

Section ExactTemplates.
Variable qsqrt : Q -> Q.
Let exactQ : Number Q := exact qsqrt.
#[local] Existing Instance exactQ.
Variable argsort : list Q -> list nat.

Lemma np_sum_exact' (l : list Q) : (Np.sum l == fold_right Qplus 0 l)%Q.
Proof. apply (np_sum_exact qsqrt). Qed.

Lemma sum_all_zero (l : list Q) :
  Forall (fun v => v == 0)%Q l -> (Np.sum l == 0)%Q.
Proof.
  intros Hl. rewrite np_sum_exact'.
  induction Hl as [|v l Hv Hl IH]; cbn [fold_right]; [reflexivity|].
  rewrite Hv, IH. reflexivity.
Qed.

Lemma sum_all_nonneg (l : list Q) :
  Forall (fun v => 0 <= v)%Q l -> (0 <= Np.sum l)%Q.
Proof. intros Hl. rewrite np_sum_exact'. apply sum_nonneg, Hl. Qed.

Lemma concat_forall {A} (P : A -> Prop) (t : list (list A)) :
  Forall (Forall P) t -> Forall P (concat t).
Proof.
  induction 1 as [|r t Hr Ht IH]; cbn [concat]; [constructor|].
  apply Forall_app. split; assumption.
Qed.

Lemma sum2_abs2_nonneg (t : list (list Q)) : (0 <= sum2 (abs2 t))%Q.
Proof.
  unfold sum2, abs2. apply sum_all_nonneg, concat_forall.
  apply Forall_forall. intros r Hr. apply in_map_iff in Hr as (r0 & <- & _).
  apply Forall_forall. intros v Hv. apply in_map_iff in Hv as (v0 & <- & _).
  apply Qabs_nonneg.
Qed.

Lemma sum2_square2_nonneg (t : list (list Q)) : (0 <= sum2 (square2 t))%Q.
Proof.
  unfold sum2, square2. apply sum_all_nonneg, concat_forall.
  apply Forall_forall. intros r Hr. apply in_map_iff in Hr as (r0 & <- & _).
  apply Forall_forall. intros v Hv. apply in_map_iff in Hv as (v0 & <- & _).
  change (0 <= v0 * v0)%Q.
  destruct (Qlt_le_dec v0 0) as [Hneg|Hpos].
  - setoid_replace (v0 * v0)%Q with ((- v0) * (- v0))%Q by ring.
    apply Qmult_le_0_compat; apply (Qopp_le_compat v0 0), Qlt_le_weak, Hneg.
  - apply Qmult_le_0_compat; exact Hpos.
Qed.

Lemma sum2_abs2_zero (t : list (list Q)) : all_zero2 t -> (sum2 (abs2 t) == 0)%Q.
Proof.
  intros Ht. unfold sum2, abs2. apply sum_all_zero, concat_forall.
  apply Forall_forall. intros r Hr. apply in_map_iff in Hr as (r0 & <- & Hr0).
  apply Forall_forall. intros v Hv. apply in_map_iff in Hv as (v0 & <- & Hv0).
  unfold all_zero2 in Ht. rewrite Forall_forall in Ht. specialize (Ht r0 Hr0).
  rewrite Forall_forall in Ht. change (Qabs v0 == 0)%Q. rewrite (Ht v0 Hv0). reflexivity.
Qed.

Lemma sum2_square2_zero (t : list (list Q)) : all_zero2 t -> (sum2 (square2 t) == 0)%Q.
Proof.
  intros Ht. unfold sum2, square2. apply sum_all_zero, concat_forall.
  apply Forall_forall. intros r Hr. apply in_map_iff in Hr as (r0 & <- & Hr0).
  apply Forall_forall. intros v Hv. apply in_map_iff in Hv as (v0 & <- & Hv0).
  unfold all_zero2 in Ht. rewrite Forall_forall in Ht. specialize (Ht r0 Hr0).
  rewrite Forall_forall in Ht. change (v0 * v0 == 0)%Q. rewrite (Ht v0 Hv0). reflexivity.
Qed.

(** A template minus itself. *)
Lemma rows_minus_themselves (t : list (list Q)) :
  exists d, map2_rows sub t t = Ok d /\ all_zero2 d.
Proof.
  unfold map2_rows, Np.broadcast. rewrite Nat.eqb_refl. eexists. split; [reflexivity|].
  unfold all_zero2. apply Forall_forall. intros r Hr.
  apply in_map_iff in Hr as ([r1 r2] & <- & Hin). cbn [fst snd].
  assert (Hsame : r1 = r2).
  { clear - Hin. induction t as [|x t IH]; [destruct Hin|].
    destruct Hin as [Heq|Hin]; [inversion Heq; reflexivity | exact (IH Hin)]. }
  subst r2. apply Forall_forall. intros v Hv.
  apply in_map_iff in Hv as ([a b] & <- & Hab). cbn [fst snd].
  assert (Hsame : a = b).
  { clear - Hab. induction r1 as [|x r1 IH]; [destruct Hab|].
    destruct Hab as [Heq|Hab]; [inversion Heq; reflexivity | exact (IH Hab)]. }
  subst b. change (a - a == 0)%Q. ring.
Qed.

Lemma min2_exact (a b : Q) : Np.min2 a b = if Qle_bool a b then a else b.
Proof.
  unfold Np.min2, isnan. change (eqb a a) with (Qeq_bool a a). change (eqb b b) with (Qeq_bool b b).
  rewrite !(proj2 (Qeq_bool_iff _ _) (Qeq_refl _)). cbn [negb].
  change (ltb b a) with (negb (Qle_bool a b)). destruct (Qle_bool a b); reflexivity.
Qed.

Lemma fold_min2_bounds (l : list Q) : forall a,
  let m := fold_left Np.min2 l a in
  (m <= a)%Q /\ Forall (fun v => m <= v)%Q l /\ (m = a \/ In m l).
Proof.
  induction l as [|b l IH]; intros a; cbn [fold_left].
  - cbn zeta. split; [apply Qle_refl|]. split; [constructor | left; reflexivity].
  - specialize (IH (Np.min2 a b)). cbn zeta in *. destruct IH as (Hle & Hall & Hin).
    assert (Hab : (Np.min2 a b <= a)%Q /\ (Np.min2 a b <= b)%Q
                  /\ (Np.min2 a b = a \/ Np.min2 a b = b)).
    { rewrite min2_exact. destruct (Qle_bool a b) eqn:Hc.
      - apply Qle_bool_iff in Hc. repeat split; [apply Qle_refl | exact Hc | left; reflexivity].
      - assert (Hba : (b <= a)%Q).
        { destruct (Qlt_le_dec a b) as [Hlt|Hge]; [|exact Hge].
          apply Qlt_le_weak, Qle_bool_iff in Hlt. congruence. }
        repeat split; [exact Hba | apply Qle_refl | right; reflexivity]. }
    destruct Hab as (Ha & Hb & Hor). split; [eapply Qle_trans; eassumption|]. split.
    + constructor; [eapply Qle_trans; eassumption | exact Hall].
    + destruct Hin as [Hin|Hin]; [|right; right; exact Hin].
      destruct Hor as [Hor|Hor]; [left | right; left]; congruence.
Qed.

Lemma min_of_nonneg_with_zero (l : list Q) (m z : Q) :
  Np.min l = Ok m -> Forall (fun v => 0 <= v)%Q l -> In z l -> (z == 0)%Q -> (m == 0)%Q.
Proof.
  unfold Np.min, Np.reduce. destruct l as [|a l]; [discriminate|].
  intros Hmin Hall Hz Hz0. inversion Hmin; subst m; clear Hmin.
  destruct (fold_min2_bounds l a) as (Hle & Hrest & Hin). cbn zeta in *.
  apply Qle_antisym.
  - rewrite <- Hz0. destruct Hz as [->|Hz]; [exact Hle|].
    rewrite Forall_forall in Hrest. apply Hrest, Hz.
  - rewrite Forall_forall in Hall. apply Hall.
    destruct Hin as [->|Hin]; [left; reflexivity | right; exact Hin].
Qed.

Hypothesis qsqrt_zero : forall x, (x == 0)%Q -> (qsqrt x == 0)%Q.
Hypothesis qsqrt_nonneg : forall x, (0 <= qsqrt x)%Q.

(** The distance at one shift between a template and itself, for the L1
    and L2 metrics. *)
Lemma shift_diff_self (metric : string) (norm : Q) (num_shift : nat) (t : list (list Q))
  (shift : Z) (d : Q) :
  metric = "l1"%string \/ metric = "l2"%string ->
  (0 < norm)%Q ->
  shift_diff metric norm num_shift t t shift = Ok d ->
  (0 <= d)%Q /\ (shift = 0%Z -> (d == 0)%Q).
Proof.
  intros Hmetric Hnorm. unfold shift_diff.
  destruct Hmetric as [-> | ->]; cbn [String.eqb Ascii.eqb Bool.eqb andb].
  - destruct (map2_rows sub _ _) as [dd|e] eqn:Hdd; cbn [bind]; [|discriminate].
    intros Hd. inversion Hd; subst d; clear Hd. change (div ?a ?b) with (a / b)%Q. split.
    + apply Qle_shift_div_l; [exact Hnorm|]. rewrite Qmult_0_l. apply sum2_abs2_nonneg.
    + intros ->. rewrite Z.add_0_r in Hdd. rewrite Z.add_0_r in Hdd.
      destruct (rows_minus_themselves
                  (Np.slice t (Z.of_nat num_shift) (Z.of_nat (length t) - Z.of_nat num_shift)))
        as (dz & Hdz & Hzero).
      rewrite Hdz in Hdd. inversion Hdd; subst dd.
      rewrite (sum2_abs2_zero _ Hzero). unfold Qdiv. ring.
  - destruct (map2_rows sub _ _) as [dd|e] eqn:Hdd; cbn [bind]; [|discriminate].
    intros Hd. inversion Hd; subst d; clear Hd. change (div ?a ?b) with (a / b)%Q.
    change (linalg_norm dd) with (qsqrt (sum2 (square2 dd))). split.
    + apply Qle_shift_div_l; [exact Hnorm|]. rewrite Qmult_0_l. apply qsqrt_nonneg.
    + intros ->. rewrite Z.add_0_r in Hdd. rewrite Z.add_0_r in Hdd.
      destruct (rows_minus_themselves
                  (Np.slice t (Z.of_nat num_shift) (Z.of_nat (length t) - Z.of_nat num_shift)))
        as (dz & Hdz & Hzero).
      rewrite Hdz in Hdd. inversion Hdd; subst dd.
      rewrite (qsqrt_zero _ (sum2_square2_zero _ Hzero)). unfold Qdiv. ring.
Qed.

Lemma template_norm_nonneg (metric : string) (t : list (list Q)) :
  metric = "l1"%string \/ metric = "l2"%string ->
  (0 <= template_norm metric t t)%Q.
Proof.
  intros [-> | ->]; unfold template_norm; cbn [String.eqb Ascii.eqb Bool.eqb andb];
    change (add ?a ?b) with (a + b)%Q.
  - pose proof (sum2_abs2_nonneg t) as Hs.
    replace 0%Q with (0 + 0)%Q by reflexivity. apply Qplus_le_compat; exact Hs.
  - pose proof (sum2_square2_nonneg t) as Hs.
    replace 0%Q with (0 + 0)%Q by reflexivity. apply Qplus_le_compat; exact Hs.
Qed.

Lemma template_norm_no_channel (metric : string) (t : list (list Q)) :
  metric = "l1"%string \/ metric = "l2"%string ->
  (template_norm metric (columns t []) (columns t []) == 0)%Q.
Proof.
  assert (Hempty : forall f : list Q -> list Q, f [] = [] ->
            concat (map f (columns t [])) = []).
  { intros f Hf. unfold columns. induction t as [|r t IH]; [reflexivity|].
    cbn [map concat] in IH |- *. rewrite Hf, IH. reflexivity. }
  intros [-> | ->]; unfold template_norm; cbn [String.eqb Ascii.eqb Bool.eqb andb];
    unfold sum2, abs2, square2; rewrite Hempty by reflexivity; reflexivity.
Qed.

Lemma forall2_in_l {A B} (R : A -> B -> Prop) (l : list A) (l' : list B) (x : A) :
  Forall2 R l l' -> In x l -> exists y, In y l' /\ R x y.
Proof.
  induction 1 as [|a b l l' Hab Hrest IH]; intros Hin; [destruct Hin|].
  destruct Hin as [<-|Hin].
  - exists b. split; [left; reflexivity | exact Hab].
  - destruct (IH Hin) as (y & Hy & Hxy). exists y. split; [right; exact Hy | exact Hxy].
Qed.

Lemma forall2_all_r {A B} (R : A -> B -> Prop) (P : B -> Prop) (l : list A) (l' : list B) :
  Forall2 R l l' -> (forall x y, R x y -> P y) -> Forall P l'.
Proof. induction 1; intros HP; constructor; eauto. Qed.

(** Identical templates, L1 or L2 metric, non-zero norm on the compared
    channels: the distance is zero. *)
Lemma identical_templates_distance n (T : templates Q) num_channels num_shift mask metric
  sparsity D i j :
  compute_templates_diff argsort n T num_channels num_shift (Some mask) metric sparsity = Ok D ->
  (i < j < n)%nat -> mask i j = true ->
  metric = "l1"%string \/ metric = "l2"%string ->
  template T i = template T j ->
  (forall chans, compared_channels argsort T num_channels sparsity i j = Ok chans ->
     ~ (template_norm metric (columns (template T i) chans) (columns (template T i) chans)
        == 0)%Q) ->
  exists d, D i j = Some d /\ (d == 0)%Q.
Proof.
  intros Hrun Hij Hm Hmetric Hsame Hnorm.
  pose proof (compute_templates_diff_metric _ _ _ _ _ _ _ _ _ Hrun) as Hvalid.
  rewrite (compute_templates_diff_as_loop _ _ _ _ _ _ _ _ Hvalid) in Hrun.
  destruct (pair_loop_entry n mask _ D i j Hrun Hij Hm) as (d & Hbody & HD).
  exists d. split; [exact HD|].
  unfold template_pair_diff in Hbody. fold (compared_channels argsort T num_channels sparsity i j) in Hbody.
  destruct (compared_channels argsort T num_channels sparsity i j) as [chans|e] eqn:Hchans;
    cbn [bind] in Hbody; [|discriminate].
  specialize (Hnorm chans eq_refl). rewrite <- Hsame in Hbody.
  unfold all_shift_diffs in Hbody.
  destruct (0 <? length chans)%nat eqn:Hlen.
  - set (t := columns (template T i) chans) in *.
    set (norm := template_norm metric t t) in *.
    assert (Hpos : (0 < norm)%Q).
    { destruct (Qle_lt_or_eq _ _ (template_norm_nonneg metric t Hmetric)) as [Hlt|Heq];
        [exact Hlt|]. exfalso. apply Hnorm. symmetry. exact Heq. }
    destruct (map_result _ _) as [ds|e] eqn:Hds; cbn [bind] in Hbody; [|discriminate].
    apply map_result_forall2 in Hds.
    assert (Hzero_in : In 0%Z (Np.arange (- Z.of_nat num_shift) (Z.of_nat num_shift + 1))).
    { unfold Np.arange. apply in_map_iff. exists num_shift. split; [lia|]. apply in_seq. lia. }
    destruct (forall2_in_l _ _ _ _ Hds Hzero_in) as (d0 & Hd0 & Hshift0).
    apply (min_of_nonneg_with_zero ds d d0 Hbody).
    + eapply forall2_all_r; [exact Hds|]. cbn beta. intros k dk Hk.
      apply (shift_diff_self metric norm num_shift t k dk Hmetric Hpos Hk).
    + exact Hd0.
    + apply (shift_diff_self metric norm num_shift t 0%Z d0 Hmetric Hpos Hshift0). reflexivity.
  - exfalso. apply Hnorm. destruct chans; [|discriminate Hlen].
    apply template_norm_no_channel, Hmetric.
Qed.

End ExactTemplates.

(** C4, as the code has it.  For the L1 and the L2 metric, in exact
    arithmetic, a candidate pair whose two templates are identical and
    whose norm on the compared channels is not zero gets the distance 0
    (the cosine metric divides the product of the trimmed templates by the
    norms of the whole templates, and does not).  When a sparsity mask is
    supplied and [num_channels] is [None], a candidate pair whose masks
    share no channel gets the distance 1, for every metric, in exact
    arithmetic and on [binary64]. *)
Theorem template_diff_boundary_values (qsqrt : Q -> Q) (argsort : list Q -> list nat)
  (n : nat) (T : templates Q) (num_channels : option nat) (num_shift : nat)
  (mask : matrix bool) (metric : string) (sparsity : option (nat -> list bool))
  (D : matrix (option Q)) (i j : nat) :
  (forall x, (x == 0)%Q -> (qsqrt x == 0)%Q) ->
  (forall x, (0 <= qsqrt x)%Q) ->
  compute_templates_diff (H := exact qsqrt) argsort n T num_channels num_shift (Some mask)
    metric sparsity = Ok D ->
  (i < j < n)%nat ->
  mask i j = true ->
  (metric = "l1"%string \/ metric = "l2"%string ->
   template T i = template T j ->
   (forall chans,
      compared_channels (H := exact qsqrt) argsort T num_channels sparsity i j = Ok chans ->
      ~ (template_norm (H := exact qsqrt) metric
           (columns (H := exact qsqrt) (template T i) chans)
           (columns (H := exact qsqrt) (template T i) chans) == 0)%Q) ->
   exists d, D i j = Some d /\ (d == 0)%Q)
  /\ (forall masks,
        num_channels = None -> sparsity = Some masks ->
        disjoint_channels (masks i) (masks j) ->
        D i j = Some 1%Q)
  /\ (forall (argsort64 : list float -> list nat) (n64 : nat) (T64 : templates float)
             (num_shift64 : nat) (mask64 : matrix bool) (metric64 : string)
             (masks64 : nat -> list bool) (D64 : matrix (option float)) (a b : nat),
        compute_templates_diff argsort64 n64 T64 None num_shift64 (Some mask64) metric64
          (Some masks64) = Ok D64 ->
        (a < b < n64)%nat -> mask64 a b = true ->
        disjoint_channels (masks64 a) (masks64 b) ->
        D64 a b = Some 1%float).
Proof.
  intros Hq0 Hq1 Hrun Hij Hm. split; [|split].
  - intros Hmetric Hsame Hnorm.
    apply (identical_templates_distance qsqrt argsort Hq0 Hq1 n T num_channels num_shift mask
             metric sparsity D i j Hrun Hij Hm Hmetric Hsame Hnorm).
  - intros masks -> -> Hdisjoint.
    apply (empty_intersection_distance (H := exact qsqrt) argsort n T num_shift mask metric
             masks D i j eq_refl Hrun Hij Hm Hdisjoint).
  - intros argsort64 n64 T64 num_shift64 mask64 metric64 masks64 D64 a b Hrun64 Hab Hm64 Hd.
    apply (empty_intersection_distance (H := binary64) argsort64 n64 T64 num_shift64 mask64
             metric64 masks64 D64 a b eq_refl Hrun64 Hab Hm64 Hd).
Qed.

Section TemplateRuns.
Import Demo.
#[local] Set Warnings "-inexact-float".
#[local] Open Scope string_scope.

Lemma Qsqrt_floor_zero (x : Q) : (x == 0)%Q -> (Qsqrt_floor x == 0)%Q.
Proof.
  unfold Qsqrt_floor, Qeq. cbn [Qnum Qden]. intros Hx. rewrite Z.mul_1_r in Hx.
  rewrite Hx. reflexivity.
Qed.

Lemma Qsqrt_floor_nonneg (x : Q) : (0 <= Qsqrt_floor x)%Q.
Proof.
  unfold Qsqrt_floor, Qle. cbn [Qnum Qden]. rewrite Z.mul_1_r. cbn [Z.mul].
  apply Z.sqrt_nonneg.
Qed.

(** Identical templates under the L2 metric, on the rationals with the
    floor square root. *)
Lemma template_diff_boundary_values_witness :
  let H := exact Qsqrt_floor in
  let D := returned_array
             (compute_templates_diff (H := H) argsort_insertion 2 identical2_exact
                (Some 5) 1 (Some all_pairs) "l2" None) in
  ("l2" = "l1" \/ "l2" = "l2" ->
   template identical2_exact 0 = template identical2_exact 1 ->
   (forall chans,
      compared_channels (H := H) argsort_insertion identical2_exact (Some 5) None 0 1
        = Ok chans ->
      ~ (template_norm (H := H) "l2"
           (columns (H := H) (template identical2_exact 0) chans)
           (columns (H := H) (template identical2_exact 0) chans) == 0)%Q) ->
   exists d, D 0 1 = Some d /\ (d == 0)%Q)
  /\ (forall masks,
        Some 5 = None -> @None (nat -> list bool) = Some masks ->
        disjoint_channels (masks 0) (masks 1) ->
        D 0 1 = Some 1%Q)
  /\ (forall (argsort64 : list float -> list nat) (n64 : nat) (T64 : templates float)
             (num_shift64 : nat) (mask64 : matrix bool) (metric64 : string)
             (masks64 : nat -> list bool) (D64 : matrix (option float)) (a b : nat),
        compute_templates_diff argsort64 n64 T64 None num_shift64 (Some mask64) metric64
          (Some masks64) = Ok D64 ->
        (a < b < n64)%nat -> mask64 a b = true ->
        disjoint_channels (masks64 a) (masks64 b) ->
        D64 a b = Some 1%float).
Proof.
  apply (template_diff_boundary_values Qsqrt_floor
           (argsort_insertion (H := exact Qsqrt_floor)) 2 identical2_exact (Some 5) 1
           all_pairs "l2" None
           (returned_array
              (compute_templates_diff (H := exact Qsqrt_floor) argsort_insertion 2
                 identical2_exact (Some 5) 1 (Some all_pairs) "l2" None))
           0 1 Qsqrt_floor_zero Qsqrt_floor_nonneg).
  - vm_compute. reflexivity.
  - lia.
  - reflexivity.
Defined.

(** The same template twice, three samples on one channel, one shift: the
    L1 and L2 distances are 0, the cosine distance is 1 - 4/6. *)
Example identical_templates_run :
  map (fun metric =>
         returned_array
           (compute_templates_diff argsort_insertion 2 identical2 (Some 5) 1
              (Some all_pairs) metric None) 0 1)
      ["l1"; "l2"; "cosine"]
  = [Some 0; Some 0; Some 0.33333333333333326]%float.
Proof. vm_compute. reflexivity. Qed.

(** Disjoint masks: distance 1 when [num_channels] is [None], not with
    the default [num_channels=5]. *)
Example disjoint_masks_run :
  map (fun num_channels =>
         returned_array
           (compute_templates_diff argsort_insertion 2 disjoint2 num_channels 1
              (Some all_pairs) "l1" (Some disjoint_masks)) 0 1)
      [None; Some 5]
  = [Some 1; Some 0.33333333333333331]%float.
Proof. vm_compute. reflexivity. Qed.

(** Identical templates at a positive cosine distance, and templates with
    disjoint sparsity masks at an L1 distance below one under the default
    [num_channels=5]. *)
Lemma template_diff_counterexample :
  (exists D d,
     compute_templates_diff argsort_insertion 2 identical2 (Some 5) 1 (Some all_pairs)
       "cosine" None = Ok D
     /\ template identical2 0 = template identical2 1
     /\ D 0 1 = Some d /\ PrimFloat.ltb 0 d = true)
  /\ (exists D d,
        compute_templates_diff argsort_insertion 2 disjoint2 (Some 5) 1 (Some all_pairs)
          "l1" (Some disjoint_masks) = Ok D
        /\ disjoint_channels (disjoint_masks 0) (disjoint_masks 1)
        /\ D 0 1 = Some d /\ PrimFloat.ltb d 1 = true).
Proof.
  split.
  - exists (returned_array
              (compute_templates_diff argsort_insertion 2 identical2 (Some 5) 1
                 (Some all_pairs) "cosine" None)).
    eexists. split; [vm_compute; reflexivity|]. split; [reflexivity|].
    split; [vm_compute; reflexivity | vm_compute; reflexivity].
  - exists (returned_array
              (compute_templates_diff argsort_insertion 2 disjoint2 (Some 5) 1
                 (Some all_pairs) "l1" (Some disjoint_masks))).
    eexists. split; [vm_compute; reflexivity|]. split.
    + intros [|[|c]]; reflexivity || (destruct c; reflexivity).
    + split; [vm_compute; reflexivity | vm_compute; reflexivity].
Qed.

End TemplateRuns.

(** ** binary64 arithmetic *)

(** *** Division by one *)




(** *** Rounding a positive integer never gives zero or nan *)









(** ** Normalizing a correlogram, on binary64 *)

Section NormalizeBinary64.









End NormalizeBinary64.

(** ** Normalizing a correlogram, in exact arithmetic *)

Section NormalizeExact.
Variable qsqrt : Q -> Q.
Let exactQ : Number Q := exact qsqrt.
#[local] Existing Instance exactQ.

Lemma np_sum_exact_local (l : list Q) : (Np.sum l == fold_right Qplus 0 l)%Q.
Proof. apply (np_sum_exact qsqrt). Qed.

Lemma mean_exact (x : list Q) :
  (Np.mean x == fold_right Qplus 0 x / inject_Z (Z.of_nat (length x)))%Q.
Proof.
  change (Np.mean x) with (Np.sum x / inject_Z (Z.of_nat (length x)))%Q.
  rewrite np_sum_exact_local. reflexivity.
Qed.

Lemma normalize_exact_unfold (x : list Q) :
  normalize_correlogram x
  = if Qeq_bool (Np.mean x) 0 then x else map (fun v => v / Np.mean x)%Q x.
Proof. reflexivity. Qed.

Lemma sum_scaled (x : list Q) (m : Q) :
  (fold_right Qplus 0 (map (fun v => v / m) x) == fold_right Qplus 0 x / m)%Q.
Proof.
  induction x as [|v x IH]; cbn [map fold_right].
  - unfold Qdiv. ring.
  - rewrite IH. unfold Qdiv. ring.
Qed.





End NormalizeExact.


Section NormalizeRuns.
#[local] Set Warnings "-inexact-float".


Example normalize_twice_run :
  normalize_correlogram [0; 1; 6]%float = [0; 0.42857142857142855; 2.5714285714285712]%float
  /\ Np.mean (normalize_correlogram [0; 1; 6]%float) = 0.99999999999999989%float
  /\ normalize_correlogram (normalize_correlogram [0; 1; 6]%float)
     = [0; 0.4285714285714286; 2.5714285714285716]%float.
Proof. vm_compute. repeat split; reflexivity. Qed.


End NormalizeRuns.


(** * Further properties of the pipeline and of its functions *)

(** ** The stages, one by one *)

Section Stages.
Context {F : Type} `{Number F} {U : Type}.
Variable argsort : list F -> list nat.
Variable gaussian_fftconvolve : list F -> F -> list F -> list F.
Variable recursion_limit : nat.

#[local] Abbreviation step_of := (run_step argsort gaussian_fftconvolve recursion_limit).
#[local] Abbreviation steps_of := (run_steps argsort gaussian_fftconvolve recursion_limit).
#[local] Abbreviation merge :=
  (get_potential_auto_merge argsort gaussian_fftconvolve recursion_limit).

Lemma run_step_min_spikes (analyzer : Analyzer F U) p steps st :
  step_of analyzer p steps "min_spikes"%string st
  = let to_remove := fun i => (count_num_spikes_per_unit (sorting analyzer) i <? minimum_spikes p)%Z in
    Ok {| pair_mask := Np.set_cols (Np.set_rows (pair_mask st) to_remove false) to_remove false;
          contaminations := contaminations st; outs := outs st |}.
Proof. reflexivity. Qed.

Lemma run_step_remove_contaminated (analyzer : Analyzer F U) p steps st :
  step_of analyzer p steps "remove_contaminated"%string st
  = let c := compute_refrac_period_violations analyzer (refractory_period_ms p) (censored_period_ms p) in
    let to_remove := fun i => gtb (c i) (contamination_threshold p) in
    Ok {| pair_mask := Np.set_cols (Np.set_rows (pair_mask st) to_remove false) to_remove false;
          contaminations := Some c; outs := outs st |}.
Proof. reflexivity. Qed.

Lemma run_step_unit_positions (analyzer : Analyzer F U) p steps st :
  In "unit_positions"%string steps ->
  step_of analyzer p steps "unit_positions"%string st
  = let unit_distances :=
      fun i j => euclidean (unit_locations analyzer p i) (unit_locations analyzer p j) in
    Ok {| pair_mask := Np.mask_and (pair_mask st)
                         (fun i j => leb (unit_distances i j) (maximum_distance_um p));
          contaminations := contaminations st;
          outs := dict_set (outs st) "unit_distances" (Distances U unit_distances) |}.
Proof.
  intros Hin. unfold run_step, step_is. rewrite (existsb_eqb_in _ _ Hin). reflexivity.
Qed.

Lemma run_step_correlogram (analyzer : Analyzer F U) p steps st :
  In "correlogram"%string steps ->
  step_of analyzer p steps "correlogram"%string st
  = let sorting := sorting analyzer in
    let smoothed := smoothed_correlograms gaussian_fftconvolve analyzer p in
    win_sizes <- window_sizes gaussian_fftconvolve recursion_limit analyzer p ;;
    correlogram_diff <- compute_correlogram_diff (num_units sorting)
                          (count_num_spikes_per_unit sorting) smoothed win_sizes
                          (Some (pair_mask st)) ;;
    let outs := dict_set (outs st) "correlograms"
                  (Correlograms U (censored_correlograms analyzer p)) in
    let outs := dict_set outs "bins" (Bins U (snd (correlogram_data analyzer p))) in
    let outs := dict_set outs "correlograms_smoothed" (Correlograms U smoothed) in
    let outs := dict_set outs "correlogram_diff" (Differences U correlogram_diff) in
    let outs := dict_set outs "win_sizes" (WinSizes U win_sizes) in
    Ok {| pair_mask := Np.mask_and (pair_mask st)
                         (fun i j => Np.lt_entry (correlogram_diff i j) (corr_diff_thresh p));
          contaminations := contaminations st; outs := outs |}.
Proof.
  intros Hin. unfold run_step, step_is. rewrite (existsb_eqb_in _ _ Hin).
  unfold window_sizes, smoothed_correlograms, censored_correlograms, correlogram_data.
  destruct (match ext_correlograms analyzer with Some d => d | None => _ end) as [cg bins].
  reflexivity.
Qed.

Lemma run_step_template_similarity (analyzer : Analyzer F U) p steps st :
  In "template_similarity"%string steps ->
  step_of analyzer p steps "template_similarity"%string st
  = let n := num_units (sorting analyzer) in
    let mask := pair_mask st in
    templates_diff <-
      match ext_template_similarity analyzer with
      | Some templates_similarity =>
          Ok (fun i j => Some (sub (of_Z 1) (templates_similarity i j)))
      | None =>
          match ext_templates analyzer with
          | None => Raise (AssertionError
              "auto_merge with template_similarity requires a SortingAnalyzer with extension templates")
          | Some templates_array =>
              compute_templates_diff argsort n templates_array (num_channels p) (num_shift p)
                (Some mask) (template_metric p) (sparsity analyzer)
          end
      end ;;
    let mask := Np.mask_and mask
                  (fun i j => Np.lt_entry (templates_diff i j) (template_diff_thresh p)) in
    Ok {| pair_mask := mask; contaminations := contaminations st;
          outs := dict_set (outs st) "templates_diff" (Differences U templates_diff) |}.
Proof.
  intros Hin. unfold run_step, step_is. rewrite (existsb_eqb_in _ _ Hin). reflexivity.
Qed.

Lemma run_step_knn (analyzer : Analyzer F U) p steps st :
  In "knn"%string steps ->
  step_of analyzer p steps "knn"%string st
  = mask <- get_pairs_via_nntree argsort analyzer (k_nn p) (Some (pair_mask st)) ;;
    Ok {| pair_mask := mask; contaminations := contaminations st; outs := outs st |}.
Proof.
  intros Hin. unfold run_step, step_is. rewrite (existsb_eqb_in _ _ Hin). reflexivity.
Qed.

Lemma run_step_presence_distance (analyzer : Analyzer F U) p steps st :
  In "presence_distance"%string steps ->
  step_of analyzer p steps "presence_distance"%string st
  = let presence_distances := compute_presence_distance analyzer (pair_mask st) in
    Ok {| pair_mask := Np.mask_and (pair_mask st)
                  (fun i j => gtb (presence_distances i j) (presence_distance_thresh p));
          contaminations := contaminations st;
          outs := dict_set (outs st) "presence_distances" (Distances U presence_distances) |}.
Proof.
  intros Hin. unfold run_step, step_is. rewrite (existsb_eqb_in _ _ Hin). reflexivity.
Qed.

Lemma run_step_cross_contamination (analyzer : Analyzer F U) p steps st :
  In "cross_contamination"%string steps ->
  step_of analyzer p steps "cross_contamination"%string st
  = let refractory := (censored_period_ms p, refractory_period_ms p) in
    let '(CC, p_values) := compute_cross_contaminations analyzer (Some (pair_mask st))
                             (CC_threshold p) refractory in
    Ok {| pair_mask := Np.mask_and (pair_mask st)
                         (fun i j => gtb (p_values i j) (f32 (p_value p)));
          contaminations := contaminations st;
          outs := dict_set (outs st) "cross_contaminations" (CrossContaminations U CC p_values) |}.
Proof.
  intros Hin. unfold run_step, step_is. rewrite (existsb_eqb_in _ _ Hin). reflexivity.
Qed.

Lemma run_step_check_increase_score (analyzer : Analyzer F U) p steps st :
  In "check_increase_score"%string steps ->
  step_of analyzer p steps "check_increase_score"%string st
  = match contaminations st with
    | None => Raise (UnboundLocalError "contaminations")
    | Some contaminations =>
        let '(mask, pairs_decreased_score) :=
          check_improve_contaminations_score analyzer (pair_mask st) contaminations
            (firing_contamination_balance p) (refractory_period_ms p) (censored_period_ms p) in
        Ok {| pair_mask := mask; contaminations := Some contaminations;
              outs := dict_set (outs st) "pairs_decreased_score" (Pairs pairs_decreased_score) |}
    end.
Proof.
  intros Hin. unfold run_step, step_is. rewrite (existsb_eqb_in _ _ Hin). reflexivity.
Qed.

(** The names the loop accepts. *)
Lemma valid_step_cases (step : string) :
  existsb (String.eqb step) all_steps = true ->
  step = "min_spikes"%string \/ step = "remove_contaminated"%string
  \/ step = "unit_positions"%string \/ step = "correlogram"%string
  \/ step = "template_similarity"%string \/ step = "presence_distance"%string
  \/ step = "knn"%string \/ step = "cross_contamination"%string
  \/ step = "check_increase_score"%string.
Proof.
  intros Hex. apply existsb_exists in Hex as (name & Hin & Heq).
  apply String.eqb_eq in Heq. subst name. simpl in Hin.
  repeat (destruct Hin as [Hin|Hin]; [symmetry in Hin; tauto|]). destruct Hin.
Qed.

(** ** The functions the stages call, entry by entry *)

Lemma nntree_fold (analyzer : Analyzer F U) kn k (units : list nat) : forall m0 a b,
  fold_left (narrow_row argsort analyzer kn k) units m0 a b
  = m0 a b && implb (existsb (Nat.eqb a) units)
                    (existsb (Nat.eqb b) (kept_neighbours argsort analyzer kn k a)).
Proof.
  induction units as [|u units IH]; intros m0 a b; cbn [fold_left existsb].
  - rewrite andb_true_r. reflexivity.
  - rewrite IH. unfold narrow_row.
    destruct (a =? u)%nat eqn:Hau; cbn [orb implb].
    + apply Nat.eqb_eq in Hau. subst u.
      destruct (m0 a b), (existsb (Nat.eqb b) _), (existsb (Nat.eqb a) units); reflexivity.
    + reflexivity.
Qed.

(** The matrix [get_pairs_via_nntree] returns, entry by entry. *)
Lemma nntree_entries (analyzer : Analyzer F U) (k_nn : nat) (pair_mask : option (matrix bool))
  kneighbors mask' :
  ext_spike_neighbours analyzer = Some kneighbors ->
  get_pairs_via_nntree argsort analyzer k_nn pair_mask = Ok mask' ->
  forall a b, mask' a b
    = mask_or_ones pair_mask a b
      && implb (a <? num_units (sorting analyzer))%nat
               (existsb (Nat.eqb b) (kept_neighbours argsort analyzer kneighbors k_nn a)).
Proof.
  intros Hext Hrun a b.
  destruct (get_pairs_via_nntree_returned argsort _ _ _ _ _ Hext Hrun) as [_ ->].
  rewrite nntree_fold, existsb_range. cbn [Nat.leb andb]. reflexivity.
Qed.

Lemma cross_inner (analyzer : Analyzer F U) mask thr refr u1 (l : list nat) :
  forall (acc : matrix F * matrix F) i j,
  let res := fold_left (fun acc unit_ind2 =>
      if negb (mask u1 unit_ind2) then acc
      else
        let '(cc, p) := estimate_cross_contamination analyzer u1 unit_ind2 refr thr in
        (Np.set (fst acc) u1 unit_ind2 (f32 cc),
         Np.set (snd acc) u1 unit_ind2 (f32 p))) l acc in
  let visited := (i =? u1)%nat && existsb (Nat.eqb j) l && mask u1 j in
  fst res i j = (if visited then f32 (fst (estimate_cross_contamination analyzer u1 j refr thr))
                 else fst acc i j)
  /\ snd res i j = (if visited then f32 (snd (estimate_cross_contamination analyzer u1 j refr thr))
                    else snd acc i j).
Proof.
  induction l as [|u2 l IH]; intros acc i j; cbn [fold_left existsb].
  - cbn zeta. rewrite andb_false_r. split; reflexivity.
  - cbn zeta. specialize (IH (if negb (mask u1 u2) then acc
      else let '(cc, p) := estimate_cross_contamination analyzer u1 u2 refr thr in
        (Np.set (fst acc) u1 u2 (f32 cc), Np.set (snd acc) u1 u2 (f32 p))) i j).
    cbn zeta in IH. destruct IH as [IH1 IH2]. rewrite IH1, IH2. clear IH1 IH2.
    destruct (i =? u1)%nat eqn:Hi; cbn [andb].
    + destruct (j =? u2)%nat eqn:Hj; cbn [orb andb].
      * apply Nat.eqb_eq in Hj. subst u2.
        destruct (mask u1 j) eqn:Hm; cbn [negb].
        -- destruct (estimate_cross_contamination analyzer u1 j refr thr) as [cc pv].
           cbn [fst snd]. unfold Np.set. rewrite Hi, Nat.eqb_refl. cbn [andb].
           destruct (existsb (Nat.eqb j) l); split; reflexivity.
        -- rewrite !andb_false_r. split; reflexivity.
      * destruct (existsb (Nat.eqb j) l && mask u1 j); [split; reflexivity|].
        destruct (mask u1 u2); cbn [negb]; [|split; reflexivity].
        destruct (estimate_cross_contamination analyzer u1 u2 refr thr) as [cc pv].
        cbn [fst snd]. unfold Np.set. rewrite Hi, Hj. split; reflexivity.
    + destruct (mask u1 u2); cbn [negb]; [|split; reflexivity].
      destruct (estimate_cross_contamination analyzer u1 u2 refr thr) as [cc pv].
      cbn [fst snd]. unfold Np.set. rewrite Hi. split; reflexivity.
Qed.

Lemma cross_outer (analyzer : Analyzer F U) mask thr refr n (l : list nat) :
  forall (acc : matrix F * matrix F) i j,
  let res := fold_left (fun acc unit_ind1 =>
    fold_left (fun acc unit_ind2 =>
      if negb (mask unit_ind1 unit_ind2) then acc
      else
        let '(cc, p) := estimate_cross_contamination analyzer unit_ind1 unit_ind2 refr thr in
        (Np.set (fst acc) unit_ind1 unit_ind2 (f32 cc),
         Np.set (snd acc) unit_ind1 unit_ind2 (f32 p)))
      (range (unit_ind1 + 1) n) acc) l acc in
  let visited := existsb (Nat.eqb i) l && (i <? j)%nat && (j <? n)%nat && mask i j in
  fst res i j = (if visited then f32 (fst (estimate_cross_contamination analyzer i j refr thr))
                 else fst acc i j)
  /\ snd res i j = (if visited then f32 (snd (estimate_cross_contamination analyzer i j refr thr))
                    else snd acc i j).
Proof.
  induction l as [|u1 l IH]; intros acc i j; cbn [fold_left existsb].
  - cbn zeta. split; reflexivity.
  - cbn zeta.
    set (acc1 := fold_left _ (range (u1 + 1) n) acc).
    specialize (IH acc1 i j). cbn zeta in IH. destruct IH as [IH1 IH2].
    rewrite IH1, IH2. clear IH1 IH2.
    destruct (cross_inner analyzer mask thr refr u1 (range (u1 + 1) n) acc i j) as [H1 H2].
    cbn zeta in H1, H2. fold acc1 in H1, H2. rewrite H1, H2. clear H1 H2.
    rewrite existsb_range.
    replace (u1 + 1 <=? j)%nat with (u1 <? j)%nat by (unfold Nat.ltb; f_equal; lia).
    destruct (i =? u1)%nat eqn:Hi; cbn [orb andb].
    + apply Nat.eqb_eq in Hi. subst u1.
      destruct (existsb (Nat.eqb i) l), (i <? j)%nat, (j <? n)%nat, (mask i j);
        split; reflexivity.
    + split; reflexivity.
Qed.

Lemma cross_contaminations_visited (analyzer : Analyzer F U) (pair_mask : option (matrix bool))
  (CC_threshold : F) (refractory_period : F * F) (i j : nat) :
  let n := num_units (sorting analyzer) in
  let res := compute_cross_contaminations analyzer pair_mask CC_threshold refractory_period in
  let visited := (i <? j)%nat && (j <? n)%nat && mask_or_ones pair_mask i j in
  let estimate := estimate_cross_contamination analyzer i j refractory_period CC_threshold in
  fst res i j = (if visited then f32 (fst estimate) else f32 zero)
  /\ snd res i j = (if visited then f32 (snd estimate) else f32 zero).
Proof.
  cbn zeta. unfold compute_cross_contaminations.
  destruct (cross_outer analyzer (mask_or_ones pair_mask) CC_threshold refractory_period
              (num_units (sorting analyzer)) (range 0 (num_units (sorting analyzer)))
              (fun _ _ => f32 zero, fun _ _ => f32 zero) i j) as [H1 H2].
  cbn zeta in H1, H2. unfold mask_or_ones in *. rewrite H1, H2. clear H1 H2.
  rewrite existsb_range. cbn [Nat.leb fst snd].
  destruct (i <? j)%nat eqn:Hij; cbn [andb]; [|rewrite andb_false_r; split; reflexivity].
  destruct (j <? num_units (sorting analyzer))%nat eqn:Hjn; cbn [andb];
    [|rewrite andb_false_r; split; reflexivity].
  apply Nat.ltb_lt in Hij. apply Nat.ltb_lt in Hjn.
  replace (i <? num_units (sorting analyzer))%nat with true
    by (symmetry; apply Nat.ltb_lt; lia).
  split; reflexivity.
Qed.

Lemma check_improve_fold (analyzer : Analyzer F U) cont k r c (inds : list (nat * nat)) :
  forall (acc : matrix bool * list (U * U)),
  let rejected := fun ind : nat * nat => score_decreases analyzer cont k r c (fst ind) (snd ind) in
  let res := fold_left (fun acc ind =>
      let '(pair_mask, pairs_removed) := acc in
      let '(ind1, ind2) := ind in
      let c_1 := cont ind1 in
      let c_2 := cont ind2 in
      let f_1 := compute_firing_rates analyzer ind1 in
      let f_2 := compute_firing_rates analyzer ind2 in
      let c_new := merged_contamination analyzer r c ind1 ind2 in
      let f_new := merged_firing_rate analyzer c ind1 ind2 in
      let score_1 := score k f_1 c_1 in
      let score_2 := score k f_2 c_2 in
      let score_new := score k f_new c_new in
      if ltb score_new score_1 || ltb score_new score_2 then
        (Np.set pair_mask ind1 ind2 false,
         pairs_removed ++ [(unit_ids (sorting analyzer) ind1, unit_ids (sorting analyzer) ind2)])
      else acc) inds acc in
  (forall i j, fst res i j
     = fst acc i j
       && negb (existsb (fun ind => (fst ind =? i)%nat && (snd ind =? j)%nat)
                        (filter rejected inds)))
  /\ snd res = snd acc ++ map (fun ind => (unit_ids (sorting analyzer) (fst ind),
                                           unit_ids (sorting analyzer) (snd ind)))
                              (filter rejected inds).
Proof.
  induction inds as [|[i1 i2] inds IH]; intros [m l]; cbn [fold_left filter].
  - cbn zeta. split; [intros; cbn [existsb negb]; rewrite andb_true_r; reflexivity|].
    cbn [map]. rewrite app_nil_r. reflexivity.
  - cbn zeta. cbn [fst snd].
    pose proof (eq_refl : score_decreases analyzer cont k r c i1 i2 = _) as Hsd.
    unfold score_decreases in Hsd at 2. cbn zeta in Hsd. rewrite <- Hsd. clear Hsd.
    destruct (score_decreases analyzer cont k r c i1 i2) eqn:Hrej.
    + match goal with |- context [fold_left ?f inds ?a] => specialize (IH a) end.
      cbn zeta in IH. destruct IH as [IHm IHl]. split.
      * intros i j. rewrite IHm. cbn [fst existsb]. unfold Np.set. cbn [fst snd].
        rewrite (Nat.eqb_sym i1 i), (Nat.eqb_sym i2 j).
        destruct ((i =? i1)%nat && (j =? i2)%nat); cbn [orb negb].
        -- rewrite andb_false_r. reflexivity.
        -- reflexivity.
      * rewrite IHl. cbn [snd map fst]. rewrite <- app_assoc. reflexivity.
    + specialize (IH (m, l)). cbn zeta in IH. exact IH.
Qed.

Lemma check_improve_entries (analyzer : Analyzer F U) (mask : matrix bool) cont k r c :
  let n := num_units (sorting analyzer) in
  let res := check_improve_contaminations_score analyzer mask cont k r c in
  (forall i j, fst res i j
     = mask i j && negb ((i <? n)%nat && (j <? n)%nat && score_decreases analyzer cont k r c i j))
  /\ snd res = map (fun ind => (unit_ids (sorting analyzer) (fst ind),
                                unit_ids (sorting analyzer) (snd ind)))
                   (filter (fun ind => score_decreases analyzer cont k r c (fst ind) (snd ind))
                           (Np.nonzero n mask)).
Proof.
  cbn zeta. unfold check_improve_contaminations_score.
  destruct (check_improve_fold analyzer cont k r c
              (Np.nonzero (num_units (sorting analyzer)) mask) (mask, [])) as [Hm Hl].
  cbn zeta in Hm, Hl. split; [|exact Hl].
  intros i j. rewrite Hm. cbn [fst].
  destruct (mask i j) eqn:Hmask; [|reflexivity]. cbn [andb]. f_equal.
  destruct (existsb _ _) eqn:Hex.
  - apply existsb_exists in Hex as ([a b] & Hin & Heq). cbn [fst snd] in Heq.
    apply andb_true_iff in Heq as [Ha Hb].
    apply Nat.eqb_eq in Ha. apply Nat.eqb_eq in Hb. subst a b.
    apply filter_In in Hin as [Hin Hrej]. cbn [fst snd] in Hrej.
    apply in_nonzero in Hin as (Hi & Hj & _).
    apply Nat.ltb_lt in Hi. apply Nat.ltb_lt in Hj.
    rewrite Hi, Hj, Hrej. reflexivity.
  - destruct ((i <? _)%nat && (j <? _)%nat && score_decreases analyzer cont k r c i j) eqn:Hall;
      [|reflexivity].
    apply andb_true_iff in Hall as [Hij Hrej]. apply andb_true_iff in Hij as [Hi Hj].
    apply Nat.ltb_lt in Hi. apply Nat.ltb_lt in Hj.
    assert (Htrue : existsb (fun ind : nat * nat => (fst ind =? i)%nat && (snd ind =? j)%nat)
              (filter (fun ind => score_decreases analyzer cont k r c (fst ind) (snd ind))
                 (Np.nonzero (num_units (sorting analyzer)) mask)) = true).
    { apply existsb_exists. exists (i, j). split.
      - apply filter_In. split; [apply in_nonzero; tauto | exact Hrej].
      - cbn [fst snd]. rewrite !Nat.eqb_refl. reflexivity. }
    congruence.
Qed.

(** ** What a stage asks of a pair *)

Lemma run_step_bound_by_stage (analyzer : Analyzer F U) p steps step st st' :
  step_of analyzer p steps step st = Ok st' ->
  bound_by_stage analyzer p st -> bound_by_stage analyzer p st'.
Proof.
  intros Hrun Hst. destruct (String.eqb step "remove_contaminated") eqn:Hrc.
  - apply String.eqb_eq in Hrc. subst step.
    rewrite run_step_remove_contaminated in Hrun. cbn zeta in Hrun.
    inversion Hrun; subst st'. right. reflexivity.
  - unfold bound_by_stage.
    rewrite (run_step_keeps_contaminations _ _ _ _ _ _ _ _ _ Hrc Hrun). exact Hst.
Qed.

(** What each stage but [presence_distance] asks of a pair does not
    depend on the other entries of the matrix. *)
Lemma stages_are_local (analyzer : Analyzer F U) (p : Params F) :
  exists K : string -> nat -> nat -> bool,
  forall step steps st st',
    step <> "presence_distance"%string ->
    In step steps ->
    bound_by_stage analyzer p st ->
    step_of analyzer p steps step st = Ok st' ->
    forall i j, pair_mask st' i j = pair_mask st i j && K step i j.
Proof.
  set (n := num_units (sorting analyzer)).
  set (count := count_num_spikes_per_unit (sorting analyzer)).
  set (c0 := compute_refrac_period_violations analyzer (refractory_period_ms p)
               (censored_period_ms p)).
  (* the correlogram stage *)
  assert (Hcorr : exists Kc : nat -> nat -> bool, forall steps st st',
            In "correlogram"%string steps ->
            step_of analyzer p steps "correlogram"%string st = Ok st' ->
            forall i j, pair_mask st' i j = pair_mask st i j && Kc i j).
  { destruct (window_sizes gaussian_fftconvolve recursion_limit analyzer p) as [ws|e] eqn:Hws.
    - exists (fun i j => Np.lt_entry
                (if (i <? j)%nat && (j <? n)%nat
                 then entry_of (correlogram_pair_diff count
                        (smoothed_correlograms gaussian_fftconvolve analyzer p) ws i j)
                 else None) (corr_diff_thresh p)).
      intros steps st st' Hin Hrun i j.
      rewrite run_step_correlogram in Hrun by exact Hin. cbn zeta in Hrun.
      rewrite Hws in Hrun. cbn [bind] in Hrun.
      destruct (compute_correlogram_diff _ _ _ _ _) as [D|e] eqn:HD; cbn [bind] in Hrun;
        [|discriminate].
      inversion Hrun; subst st'; clear Hrun. cbn [pair_mask]. unfold Np.mask_and.
      rewrite compute_correlogram_diff_as_loop in HD.
      rewrite (pair_loop_entries _ _ _ D HD i j). fold n count.
      destruct (pair_mask st i j); [|reflexivity]. rewrite andb_true_r. reflexivity.
    - exists (fun _ _ => false). intros steps st st' Hin Hrun.
      rewrite run_step_correlogram in Hrun by exact Hin. cbn zeta in Hrun.
      rewrite Hws in Hrun. discriminate. }
  (* the template stage *)
  assert (Htemp : exists Kt : nat -> nat -> bool, forall steps st st',
            In "template_similarity"%string steps ->
            step_of analyzer p steps "template_similarity"%string st = Ok st' ->
            forall i j, pair_mask st' i j = pair_mask st i j && Kt i j).
  { destruct (ext_template_similarity analyzer) as [sim|] eqn:Hsim.
    - exists (fun i j => ltb (sub (of_Z 1) (sim i j)) (template_diff_thresh p)).
      intros steps st st' Hin Hrun i j.
      rewrite run_step_template_similarity in Hrun by exact Hin. cbn zeta in Hrun.
      rewrite Hsim in Hrun. cbn [bind] in Hrun.
      inversion Hrun; subst st'; clear Hrun. reflexivity.
    - destruct (ext_templates analyzer) as [T|] eqn:HT.
      + exists (fun i j => Np.lt_entry
                  (if (i <? j)%nat && (j <? n)%nat
                   then entry_of (template_pair_diff argsort T (num_channels p) (num_shift p)
                          (template_metric p)
                          (adaptative_masks_of (num_channels p) (sparsity analyzer))
                          (sparsity_mask_of (sparsity analyzer)) i j)
                   else None) (template_diff_thresh p)).
        intros steps st st' Hin Hrun i j.
        rewrite run_step_template_similarity in Hrun by exact Hin. cbn zeta in Hrun.
        rewrite Hsim, HT in Hrun.
        destruct (compute_templates_diff _ _ _ _ _ _ _ _) as [D|e] eqn:HD; cbn [bind] in Hrun;
          [|discriminate].
        inversion Hrun; subst st'; clear Hrun. cbn [pair_mask]. unfold Np.mask_and.
        pose proof (compute_templates_diff_metric _ _ _ _ _ _ _ _ _ HD) as Hmetric.
        rewrite (compute_templates_diff_as_loop _ _ _ _ _ _ _ _ Hmetric) in HD.
        rewrite (pair_loop_entries _ _ _ D HD i j). fold n.
        destruct (pair_mask st i j); [|reflexivity]. rewrite andb_true_r. reflexivity.
      + exists (fun _ _ => false). intros steps st st' Hin Hrun.
        rewrite run_step_template_similarity in Hrun by exact Hin. cbn zeta in Hrun.
        rewrite Hsim, HT in Hrun. discriminate. }
  (* the nearest-neighbour stage *)
  assert (Hknn : exists Kn : nat -> nat -> bool, forall steps st st',
            In "knn"%string steps ->
            step_of analyzer p steps "knn"%string st = Ok st' ->
            forall i j, pair_mask st' i j = pair_mask st i j && Kn i j).
  { destruct (ext_spike_neighbours analyzer) as [kn|] eqn:Hkn.
    - exists (fun a b => implb (a <? n)%nat
                (existsb (Nat.eqb b) (kept_neighbours argsort analyzer kn (k_nn p) a))).
      intros steps st st' Hin Hrun i j.
      rewrite run_step_knn in Hrun by exact Hin.
      destruct (get_pairs_via_nntree argsort analyzer (k_nn p) (Some (pair_mask st)))
        as [mask'|e] eqn:Hmask'; cbn [bind] in Hrun; [|discriminate].
      pose proof (nntree_entries analyzer (k_nn p) (Some (pair_mask st)) kn mask' Hkn Hmask')
        as Hentries.
      inversion Hrun; subst st'; clear Hrun. cbn [pair_mask]. apply Hentries.
    - exists (fun _ _ => false). intros steps st st' Hin Hrun.
      rewrite run_step_knn in Hrun by exact Hin.
      unfold get_pairs_via_nntree in Hrun. rewrite Hkn in Hrun. discriminate. }
  destruct Hcorr as [Kc Hcorr]. destruct Htemp as [Kt Htemp]. destruct Hknn as [Kn Hknn].
  exists (fun step i j =>
    if String.eqb step "min_spikes" then
      negb (count i <? minimum_spikes p)%Z && negb (count j <? minimum_spikes p)%Z
    else if String.eqb step "remove_contaminated" then
      negb (gtb (c0 i) (contamination_threshold p))
      && negb (gtb (c0 j) (contamination_threshold p))
    else if String.eqb step "unit_positions" then
      leb (euclidean (unit_locations analyzer p i) (unit_locations analyzer p j))
          (maximum_distance_um p)
    else if String.eqb step "correlogram" then Kc i j
    else if String.eqb step "template_similarity" then Kt i j
    else if String.eqb step "knn" then Kn i j
    else if String.eqb step "cross_contamination" then
      gtb (if (i <? j)%nat && (j <? n)%nat
           then f32 (snd (estimate_cross_contamination analyzer i j
                            (censored_period_ms p, refractory_period_ms p) (CC_threshold p)))
           else f32 zero) (f32 (p_value p))
    else if String.eqb step "check_increase_score" then
      negb ((i <? n)%nat && (j <? n)%nat
            && score_decreases analyzer c0 (firing_contamination_balance p)
                 (refractory_period_ms p) (censored_period_ms p) i j)
    else true).
  intros step steps st st' Hpd Hin Hbound Hrun i j.
  destruct (existsb (String.eqb step) all_steps) eqn:Hvalid.
  - apply valid_step_cases in Hvalid.
    destruct Hvalid as [->|[->|[->|[->|[->|[->|[->|[->| ->]]]]]]]].
    + rewrite run_step_min_spikes in Hrun. cbn zeta in Hrun.
      inversion Hrun; subst st'; clear Hrun. cbn [pair_mask String.eqb Ascii.eqb Bool.eqb].
      unfold Np.set_cols, Np.set_rows. fold count.
      destruct (count j <? minimum_spikes p)%Z, (count i <? minimum_spikes p)%Z;
        cbn [negb andb]; rewrite ?andb_false_r, ?andb_true_r; reflexivity.
    + rewrite run_step_remove_contaminated in Hrun. cbn zeta in Hrun.
      inversion Hrun; subst st'; clear Hrun.
      change (String.eqb "remove_contaminated" "min_spikes") with false.
      change (String.eqb "remove_contaminated" "remove_contaminated") with true.
      cbn iota. cbn [pair_mask].
      unfold Np.set_cols, Np.set_rows. fold c0.
      destruct (gtb (c0 j) _), (gtb (c0 i) _);
        cbn [negb andb]; rewrite ?andb_false_r, ?andb_true_r; reflexivity.
    + rewrite run_step_unit_positions in Hrun by exact Hin. cbn zeta in Hrun.
      inversion Hrun; subst st'; clear Hrun. reflexivity.
    + rewrite (Hcorr steps st st' Hin Hrun i j). reflexivity.
    + rewrite (Htemp steps st st' Hin Hrun i j). reflexivity.
    + exfalso. apply Hpd. reflexivity.
    + rewrite (Hknn steps st st' Hin Hrun i j). reflexivity.
    + rewrite run_step_cross_contamination in Hrun by exact Hin. cbn zeta in Hrun.
      pose proof (cross_contaminations_visited analyzer (Some (pair_mask st)) (CC_threshold p)
                    (censored_period_ms p, refractory_period_ms p) i j) as [_ Hp].
      cbn zeta in Hp.
      destruct (compute_cross_contaminations _ _ _ _) as [CC pv].
      inversion Hrun; subst st'; clear Hrun. cbn [pair_mask snd] in Hp |- *.
      unfold Np.mask_and. rewrite Hp. cbn [mask_or_ones]. fold n.
      change (String.eqb "cross_contamination" "min_spikes") with false.
      change (String.eqb "cross_contamination" "remove_contaminated") with false.
      change (String.eqb "cross_contamination" "unit_positions") with false.
      change (String.eqb "cross_contamination" "correlogram") with false.
      change (String.eqb "cross_contamination" "template_similarity") with false.
      change (String.eqb "cross_contamination" "knn") with false.
      change (String.eqb "cross_contamination" "cross_contamination") with true.
      cbn iota.
      destruct (pair_mask st i j); [|reflexivity]. rewrite andb_true_r. reflexivity.
    + rewrite run_step_check_increase_score in Hrun by exact Hin.
      destruct Hbound as [Hnone|Hsome].
      * rewrite Hnone in Hrun. discriminate.
      * rewrite Hsome in Hrun. fold c0 in Hrun.
        pose proof (check_improve_entries analyzer (pair_mask st) c0
                      (firing_contamination_balance p) (refractory_period_ms p)
                      (censored_period_ms p)) as [Hm _].
        cbn zeta in Hm.
        destruct (check_improve_contaminations_score _ _ _ _ _ _) as [m l].
        inversion Hrun; subst st'; clear Hrun. cbn [pair_mask fst] in Hm |- *.
        rewrite Hm. reflexivity.
  - (* a name the loop rejects: the stage body does nothing *)
    assert (Hno : forall name, In name all_steps -> String.eqb step name = false).
    { intros name Hname. destruct (String.eqb step name) eqn:Heq; [|reflexivity].
      apply String.eqb_eq in Heq. subst name.
      rewrite (existsb_eqb_in _ _ Hname) in Hvalid. discriminate. }
    unfold run_step, step_is in Hrun.
    rewrite !Hno in Hrun by (cbn; tauto). cbn [andb] in Hrun.
    inversion Hrun; subst st'. rewrite !Hno by (cbn; tauto). rewrite andb_true_r. reflexivity.
Qed.

(** ** Runs of the loop *)

(** One iteration of the loop that completes. *)
Lemma run_steps_cons (analyzer : Analyzer F U) p steps step rest st st' :
  outcome (steps_of analyzer p steps (step :: rest) st) = Ok st' ->
  existsb (String.eqb step) all_steps = true /\
  exists st1, step_of analyzer p steps step st = Ok st1
              /\ outcome (steps_of analyzer p steps rest st1) = Ok st'.
Proof.
  cbn [run_steps].
  destruct (existsb (String.eqb step) all_steps); cbn [negb]; [|discriminate].
  destruct (step_of analyzer p steps step st) as [st1|e]; cbn [outcome]; [|discriminate].
  intros Hrest. split; [reflexivity|]. exists st1. split; [reflexivity | exact Hrest].
Qed.

Lemma run_steps_bound_by_stage (analyzer : Analyzer F U) p steps remaining : forall st st',
  outcome (steps_of analyzer p steps remaining st) = Ok st' ->
  bound_by_stage analyzer p st -> bound_by_stage analyzer p st'.
Proof.
  induction remaining as [|step rest IH]; intros st st' Hrun Hst.
  - cbn in Hrun. inversion Hrun; subst. exact Hst.
  - apply run_steps_cons in Hrun as (_ & st1 & Hstep & Hrest).
    apply (IH st1 st' Hrest).
    eapply run_step_bound_by_stage; eassumption.
Qed.

(** What a stage leaves True stays the only thing True afterwards. *)
Lemma run_steps_stage_post (analyzer : Analyzer F U) p steps (s : string) (q : nat -> nat -> bool) :
  (forall st st', step_of analyzer p steps s st = Ok st' ->
                  forall i j, pair_mask st' i j = true -> q i j = true) ->
  forall remaining st st',
    outcome (steps_of analyzer p steps remaining st) = Ok st' ->
    In s remaining ->
    forall i j, pair_mask st' i j = true -> q i j = true.
Proof.
  intros Hs. induction remaining as [|step rest IH]; intros st st' Hrun Hin i j Hij;
    [destruct Hin|].
  apply run_steps_cons in Hrun as (_ & st1 & Hstep & Hrest).
  destruct (in_dec string_dec s rest) as [Hlater|Hnot].
  - exact (IH st1 st' Hrest Hlater i j Hij).
  - destruct Hin as [->|Hin]; [|contradiction].
    apply (Hs st st1 Hstep i j).
    apply (run_steps_shrinks _ _ _ _ _ _ _ _ _ Hrest). exact Hij.
Qed.

Lemma run_steps_stage_post_bound (analyzer : Analyzer F U) p steps (s : string)
  (q : nat -> nat -> bool) :
  (forall st st', bound_by_stage analyzer p st ->
                  step_of analyzer p steps s st = Ok st' ->
                  forall i j, pair_mask st' i j = true -> q i j = true) ->
  forall remaining st st',
    bound_by_stage analyzer p st ->
    outcome (steps_of analyzer p steps remaining st) = Ok st' ->
    In s remaining ->
    forall i j, pair_mask st' i j = true -> q i j = true.
Proof.
  intros Hs. induction remaining as [|step rest IH]; intros st st' Hst Hrun Hin i j Hij;
    [destruct Hin|].
  apply run_steps_cons in Hrun as (_ & st1 & Hstep & Hrest).
  assert (Hst1 : bound_by_stage analyzer p st1)
    by (eapply run_step_bound_by_stage; eassumption).
  destruct (in_dec string_dec s rest) as [Hlater|Hnot].
  - exact (IH st1 st' Hst1 Hrest Hlater i j Hij).
  - destruct Hin as [->|Hin]; [|contradiction].
    apply (Hs st st1 Hst Hstep i j).
    apply (run_steps_shrinks _ _ _ _ _ _ _ _ _ Hrest). exact Hij.
Qed.

Section ClosedForm.
Variable analyzer : Analyzer F U.
Variable p : Params F.
Variable K : string -> nat -> nat -> bool.
Hypothesis K_local : forall step steps st st',
    step <> "presence_distance"%string ->
    In step steps ->
    bound_by_stage analyzer p st ->
    step_of analyzer p steps step st = Ok st' ->
    forall i j, pair_mask st' i j = pair_mask st i j && K step i j.

Lemma run_steps_closed_form steps remaining : forall st st',
  incl remaining steps ->
  ~ In "presence_distance"%string remaining ->
  bound_by_stage analyzer p st ->
  outcome (steps_of analyzer p steps remaining st) = Ok st' ->
  forall i j, pair_mask st' i j = pair_mask st i j && forallb (fun s => K s i j) remaining.
Proof.
  induction remaining as [|step rest IH]; intros st st' Hincl Hpd Hst Hrun i j.
  - cbn in Hrun. inversion Hrun; subst. cbn [forallb]. rewrite andb_true_r. reflexivity.
  - apply run_steps_cons in Hrun as (_ & st1 & Hstep & Hrest).
    rewrite (IH st1 st'); try assumption.
    + rewrite (K_local step steps st st1); try assumption.
      * cbn [forallb]. rewrite andb_assoc. reflexivity.
      * intros ->. apply Hpd. left. reflexivity.
      * apply Hincl. left. reflexivity.
    + intros s Hs. apply Hincl. right. exact Hs.
    + intros Hin. apply Hpd. right. exact Hin.
    + eapply run_step_bound_by_stage; eassumption.
Qed.

Lemma run_steps_passes steps remaining : forall st st',
  incl remaining steps ->
  bound_by_stage analyzer p st ->
  outcome (steps_of analyzer p steps remaining st) = Ok st' ->
  forall i j, pair_mask st' i j = true ->
    pair_mask st i j = true
    /\ forall s, In s remaining -> s <> "presence_distance"%string -> K s i j = true.
Proof.
  induction remaining as [|step rest IH]; intros st st' Hincl Hst Hrun i j Hij.
  - cbn in Hrun. inversion Hrun; subst. split; [exact Hij | intros s []].
  - apply run_steps_cons in Hrun as (_ & st1 & Hstep & Hrest).
    assert (Hincl' : incl rest steps) by (intros s Hs; apply Hincl; right; exact Hs).
    assert (Hst1 : bound_by_stage analyzer p st1)
      by (eapply run_step_bound_by_stage; eassumption).
    destruct (IH st1 st' Hincl' Hst1 Hrest i j Hij) as [H1 Hrest_ok].
    split.
    + apply (run_step_shrinks _ _ _ _ _ _ _ _ _ Hstep). exact H1.
    + intros s [<-|Hs] Hpd; [|exact (Hrest_ok s Hs Hpd)].
      assert (Hin : In step steps) by (apply Hincl; left; reflexivity).
      rewrite (K_local step steps st st1 Hpd Hin Hst Hstep i j) in H1.
      apply andb_true_iff in H1. tauto.
Qed.

End ClosedForm.

(** The loop reads every argument but [steps] and [preset] from [p]. *)
Lemma run_steps_with_steps (analyzer : Analyzer F U) p given steps remaining : forall st,
  steps_of analyzer (with_steps p given) steps remaining st
  = steps_of analyzer p steps remaining st.
Proof.
  induction remaining as [|step rest IH]; intros st; [reflexivity|].
  cbn [run_steps].
  change (step_of analyzer (with_steps p given) steps step st)
    with (step_of analyzer p steps step st).
  destruct (negb _); [reflexivity|].
  destruct (step_of analyzer p steps step st) as [st1|e]; [|reflexivity].
  rewrite IH. reflexivity.
Qed.

Lemma run_steps_with_preset (analyzer : Analyzer F U) p name steps remaining : forall st,
  steps_of analyzer (with_preset p name) steps remaining st
  = steps_of analyzer p steps remaining st.
Proof.
  induction remaining as [|step rest IH]; intros st; [reflexivity|].
  cbn [run_steps].
  change (step_of analyzer (with_preset p name) steps step st)
    with (step_of analyzer p steps step st).
  destruct (negb _); [reflexivity|].
  destruct (step_of analyzer p steps step st) as [st1|e]; [|reflexivity].
  rewrite IH. reflexivity.
Qed.

Lemma merge_with_steps (analyzer : Analyzer F U) p given merges diagnostics :
  merge analyzer (with_steps p (Some given)) = Ok (merges, diagnostics) ->
  exists st', outcome (steps_of analyzer p given given initial_locals) = Ok st'
              /\ merges = potential_merges (sorting analyzer) (pair_mask st').
Proof.
  unfold get_potential_auto_merge, get_potential_auto_merge_trace.
  change (resolve_steps (with_steps p (Some given))) with (Some given).
  cbn [outcome]. rewrite run_steps_with_steps. fold (@initial_locals F U).
  destruct (outcome (steps_of analyzer p given given initial_locals)) as [st'|e];
    cbn [bind]; [|discriminate].
  intros Heq. inversion Heq; subst. exists st'. split; reflexivity.
Qed.

Lemma merge_resolved (analyzer : Analyzer F U) p given merges diagnostics :
  resolve_steps p = Some given ->
  merge analyzer p = Ok (merges, diagnostics) ->
  exists st', outcome (steps_of analyzer p given given initial_locals) = Ok st'
              /\ merges = potential_merges (sorting analyzer) (pair_mask st')
              /\ diagnostics = (if extra_outputs p then Some (outs st') else None).
Proof.
  intros Hgiven. unfold get_potential_auto_merge, get_potential_auto_merge_trace.
  rewrite Hgiven. cbn [outcome]. fold (@initial_locals F U).
  destruct (outcome (steps_of analyzer p given given initial_locals)) as [st'|e];
    cbn [bind]; [|discriminate].
  intros Heq. inversion Heq; subst. exists st'. repeat split; reflexivity.
Qed.

Lemma initial_bound_by_stage (analyzer : Analyzer F U) p :
  bound_by_stage analyzer p initial_locals.
Proof. left. reflexivity. Qed.

Lemma potential_merges_incl (s : Sorting U) (m m' : matrix bool) :
  (forall i j, (i < num_units s)%nat -> (j < num_units s)%nat -> m i j = true -> m' i j = true) ->
  incl (potential_merges s m) (potential_merges s m').
Proof.
  intros Hsub [a b] Hin. apply in_potential_merges in Hin as (i & j & Hi & Hj & Hm & Ha & Hb).
  apply in_potential_merges. exists i, j. repeat split; try assumption. apply Hsub; assumption.
Qed.

Lemma potential_merges_ext (s : Sorting U) (m m' : matrix bool) :
  (forall i j, (i < num_units s)%nat -> (j < num_units s)%nat -> m i j = m' i j) ->
  potential_merges s m = potential_merges s m'.
Proof.
  intros Heq. unfold potential_merges, Np.nonzero. f_equal.
  assert (Hrows : forall rows, (forall i, In i rows -> (i < num_units s)%nat) ->
            flat_map (fun i => map (pair i) (filter (m i) (seq 0 (num_units s)))) rows
            = flat_map (fun i => map (pair i) (filter (m' i) (seq 0 (num_units s)))) rows).
  { induction rows as [|i rows IH]; intros Hlt; [reflexivity|]. cbn [flat_map].
    rewrite IH by (intros k Hk; apply Hlt; right; exact Hk). f_equal. f_equal.
    apply filter_ext_in. intros j Hj. apply in_seq in Hj.
    apply Heq; [apply Hlt; left; reflexivity | lia]. }
  apply Hrows. intros i Hi. apply in_seq in Hi. lia.
Qed.

Lemma loops_incl (analyzer : Analyzer F U) p fewer more st1 st2 :
  incl fewer more ->
  ~ In "presence_distance"%string fewer ->
  outcome (steps_of analyzer p fewer fewer initial_locals) = Ok st1 ->
  outcome (steps_of analyzer p more more initial_locals) = Ok st2 ->
  forall i j, pair_mask st2 i j = true -> pair_mask st1 i j = true.
Proof.
  intros Hincl Hpd Hrun1 Hrun2 i j Hij.
  destruct (stages_are_local analyzer p)
    as [K HK].
  destruct (run_steps_passes analyzer p K HK
              more more initial_locals st2
              (incl_refl _) (initial_bound_by_stage analyzer p) Hrun2 i j Hij) as [Hinit Hall].
  rewrite (run_steps_closed_form analyzer p K HK
             fewer fewer initial_locals st1
             (incl_refl _) Hpd (initial_bound_by_stage analyzer p) Hrun1 i j).
  rewrite Hinit. cbn [andb]. apply forallb_forall. intros s Hs.
  apply Hall; [apply Hincl, Hs|]. intros ->. exact (Hpd Hs).
Qed.

(** ** The returned list and the stage list *)

(** X1. Running more stages never adds a pair: when every stage of the
    list [fewer] is in the list [more], [fewer] does not hold
    [presence_distance], and both calls return, every pair the call with
    [more] returns is returned by the call with [fewer]. *)
Theorem more_stages_fewer_pairs (analyzer : Analyzer F U) (p : Params F)
  (fewer more : list string) (merges_fewer merges_more : list (U * U))
  (diagnostics_fewer diagnostics_more : option (list (string * diagnostic F U))) :
  incl fewer more ->
  ~ In "presence_distance"%string fewer ->
  merge analyzer (with_steps p (Some fewer)) = Ok (merges_fewer, diagnostics_fewer) ->
  merge analyzer (with_steps p (Some more)) = Ok (merges_more, diagnostics_more) ->
  incl merges_more merges_fewer.
Proof.
  intros Hincl Hpd Hfewer Hmore.
  apply merge_with_steps in Hfewer as (st1 & Hrun1 & ->).
  apply merge_with_steps in Hmore as (st2 & Hrun2 & ->).
  apply potential_merges_incl. intros i j _ _.
  exact (loops_incl analyzer p fewer more st1 st2 Hincl Hpd Hrun1 Hrun2 i j).
Qed.

(** X2. The returned list depends on the set of stages only: two stage
    lists that hold the same stage names, in any order and any number of
    times, [presence_distance] not among them, give the same list when
    both calls return. *)
Theorem stage_order_is_irrelevant (analyzer : Analyzer F U) (p : Params F)
  (given given' : list string) (merges merges' : list (U * U))
  (diagnostics diagnostics' : option (list (string * diagnostic F U))) :
  incl given given' -> incl given' given ->
  ~ In "presence_distance"%string given ->
  merge analyzer (with_steps p (Some given)) = Ok (merges, diagnostics) ->
  merge analyzer (with_steps p (Some given')) = Ok (merges', diagnostics') ->
  merges = merges'.
Proof.
  intros Hincl Hincl' Hpd Hrun Hrun'.
  assert (Hpd' : ~ In "presence_distance"%string given')
    by (intros Hin; apply Hpd, Hincl', Hin).
  apply merge_with_steps in Hrun as (st1 & Hrun1 & ->).
  apply merge_with_steps in Hrun' as (st2 & Hrun2 & ->).
  destruct (stages_are_local analyzer p)
    as [K HK].
  apply potential_merges_ext. intros i j _ _.
  rewrite (run_steps_closed_form analyzer p K HK given given initial_locals st1
             (incl_refl _) Hpd (initial_bound_by_stage analyzer p) Hrun1 i j).
  rewrite (run_steps_closed_form analyzer p K HK given' given' initial_locals st2
             (incl_refl _) Hpd' (initial_bound_by_stage analyzer p) Hrun2 i j).
  f_equal.
  destruct (forallb (fun s => K s i j) given) eqn:Hall;
    destruct (forallb (fun s => K s i j) given') eqn:Hall'; try reflexivity.
  - rewrite forallb_forall in Hall.
    assert (Htrue : forallb (fun s => K s i j) given' = true)
      by (apply forallb_forall; intros s Hs; apply Hall, Hincl', Hs).
    congruence.
  - rewrite forallb_forall in Hall'.
    assert (Htrue : forallb (fun s => K s i j) given = true)
      by (apply forallb_forall; intros s Hs; apply Hall', Hincl, Hs).
    congruence.
Qed.

(** X3. Every pair a call returns is a pair of unit indices [i <= j],
    [j > 0], whose two units pass the unit-level stages that are listed:
    both have at least [minimum_spikes] spikes if [min_spikes] is listed,
    neither has a contamination above [contamination_threshold] if
    [remove_contaminated] is listed, and their locations are at most
    [maximum_distance_um] apart if [unit_positions] is listed. *)
Theorem returned_pairs_pass_unit_filters (analyzer : Analyzer F U) (p : Params F)
  (given : list string) (merges : list (U * U))
  (diagnostics : option (list (string * diagnostic F U))) :
  resolve_steps p = Some given ->
  merge analyzer p = Ok (merges, diagnostics) ->
  forall a b, In (a, b) merges ->
    let s := sorting analyzer in
    exists i j,
      (i <= j < num_units s)%nat /\ (0 < j)%nat /\ a = unit_ids s i /\ b = unit_ids s j
      /\ (In "min_spikes"%string given ->
            (minimum_spikes p <= count_num_spikes_per_unit s i)%Z
            /\ (minimum_spikes p <= count_num_spikes_per_unit s j)%Z)
      /\ (In "remove_contaminated"%string given ->
            let contaminations := compute_refrac_period_violations analyzer
                                    (refractory_period_ms p) (censored_period_ms p) in
            gtb (contaminations i) (contamination_threshold p) = false
            /\ gtb (contaminations j) (contamination_threshold p) = false)
      /\ (In "unit_positions"%string given ->
            leb (euclidean (unit_locations analyzer p i) (unit_locations analyzer p j))
                (maximum_distance_um p) = true).
Proof.
  intros Hgiven Hrun a b Hin s.
  destruct (merge_resolved _ _ _ _ _ Hgiven Hrun) as (st' & Hloop & -> & _).
  apply in_potential_merges in Hin as (i & j & Hi & Hj & Hm & Ha & Hb).
  exists i, j.
  assert (Hinit : initial_pair_mask i j = true)
    by (apply (run_steps_shrinks _ _ _ _ _ _ _ _ _ Hloop); exact Hm).
  apply initial_pair_mask_spec in Hinit.
  split; [fold s in Hi, Hj; lia|]. split; [lia|]. split; [exact Ha|]. split; [exact Hb|].
  split; [|split].
  - intros Hstage.
    assert (Hq : negb (count_num_spikes_per_unit s i <? minimum_spikes p)%Z
                 && negb (count_num_spikes_per_unit s j <? minimum_spikes p)%Z = true).
    { apply (run_steps_stage_post analyzer p given
               "min_spikes"
               (fun i j => negb (count_num_spikes_per_unit s i <? minimum_spikes p)%Z
                           && negb (count_num_spikes_per_unit s j <? minimum_spikes p)%Z))
        with (remaining := given) (st := initial_locals) (st' := st'); try assumption.
      intros st0 st1 Hstep i0 j0. rewrite run_step_min_spikes in Hstep. cbn zeta in Hstep.
      inversion Hstep; subst st1; clear Hstep. cbn [pair_mask].
      unfold Np.set_cols, Np.set_rows. fold s.
      destruct (count_num_spikes_per_unit s j0 <? minimum_spikes p)%Z; [discriminate|].
      destruct (count_num_spikes_per_unit s i0 <? minimum_spikes p)%Z; [discriminate|].
      reflexivity. }
    apply andb_true_iff in Hq as [Hqi Hqj].
    apply negb_true_iff in Hqi. apply negb_true_iff in Hqj.
    apply Z.ltb_ge in Hqi. apply Z.ltb_ge in Hqj. split; assumption.
  - intros Hstage. cbn zeta.
    set (c0 := compute_refrac_period_violations analyzer (refractory_period_ms p)
                 (censored_period_ms p)).
    assert (Hq : negb (gtb (c0 i) (contamination_threshold p))
                 && negb (gtb (c0 j) (contamination_threshold p)) = true).
    { apply (run_steps_stage_post analyzer p given
               "remove_contaminated"
               (fun i j => negb (gtb (c0 i) (contamination_threshold p))
                           && negb (gtb (c0 j) (contamination_threshold p))))
        with (remaining := given) (st := initial_locals) (st' := st'); try assumption.
      intros st0 st1 Hstep i0 j0. rewrite run_step_remove_contaminated in Hstep.
      cbn zeta in Hstep. inversion Hstep; subst st1; clear Hstep. cbn [pair_mask].
      unfold Np.set_cols, Np.set_rows. fold c0.
      destruct (gtb (c0 j0) _); [discriminate|].
      destruct (gtb (c0 i0) _); [discriminate|]. reflexivity. }
    apply andb_true_iff in Hq as [Hqi Hqj].
    apply negb_true_iff in Hqi. apply negb_true_iff in Hqj. split; assumption.
  - intros Hstage.
    apply (run_steps_stage_post analyzer p given
             "unit_positions"
             (fun i j => leb (euclidean (unit_locations analyzer p i)
                                        (unit_locations analyzer p j))
                             (maximum_distance_um p)))
      with (remaining := given) (st := initial_locals) (st' := st'); try assumption.
    intros st0 st1 Hstep i0 j0. rewrite run_step_unit_positions in Hstep by exact Hstage.
    cbn zeta in Hstep. inversion Hstep; subst st1; clear Hstep. cbn [pair_mask].
    unfold Np.mask_and. intros Hand. apply andb_true_iff in Hand. tauto.
Qed.

(** X4. Every pair a call returns passes the pairwise stages that are
    listed: its correlogram difference, for the windows the stage
    computes, is below [corr_diff_thresh]; its template difference (one
    minus the similarity of the extension, or the computed difference) is
    below [template_diff_thresh]; its cross-contamination p-value is above
    [p_value]; and its merged score is not below the score of either
    unit. *)
Theorem returned_pairs_pass_pair_filters (analyzer : Analyzer F U) (p : Params F)
  (given : list string) (merges : list (U * U))
  (diagnostics : option (list (string * diagnostic F U))) :
  resolve_steps p = Some given ->
  merge analyzer p = Ok (merges, diagnostics) ->
  forall a b, In (a, b) merges ->
    let s := sorting analyzer in
    exists i j,
      (i <= j < num_units s)%nat /\ a = unit_ids s i /\ b = unit_ids s j
      /\ (In "correlogram"%string given ->
            exists win_sizes d,
              window_sizes gaussian_fftconvolve recursion_limit analyzer p = Ok win_sizes
              /\ correlogram_pair_diff (count_num_spikes_per_unit s)
                   (smoothed_correlograms gaussian_fftconvolve analyzer p) win_sizes i j = Ok d
              /\ ltb d (corr_diff_thresh p) = true)
      /\ (In "template_similarity"%string given ->
            match ext_template_similarity analyzer with
            | Some templates_similarity =>
                ltb (sub (of_Z 1) (templates_similarity i j)) (template_diff_thresh p) = true
            | None =>
                exists templates_array d,
                  ext_templates analyzer = Some templates_array
                  /\ template_pair_diff argsort templates_array (num_channels p) (num_shift p)
                       (template_metric p)
                       (adaptative_masks_of (num_channels p) (sparsity analyzer))
                       (sparsity_mask_of (sparsity analyzer)) i j = Ok d
                  /\ ltb d (template_diff_thresh p) = true
            end)
      /\ (In "cross_contamination"%string given ->
            gtb (if (i <? j)%nat
                 then f32 (snd (estimate_cross_contamination analyzer i j
                                  (censored_period_ms p, refractory_period_ms p)
                                  (CC_threshold p)))
                 else f32 zero) (f32 (p_value p)) = true)
      /\ (In "check_increase_score"%string given ->
            score_decreases analyzer
              (compute_refrac_period_violations analyzer (refractory_period_ms p)
                 (censored_period_ms p))
              (firing_contamination_balance p) (refractory_period_ms p)
              (censored_period_ms p) i j = false).
Proof.
  intros Hgiven Hrun a b Hin s.
  destruct (merge_resolved _ _ _ _ _ Hgiven Hrun) as (st' & Hloop & -> & _).
  apply in_potential_merges in Hin as (i & j & Hi & Hj & Hm & Ha & Hb).
  exists i, j.
  assert (Hinit : initial_pair_mask i j = true)
    by (apply (run_steps_shrinks _ _ _ _ _ _ _ _ _ Hloop); exact Hm).
  apply initial_pair_mask_spec in Hinit.
  split; [fold s in Hi, Hj; lia|]. split; [exact Ha|]. split; [exact Hb|].
  set (n := num_units s) in *.
  split; [|split; [|split]].
  - (* correlogram *)
    intros Hstage.
    destruct (window_sizes gaussian_fftconvolve recursion_limit analyzer p) as [ws|e] eqn:Hws.
    + set (body := correlogram_pair_diff (count_num_spikes_per_unit s)
                     (smoothed_correlograms gaussian_fftconvolve analyzer p) ws).
      assert (Hq : match body i j with Ok d => ltb d (corr_diff_thresh p) | Raise _ => false end
                   = true).
      { apply (run_steps_stage_post analyzer p
                 given "correlogram"
                 (fun i j => match body i j with
                             | Ok d => ltb d (corr_diff_thresh p) | Raise _ => false end))
          with (remaining := given) (st := initial_locals) (st' := st'); try assumption.
        intros st0 st1 Hstep i0 j0.
        rewrite run_step_correlogram in Hstep by exact Hstage. cbn zeta in Hstep.
        rewrite Hws in Hstep. cbn [bind] in Hstep.
        destruct (compute_correlogram_diff _ _ _ _ _) as [D|e] eqn:HD; cbn [bind] in Hstep;
          [|discriminate].
        inversion Hstep; subst st1; clear Hstep. cbn [pair_mask]. unfold Np.mask_and.
        rewrite compute_correlogram_diff_as_loop in HD.
        rewrite (pair_loop_entries _ _ _ D HD i0 j0). fold s body.
        intros Hand. apply andb_true_iff in Hand as [_ Hlt].
        destruct ((i0 <? j0)%nat && (j0 <? _)%nat && pair_mask st0 i0 j0);
          [|discriminate Hlt].
        destruct (body i0 j0); [exact Hlt | discriminate Hlt]. }
      destruct (body i j) as [d|e] eqn:Hbody; [|discriminate].
      exists ws, d. repeat split; assumption.
    + exfalso.
      assert (Hq : false = true).
      { apply (run_steps_stage_post analyzer p
                 given "correlogram" (fun _ _ => false))
          with (remaining := given) (st := initial_locals) (st' := st') (i := i) (j := j);
          try assumption.
        intros st0 st1 Hstep.
        rewrite run_step_correlogram in Hstep by exact Hstage. cbn zeta in Hstep.
        rewrite Hws in Hstep. discriminate. }
      discriminate.
  - (* template_similarity *)
    intros Hstage.
    destruct (ext_template_similarity analyzer) as [sim|] eqn:Hsim.
    + apply (run_steps_stage_post analyzer p
               given "template_similarity"
               (fun i j => ltb (sub (of_Z 1) (sim i j)) (template_diff_thresh p)))
        with (remaining := given) (st := initial_locals) (st' := st'); try assumption.
      intros st0 st1 Hstep i0 j0.
      rewrite run_step_template_similarity in Hstep by exact Hstage. cbn zeta in Hstep.
      rewrite Hsim in Hstep. cbn [bind] in Hstep.
      inversion Hstep; subst st1; clear Hstep. cbn [pair_mask]. unfold Np.mask_and.
      intros Hand. apply andb_true_iff in Hand. tauto.
    + destruct (ext_templates analyzer) as [T|] eqn:HT.
      * set (body := template_pair_diff argsort T (num_channels p) (num_shift p)
                       (template_metric p)
                       (adaptative_masks_of (num_channels p) (sparsity analyzer))
                       (sparsity_mask_of (sparsity analyzer))).
        assert (Hq : match body i j with
                     | Ok d => ltb d (template_diff_thresh p) | Raise _ => false end = true).
        { apply (run_steps_stage_post analyzer p
                   given "template_similarity"
                   (fun i j => match body i j with
                               | Ok d => ltb d (template_diff_thresh p)
                               | Raise _ => false end))
            with (remaining := given) (st := initial_locals) (st' := st'); try assumption.
          intros st0 st1 Hstep i0 j0.
          rewrite run_step_template_similarity in Hstep by exact Hstage. cbn zeta in Hstep.
          rewrite Hsim, HT in Hstep.
          destruct (compute_templates_diff _ _ _ _ _ _ _ _) as [D|e] eqn:HD;
            cbn [bind] in Hstep; [|discriminate].
          inversion Hstep; subst st1; clear Hstep. cbn [pair_mask]. unfold Np.mask_and.
          pose proof (compute_templates_diff_metric _ _ _ _ _ _ _ _ _ HD) as Hmetric.
          rewrite (compute_templates_diff_as_loop _ _ _ _ _ _ _ _ Hmetric) in HD.
          rewrite (pair_loop_entries _ _ _ D HD i0 j0). fold body.
          intros Hand. apply andb_true_iff in Hand as [_ Hlt].
          destruct ((i0 <? j0)%nat && (j0 <? _)%nat && pair_mask st0 i0 j0);
            [|discriminate Hlt].
          destruct (body i0 j0); [exact Hlt | discriminate Hlt]. }
        destruct (body i j) as [d|e] eqn:Hbody; [|discriminate].
        exists T, d. repeat split; assumption.
      * exfalso.
        assert (Hq : false = true).
        { apply (run_steps_stage_post analyzer p
                   given "template_similarity" (fun _ _ => false))
            with (remaining := given) (st := initial_locals) (st' := st') (i := i) (j := j);
            try assumption.
          intros st0 st1 Hstep.
          rewrite run_step_template_similarity in Hstep by exact Hstage. cbn zeta in Hstep.
          rewrite Hsim, HT in Hstep. discriminate. }
        discriminate.
  - (* cross_contamination *)
    intros Hstage.
    apply (run_steps_stage_post analyzer p
             given "cross_contamination"
             (fun i j =>
                negb ((i <? n)%nat && (j <? n)%nat)
                || gtb (if (i <? j)%nat
                        then f32 (snd (estimate_cross_contamination analyzer i j
                                         (censored_period_ms p, refractory_period_ms p)
                                         (CC_threshold p)))
                        else f32 zero) (f32 (p_value p))))
      with (remaining := given) (st := initial_locals) (st' := st') (i := i) (j := j)
      in Hm as Hq; try assumption.
    + apply Nat.ltb_lt in Hi. apply Nat.ltb_lt in Hj. fold s n in Hi, Hj.
      rewrite Hi, Hj in Hq. exact Hq.
    + intros st0 st1 Hstep i0 j0.
      rewrite run_step_cross_contamination in Hstep by exact Hstage. cbn zeta in Hstep.
      pose proof (cross_contaminations_visited analyzer (Some (pair_mask st0)) (CC_threshold p)
                    (censored_period_ms p, refractory_period_ms p) i0 j0) as [_ Hp].
      cbn zeta in Hp.
      destruct (compute_cross_contaminations _ _ _ _) as [CC pv].
      inversion Hstep; subst st1; clear Hstep. cbn [pair_mask snd] in Hp |- *.
      unfold Np.mask_and. rewrite Hp. cbn [mask_or_ones]. fold s n.
      intros Hand. apply andb_true_iff in Hand as [Hmask Hgt]. rewrite Hmask in Hgt.
      rewrite andb_true_r in Hgt.
      destruct (j0 <? n)%nat eqn:Hjn.
      * rewrite andb_true_r in Hgt. rewrite andb_true_r.
        destruct (i0 <? n)%nat; cbn [negb orb]; [exact Hgt | reflexivity].
      * rewrite andb_false_r. reflexivity.
  - (* check_increase_score *)
    intros Hstage.
    set (c0 := compute_refrac_period_violations analyzer (refractory_period_ms p)
                 (censored_period_ms p)).
    assert (Hq : negb ((i <? n)%nat && (j <? n)%nat
                       && score_decreases analyzer c0 (firing_contamination_balance p)
                            (refractory_period_ms p) (censored_period_ms p) i j) = true).
    { apply (run_steps_stage_post_bound analyzer p given "check_increase_score"
               (fun i j => negb ((i <? n)%nat && (j <? n)%nat
                                 && score_decreases analyzer c0 (firing_contamination_balance p)
                                      (refractory_period_ms p) (censored_period_ms p) i j)))
        with (remaining := given) (st := initial_locals) (st' := st'); try assumption.
      - intros st0 st1 Hbound Hstep i0 j0.
        rewrite run_step_check_increase_score in Hstep by exact Hstage.
        destruct Hbound as [Hnone|Hsome].
        + rewrite Hnone in Hstep. discriminate.
        + rewrite Hsome in Hstep. fold c0 in Hstep.
          pose proof (check_improve_entries analyzer (pair_mask st0) c0
                        (firing_contamination_balance p) (refractory_period_ms p)
                        (censored_period_ms p)) as [Hmask _].
          cbn zeta in Hmask.
          destruct (check_improve_contaminations_score _ _ _ _ _ _) as [m l].
          inversion Hstep; subst st1; clear Hstep. cbn [pair_mask fst] in Hmask |- *.
          rewrite Hmask. fold s n. intros Hand. apply andb_true_iff in Hand. tauto.
      - apply initial_bound_by_stage. }
    apply Nat.ltb_lt in Hi. apply Nat.ltb_lt in Hj. fold s n in Hi, Hj.
    rewrite Hi, Hj in Hq. cbn [andb] in Hq. apply negb_true_iff in Hq. exact Hq.
Qed.

(** *** The stages that compare pairs clear the diagonal *)

Lemma correlogram_stage_strict (analyzer : Analyzer F U) p steps st st' i j :
  In "correlogram"%string steps ->
  step_of analyzer p steps "correlogram"%string st = Ok st' ->
  pair_mask st' i j = true -> ((i <? j)%nat && (j <? num_units (sorting analyzer))%nat) = true.
Proof.
  intros Hin Hrun. rewrite run_step_correlogram in Hrun by exact Hin. cbn zeta in Hrun.
  destruct (window_sizes _ _ _ _) as [ws|e]; cbn [bind] in Hrun; [|discriminate].
  destruct (compute_correlogram_diff _ _ _ _ _) as [D|e] eqn:HD; cbn [bind] in Hrun;
    [|discriminate].
  inversion Hrun; subst st'; clear Hrun. cbn [pair_mask]. unfold Np.mask_and.
  rewrite compute_correlogram_diff_as_loop in HD.
  rewrite (pair_loop_entries _ _ _ D HD i j).
  destruct ((i <? j)%nat && (j <? _)%nat); [reflexivity|].
  cbn [andb Np.lt_entry]. rewrite andb_false_r. discriminate.
Qed.

Lemma template_stage_strict (analyzer : Analyzer F U) p steps st st' i j :
  In "template_similarity"%string steps ->
  ext_template_similarity analyzer = None ->
  step_of analyzer p steps "template_similarity"%string st = Ok st' ->
  pair_mask st' i j = true -> ((i <? j)%nat && (j <? num_units (sorting analyzer))%nat) = true.
Proof.
  intros Hin Hext Hrun. rewrite run_step_template_similarity in Hrun by exact Hin.
  cbn zeta in Hrun. rewrite Hext in Hrun.
  destruct (ext_templates analyzer) as [T|]; [|discriminate].
  destruct (compute_templates_diff _ _ _ _ _ _ _ _) as [D|e] eqn:HD; cbn [bind] in Hrun;
    [|discriminate].
  inversion Hrun; subst st'; clear Hrun. cbn [pair_mask]. unfold Np.mask_and.
  pose proof (compute_templates_diff_metric _ _ _ _ _ _ _ _ _ HD) as Hmetric.
  rewrite (compute_templates_diff_as_loop _ _ _ _ _ _ _ _ Hmetric) in HD.
  rewrite (pair_loop_entries _ _ _ D HD i j).
  destruct ((i <? j)%nat && (j <? _)%nat); [reflexivity|].
  cbn [andb Np.lt_entry]. rewrite andb_false_r. discriminate.
Qed.

Lemma cross_contamination_stage_strict (analyzer : Analyzer F U) p steps st st' i j :
  In "cross_contamination"%string steps ->
  ltb (f32 (p_value p)) (f32 zero) = false ->
  step_of analyzer p steps "cross_contamination"%string st = Ok st' ->
  pair_mask st' i j = true -> ((i <? j)%nat && (j <? num_units (sorting analyzer))%nat) = true.
Proof.
  intros Hin Hp Hrun. rewrite run_step_cross_contamination in Hrun by exact Hin.
  cbn zeta in Hrun.
  pose proof (cross_contaminations_visited analyzer (Some (pair_mask st)) (CC_threshold p)
                (censored_period_ms p, refractory_period_ms p) i j) as [_ Hpv].
  cbn zeta in Hpv.
  destruct (compute_cross_contaminations _ _ _ _) as [CC pv].
  inversion Hrun; subst st'; clear Hrun. cbn [pair_mask snd] in Hpv |- *.
  unfold Np.mask_and. rewrite Hpv.
  destruct ((i <? j)%nat && (j <? _)%nat); [reflexivity|].
  cbn [andb]. unfold gtb. rewrite Hp, andb_false_r. discriminate.
Qed.

(** X5. After a stage that fills an array over the pairs above the
    diagonal ([correlogram], [template_similarity] without the similarity
    extension, [cross_contamination] with a [p_value] that is not
    negative), every returned pair has [i < j]: no unit is paired with
    itself. *)
Theorem pairwise_stages_drop_self_pairs (analyzer : Analyzer F U) (p : Params F)
  (given : list string) (merges : list (U * U))
  (diagnostics : option (list (string * diagnostic F U))) :
  resolve_steps p = Some given ->
  In "correlogram"%string given
  \/ (In "template_similarity"%string given /\ ext_template_similarity analyzer = None)
  \/ (In "cross_contamination"%string given /\ ltb (f32 (p_value p)) (f32 zero) = false) ->
  merge analyzer p = Ok (merges, diagnostics) ->
  forall a b, In (a, b) merges ->
    let s := sorting analyzer in
    (exists i j, (i < j < num_units s)%nat /\ a = unit_ids s i /\ b = unit_ids s j)
    /\ (distinct_ids s -> a <> b).
Proof.
  intros Hgiven Hstage Hrun a b Hin s.
  destruct (merge_resolved _ _ _ _ _ Hgiven Hrun) as (st' & Hloop & -> & _).
  apply in_potential_merges in Hin as (i & j & Hi & Hj & Hm & Ha & Hb).
  assert (Hstrict : ((i <? j)%nat && (j <? num_units s)%nat) = true).
  { destruct Hstage as [Hc | [[Ht Hext] | [Hx Hp]]].
    - apply (run_steps_stage_post analyzer p given
               "correlogram" (fun i j => (i <? j)%nat && (j <? num_units s)%nat))
        with (remaining := given) (st := initial_locals) (st' := st'); try assumption.
      intros st0 st1 Hstep i0 j0. apply correlogram_stage_strict with (1 := Hc) (2 := Hstep).
    - apply (run_steps_stage_post analyzer p given
               "template_similarity" (fun i j => (i <? j)%nat && (j <? num_units s)%nat))
        with (remaining := given) (st := initial_locals) (st' := st'); try assumption.
      intros st0 st1 Hstep i0 j0.
      apply template_stage_strict with (1 := Ht) (2 := Hext) (3 := Hstep).
    - apply (run_steps_stage_post analyzer p given
               "cross_contamination" (fun i j => (i <? j)%nat && (j <? num_units s)%nat))
        with (remaining := given) (st := initial_locals) (st' := st'); try assumption.
      intros st0 st1 Hstep i0 j0.
      apply cross_contamination_stage_strict with (1 := Hx) (2 := Hp) (3 := Hstep). }
  apply andb_true_iff in Hstrict as [Hij Hjn].
  apply Nat.ltb_lt in Hij. apply Nat.ltb_lt in Hjn.
  split.
  - exists i, j. repeat split; (lia || assumption).
  - intros Hids Hab. subst a b.
    assert (i = j) by (apply Hids; assumption). lia.
Qed.

(** *** Stage lists that run to completion *)

Lemma run_step_returns (analyzer : Analyzer F U) p steps step st :
  In step steps ->
  In step ["min_spikes"; "remove_contaminated"; "unit_positions"; "template_similarity";
           "presence_distance"; "cross_contamination"; "check_increase_score"]%string ->
  (step = "template_similarity"%string -> ext_template_similarity analyzer <> None) ->
  (step = "check_increase_score"%string -> contaminations st <> None) ->
  exists st', step_of analyzer p steps step st = Ok st'.
Proof.
  intros Hin Hsafe Htemp Hscore. cbn [In] in Hsafe.
  destruct Hsafe as [<-|[<-|[<-|[<-|[<-|[<-|[<-|[]]]]]]]].
  - rewrite run_step_min_spikes. eexists. reflexivity.
  - rewrite run_step_remove_contaminated. eexists. reflexivity.
  - rewrite run_step_unit_positions by exact Hin. eexists. reflexivity.
  - rewrite run_step_template_similarity by exact Hin. cbn zeta.
    destruct (ext_template_similarity analyzer) as [sim|]; [|exfalso; apply Htemp; reflexivity].
    cbn [bind]. eexists. reflexivity.
  - rewrite run_step_presence_distance by exact Hin. eexists. reflexivity.
  - rewrite run_step_cross_contamination by exact Hin. cbn zeta.
    destruct (compute_cross_contaminations _ _ _ _). eexists. reflexivity.
  - rewrite run_step_check_increase_score by exact Hin.
    destruct (contaminations st) as [c|]; [|exfalso; apply Hscore; reflexivity].
    destruct (check_improve_contaminations_score _ _ _ _ _ _). eexists. reflexivity.
Qed.

Lemma run_step_contaminations_stay (analyzer : Analyzer F U) p steps step st st' :
  step_of analyzer p steps step st = Ok st' ->
  contaminations st <> None -> contaminations st' <> None.
Proof.
  intros Hrun Hc. destruct (String.eqb step "remove_contaminated") eqn:Hrc.
  - apply String.eqb_eq in Hrc. subst step.
    rewrite run_step_remove_contaminated in Hrun. cbn zeta in Hrun.
    inversion Hrun; subst st'. discriminate.
  - rewrite (run_step_keeps_contaminations _ _ _ _ _ _ _ _ _ Hrc Hrun). exact Hc.
Qed.

Lemma run_steps_return (analyzer : Analyzer F U) p steps remaining : forall st,
  incl remaining steps ->
  (forall step, In step remaining ->
     In step ["min_spikes"; "remove_contaminated"; "unit_positions"; "template_similarity";
              "presence_distance"; "cross_contamination"; "check_increase_score"]%string) ->
  (In "template_similarity"%string remaining -> ext_template_similarity analyzer <> None) ->
  (forall pre post, remaining = pre ++ "check_increase_score"%string :: post ->
     contaminations st <> None \/ In "remove_contaminated"%string pre) ->
  returned (outcome (steps_of analyzer p steps remaining st)) = true.
Proof.
  induction remaining as [|step rest IH]; intros st Hincl Hsafe Htemp Hscore;
    [reflexivity|].
  assert (Hvalid : existsb (String.eqb step) all_steps = true).
  { specialize (Hsafe step (or_introl eq_refl)). apply existsb_eqb_in.
    cbn [In] in Hsafe |- *. unfold all_steps. cbn [In]. tauto. }
  destruct (run_step_returns analyzer p steps step st) as [st1 Hstep].
  - apply Hincl. left. reflexivity.
  - apply Hsafe. left. reflexivity.
  - intros ->. apply Htemp. left. reflexivity.
  - intros ->. destruct (Hscore [] rest eq_refl) as [Hc|[]]. exact Hc.
  - cbn [run_steps]. rewrite Hvalid, Hstep. cbn [negb outcome].
    apply IH.
    + intros s Hs. apply Hincl. right. exact Hs.
    + intros s Hs. apply Hsafe. right. exact Hs.
    + intros Hin. apply Htemp. right. exact Hin.
    + intros pre post Heq.
      destruct (Hscore (step :: pre) post) as [Hc|Hrc]; [rewrite Heq; reflexivity| |].
      * left. eapply run_step_contaminations_stay; eassumption.
      * destruct Hrc as [Hrc|Hrc]; [|right; exact Hrc].
        left. rewrite Hrc in Hstep. rewrite run_step_remove_contaminated in Hstep. cbn zeta in Hstep.
        inversion Hstep; subst st1. discriminate.
Qed.

(** X6. The stage lists that run to completion whatever the data, the
    functions of the other modules taken to return: lists of [min_spikes],
    [remove_contaminated], [unit_positions], [presence_distance],
    [cross_contamination], of [template_similarity] when the similarity
    extension is computed, and of [check_increase_score] when a
    [remove_contaminated] comes before each of its occurrences.  The
    stages [correlogram] and [knn] are not of that kind: the first can end
    in an error of the window, the second in the error of a unit without
    spikes. *)
Theorem stage_lists_that_return (analyzer : Analyzer F U) (p : Params F) (given : list string) :
  (forall step, In step given ->
     In step ["min_spikes"; "remove_contaminated"; "unit_positions"; "template_similarity";
              "presence_distance"; "cross_contamination"; "check_increase_score"]%string) ->
  (In "template_similarity"%string given -> ext_template_similarity analyzer <> None) ->
  (forall pre post, given = pre ++ "check_increase_score"%string :: post ->
     In "remove_contaminated"%string pre) ->
  returned (merge analyzer (with_steps p (Some given))) = true.
Proof.
  intros Hsafe Htemp Hscore.
  unfold get_potential_auto_merge, get_potential_auto_merge_trace.
  change (resolve_steps (with_steps p (Some given))) with (Some given).
  cbn [outcome]. rewrite run_steps_with_steps.
  pose proof (run_steps_return analyzer p given given
                {| pair_mask := initial_pair_mask; contaminations := None; outs := [] |}
                (incl_refl _) Hsafe Htemp) as Hret.
  destruct (outcome (steps_of analyzer p given given _)) as [st'|e].
  - reflexivity.
  - apply Hret. intros pre post Heq. right. exact (Hscore pre post Heq).
Qed.

(** *** The order of the list *)

Lemma nonzero_nodup n (m : matrix bool) : NoDup (Np.nonzero n m).
Proof.
  unfold Np.nonzero.
  assert (Hrows : forall rows, NoDup rows ->
            NoDup (flat_map (fun i => map (pair i) (filter (m i) (seq 0 n))) rows)).
  { induction rows as [|i rows IH]; intros Hnd; [constructor|].
    inversion Hnd as [|? ? Hnotin Hrest]; subst. cbn [flat_map].
    apply NoDup_app; [| apply IH, Hrest |].
    - assert (Hcols : forall cols : list nat, NoDup cols -> NoDup (map (pair i) cols)).
      { induction cols as [|b cols IHc]; intros Hc; [constructor|].
        inversion Hc as [|? ? Hb Hcs]; subst. cbn [map]. constructor; [|apply IHc, Hcs].
        intros Hin. apply in_map_iff in Hin as (b' & Heq & Hb'). inversion Heq; subst b'.
        contradiction. }
      apply Hcols, NoDup_filter, seq_NoDup.
    - intros [a b] Hin1 Hin2.
      apply in_map_iff in Hin1 as (b0 & Heq & _). inversion Heq; subst a b0.
      apply in_flat_map in Hin2 as (i' & Hi' & Hin2).
      apply in_map_iff in Hin2 as (b1 & Heq' & _). inversion Heq'; subst i'.
      contradiction. }
  apply Hrows, seq_NoDup.
Qed.

(** X7. With distinct unit identifiers the returned list holds no pair
    twice. *)
Theorem returned_pairs_are_listed_once (analyzer : Analyzer F U) (p : Params F)
  (merges : list (U * U)) (diagnostics : option (list (string * diagnostic F U))) :
  distinct_ids (sorting analyzer) ->
  get_potential_auto_merge argsort gaussian_fftconvolve recursion_limit analyzer p
    = Ok (merges, diagnostics) ->
  NoDup merges.
Proof.
  intros Hids Hrun.
  unfold get_potential_auto_merge, get_potential_auto_merge_trace in Hrun.
  destruct (resolve_steps p) as [given|]; [|discriminate].
  cbn [outcome] in Hrun.
  destruct (outcome (run_steps _ _ _ _ _ _ _ _)) as [st'|e]; [|discriminate].
  cbn [bind] in Hrun. inversion Hrun; subst merges diagnostics; clear Hrun.
  unfold potential_merges.
  assert (Hgen : forall l : list (nat * nat), NoDup l ->
            (forall ind, In ind l -> (fst ind < num_units (sorting analyzer))%nat
                                     /\ (snd ind < num_units (sorting analyzer))%nat) ->
            NoDup (map (fun ind => (unit_ids (sorting analyzer) (fst ind),
                                    unit_ids (sorting analyzer) (snd ind))) l)).
  { induction l as [|ind l IH]; intros Hnd Hlt; [constructor|].
    inversion Hnd as [|? ? Hnotin Hrest]; subst. cbn [map]. constructor.
    - intros Hin. apply in_map_iff in Hin as (ind' & Heq & Hin'). apply Hnotin.
      destruct (Hlt ind (or_introl eq_refl)) as [H1 H2].
      destruct (Hlt ind' (or_intror Hin')) as [H1' H2'].
      inversion Heq as [[Ha Hb]].
      apply Hids in Ha; try assumption. apply Hids in Hb; try assumption.
      destruct ind, ind'. cbn [fst snd] in *. subst. exact Hin'.
    - apply IH; [exact Hrest|]. intros ind' Hin'. apply Hlt. right. exact Hin'. }
  apply Hgen; [apply nonzero_nodup|].
  intros [a b] Hin. apply in_nonzero in Hin. cbn [fst snd]. tauto.
Qed.

(** *** The dictionary [outs] *)

Lemma dict_get_set_same (d : list (string * diagnostic F U)) key value :
  dict_get (dict_set d key value) key = Some value.
Proof.
  unfold dict_get. induction d as [|[k v] d IH]; cbn [dict_set find fst].
  - rewrite String.eqb_refl. reflexivity.
  - destruct (String.eqb k key) eqn:Hk; cbn [find fst]; rewrite Hk; [reflexivity | exact IH].
Qed.

Lemma dict_get_set_other (d : list (string * diagnostic F U)) key value other :
  other <> key -> dict_get (dict_set d key value) other = dict_get d other.
Proof.
  intros Hne. unfold dict_get. induction d as [|[k v] d IH]; cbn [dict_set find fst].
  - destruct (String.eqb key other) eqn:Hk; [|reflexivity].
    apply String.eqb_eq in Hk. congruence.
  - destruct (String.eqb k key) eqn:Hk; cbn [find fst].
    + apply String.eqb_eq in Hk. subst k.
      destruct (String.eqb key other) eqn:Hko; [|reflexivity].
      apply String.eqb_eq in Hko. congruence.
    + destruct (String.eqb k other); [reflexivity | exact IH].
Qed.

Lemma dict_set_keys (d : list (string * diagnostic F U)) key value other :
  dict_get (dict_set d key value) other <> None <-> dict_get d other <> None \/ other = key.
Proof.
  destruct (string_dec other key) as [->|Hne].
  - rewrite dict_get_set_same. split; [intros _; right; reflexivity | discriminate].
  - rewrite dict_get_set_other by exact Hne. tauto.
Qed.

Lemma assign_keys kvs : forall (d : list (string * diagnostic F U)) other,
  dict_get (assign d kvs) other <> None <-> dict_get d other <> None \/ In other (map fst kvs).
Proof.
  induction kvs as [|[k v] kvs IH]; intros d other; cbn [assign fold_left map In fst snd].
  - tauto.
  - fold (assign (dict_set d k v) kvs). rewrite IH, dict_set_keys.
    split; intros Hor; [destruct Hor as [[Hd| ->]|Hin] | destruct Hor as [Hd|[<-|Hin]]]; tauto.
Qed.

Lemma assign_get_other kvs : forall (d : list (string * diagnostic F U)) other,
  ~ In other (map fst kvs) -> dict_get (assign d kvs) other = dict_get d other.
Proof.
  induction kvs as [|[k v] kvs IH]; intros d other Hnot; cbn [assign fold_left fst snd].
  - reflexivity.
  - fold (assign (dict_set d k v) kvs). cbn [map In fst] in Hnot.
    rewrite IH by tauto. apply dict_get_set_other. intros ->. tauto.
Qed.

(** What a stage that completes assigns to [outs]. *)
Lemma run_step_assigns (analyzer : Analyzer F U) p steps step st st' :
  In step steps ->
  step_of analyzer p steps step st = Ok st' ->
  exists kvs, outs st' = assign (outs st) kvs
              /\ map fst kvs = stage_keys step
              /\ (step = "unit_positions"%string ->
                  kvs = [("unit_distances"%string,
                          Distances U (fun i j => euclidean (unit_locations analyzer p i)
                                                            (unit_locations analyzer p j)))]).
Proof.
  intros Hin Hrun.
  destruct (existsb (String.eqb step) all_steps) eqn:Hvalid.
  - apply valid_step_cases in Hvalid.
    destruct Hvalid as [->|[->|[->|[->|[->|[->|[->|[->| ->]]]]]]]].
    + rewrite run_step_min_spikes in Hrun. cbn zeta in Hrun. inversion Hrun; subst st'.
      exists []. repeat split. discriminate.
    + rewrite run_step_remove_contaminated in Hrun. cbn zeta in Hrun. inversion Hrun; subst st'.
      exists []. repeat split. discriminate.
    + rewrite run_step_unit_positions in Hrun by exact Hin. cbn zeta in Hrun.
      inversion Hrun; subst st'. eexists [(_, _)]. repeat split.
    + rewrite run_step_correlogram in Hrun by exact Hin. cbn zeta in Hrun.
      destruct (window_sizes _ _ _ _) as [ws|e]; cbn [bind] in Hrun; [|discriminate].
      destruct (compute_correlogram_diff _ _ _ _ _) as [D|e]; cbn [bind] in Hrun; [|discriminate].
      inversion Hrun; subst st'. eexists [(_, _); (_, _); (_, _); (_, _); (_, _)].
      split; [reflexivity|]. split; [reflexivity | discriminate].
    + rewrite run_step_template_similarity in Hrun by exact Hin. cbn zeta in Hrun.
      destruct (match ext_template_similarity analyzer with Some _ => _ | None => _ end)
        as [D|e]; cbn [bind] in Hrun; [|discriminate].
      inversion Hrun; subst st'. eexists [(_, _)].
      split; [reflexivity|]. split; [reflexivity | discriminate].
    + rewrite run_step_presence_distance in Hrun by exact Hin. cbn zeta in Hrun.
      inversion Hrun; subst st'. eexists [(_, _)].
      split; [reflexivity|]. split; [reflexivity | discriminate].
    + rewrite run_step_knn in Hrun by exact Hin.
      destruct (get_pairs_via_nntree _ _ _ _) as [m|e]; cbn [bind] in Hrun; [|discriminate].
      inversion Hrun; subst st'. exists []. repeat split. discriminate.
    + rewrite run_step_cross_contamination in Hrun by exact Hin. cbn zeta in Hrun.
      destruct (compute_cross_contaminations _ _ _ _) as [CC pv].
      inversion Hrun; subst st'. eexists [(_, _)].
      split; [reflexivity|]. split; [reflexivity | discriminate].
    + rewrite run_step_check_increase_score in Hrun by exact Hin.
      destruct (contaminations st) as [c|]; [|discriminate].
      destruct (check_improve_contaminations_score _ _ _ _ _ _) as [m l].
      inversion Hrun; subst st'. eexists [(_, _)].
      split; [reflexivity|]. split; [reflexivity | discriminate].
  - assert (Hno : forall name, In name all_steps -> String.eqb step name = false).
    { intros name Hname. destruct (String.eqb step name) eqn:Heq; [|reflexivity].
      apply String.eqb_eq in Heq. subst name.
      rewrite (existsb_eqb_in _ _ Hname) in Hvalid. discriminate. }
    unfold run_step, step_is in Hrun.
    rewrite !Hno in Hrun by (cbn; tauto). cbn [andb] in Hrun.
    inversion Hrun; subst st'. exists []. split; [reflexivity|]. split.
    + unfold stage_keys. rewrite !Hno by (cbn; tauto). reflexivity.
    + intros ->. specialize (Hno "unit_positions"%string). cbn in Hno.
      assert (true = false) by (apply Hno; tauto). discriminate.
Qed.

Lemma run_steps_keys (analyzer : Analyzer F U) p steps remaining : forall st st',
  incl remaining steps ->
  outcome (steps_of analyzer p steps remaining st) = Ok st' ->
  forall key, dict_get (outs st') key <> None
              <-> dict_get (outs st) key <> None
                  \/ exists step, In step remaining /\ In key (stage_keys step).
Proof.
  induction remaining as [|step rest IH]; intros st st' Hincl Hrun key.
  - cbn in Hrun. inversion Hrun; subst. split; [tauto|].
    intros [Hd|(step & [] & _)]. exact Hd.
  - apply run_steps_cons in Hrun as (_ & st1 & Hstep & Hrest).
    assert (Hin : In step steps) by (apply Hincl; left; reflexivity).
    destruct (run_step_assigns analyzer p steps step st st1 Hin Hstep) as (kvs & Houts & Hkeys & _).
    rewrite (IH st1 st') by (try assumption; intros s Hs; apply Hincl; right; exact Hs).
    rewrite Houts, assign_keys, Hkeys. split.
    + intros [[Hd|Hk]|(s & Hs & Hk)].
      * left. exact Hd.
      * right. exists step. split; [left; reflexivity | exact Hk].
      * right. exists s. split; [right; exact Hs | exact Hk].
    + intros [Hd|(s & [<-|Hs] & Hk)].
      * left. left. exact Hd.
      * left. right. exact Hk.
      * right. exists s. tauto.
Qed.

Lemma stage_keys_unit_distances (step : string) :
  In "unit_distances"%string (stage_keys step) -> step = "unit_positions"%string.
Proof.
  unfold stage_keys.
  destruct (String.eqb step "unit_positions") eqn:Hup; [intros _; apply String.eqb_eq, Hup|].
  clear Hup.
  destruct (String.eqb step "correlogram"), (String.eqb step "template_similarity"),
    (String.eqb step "presence_distance"), (String.eqb step "cross_contamination"),
    (String.eqb step "check_increase_score");
    cbn [In]; intros Hin;
    repeat (destruct Hin as [Hin|Hin]; [discriminate|]); destruct Hin.
Qed.

Lemma run_steps_unit_distances (analyzer : Analyzer F U) p steps remaining : forall st st',
  incl remaining steps ->
  outcome (steps_of analyzer p steps remaining st) = Ok st' ->
  let value := Distances U (fun i j => euclidean (unit_locations analyzer p i)
                                                 (unit_locations analyzer p j)) in
  (dict_get (outs st) "unit_distances" = Some value \/ In "unit_positions"%string remaining) ->
  dict_get (outs st') "unit_distances" = Some value.
Proof.
  induction remaining as [|step rest IH]; intros st st' Hincl Hrun value Hor.
  - cbn in Hrun. inversion Hrun; subst. destruct Hor as [Hd|[]]. exact Hd.
  - apply run_steps_cons in Hrun as (_ & st1 & Hstep & Hrest).
    assert (Hin : In step steps) by (apply Hincl; left; reflexivity).
    destruct (run_step_assigns analyzer p steps step st st1 Hin Hstep)
      as (kvs & Houts & Hkeys & Hup).
    apply (IH st1 st'); [intros s Hs; apply Hincl; right; exact Hs | exact Hrest|].
    destruct (string_dec step "unit_positions") as [Heq|Hne].
    + left. rewrite Houts, (Hup Heq). cbn [assign fold_left fst snd].
      apply dict_get_set_same.
    + destruct Hor as [Hd|[Heq|Hlater]]; [|congruence|right; exact Hlater].
      left. rewrite Houts, assign_get_other; [exact Hd|].
      rewrite Hkeys. intros Hk. apply Hne, stage_keys_unit_distances, Hk.
Qed.

(** X8. The dictionary [outs]: it is returned exactly when
    [extra_outputs] is set; its keys are the keys assigned by the stages
    of the list, and no other; and under [unit_distances] it holds the
    Euclidean distances between the unit locations. *)
Theorem diagnostics_keys (analyzer : Analyzer F U) (p : Params F)
  (given : list string) (merges : list (U * U))
  (diagnostics : option (list (string * diagnostic F U))) :
  resolve_steps p = Some given ->
  merge analyzer p = Ok (merges, diagnostics) ->
  (extra_outputs p = false -> diagnostics = None)
  /\ (extra_outputs p = true ->
      exists outs, diagnostics = Some outs
        /\ (forall key, dict_get outs key <> None
                        <-> exists step, In step given /\ In key (stage_keys step))
        /\ (In "unit_positions"%string given ->
            dict_get outs "unit_distances"
            = Some (Distances U (fun i j => euclidean (unit_locations analyzer p i)
                                                      (unit_locations analyzer p j))))).
Proof.
  intros Hgiven Hrun.
  destruct (merge_resolved _ _ _ _ _ Hgiven Hrun) as (st' & Hloop & _ & ->).
  split; intros Hflag; rewrite Hflag; [reflexivity|].
  exists (outs st'). split; [reflexivity|]. split.
  - intros key.
    rewrite (run_steps_keys analyzer p given given initial_locals st' (incl_refl _) Hloop key).
    cbn [initial_locals outs dict_get find option_map]. split.
    + intros [Hd|Hex]; [congruence | exact Hex].
    + intros Hex. right. exact Hex.
  - intros Hup.
    apply (run_steps_unit_distances analyzer p given given initial_locals st' (incl_refl _) Hloop).
    right. exact Hup.
Qed.

(** *** Presets *)

(** X9. [preset] is read when [steps] is [None], and only then: with
    [steps] given the call does not depend on [preset]; with [steps=None]
    and a preset other than [temporal_splits], [lussac] and [knn] the
    loop iterates over [None] and the call ends in [TypeError]. *)
Theorem preset_is_read_without_steps (analyzer : Analyzer F U) (p : Params F) :
  (forall given other, steps p = Some given ->
     merge analyzer (with_preset p other) = merge analyzer p)
  /\ (forall name, steps p = None -> preset p = Some name ->
        ~ In name ["temporal_splits"; "lussac"; "knn"]%string ->
        merge analyzer p = Raise (TypeError "'NoneType' object is not iterable")).
Proof.
  split.
  - intros given other Hsteps.
    unfold get_potential_auto_merge, get_potential_auto_merge_trace.
    assert (Hres : resolve_steps (with_preset p other) = resolve_steps p).
    { unfold resolve_steps. cbn [with_preset steps]. rewrite Hsteps. reflexivity. }
    rewrite Hres. destruct (resolve_steps p) as [l|]; [|reflexivity].
    cbn [outcome].
    assert (Hloop : forall remaining st,
              steps_of analyzer (with_preset p other) l remaining st
              = steps_of analyzer p l remaining st).
    { induction remaining as [|step rest IH]; intros st; [reflexivity|].
      cbn [run_steps].
      change (step_of analyzer (with_preset p other) l step st)
        with (step_of analyzer p l step st).
      destruct (negb _); [reflexivity|].
      destruct (step_of analyzer p l step st) as [st1|e]; [|reflexivity].
      rewrite IH. reflexivity. }
    rewrite Hloop. reflexivity.
  - intros name Hsteps Hpreset Hname.
    unfold get_potential_auto_merge, get_potential_auto_merge_trace, resolve_steps.
    rewrite Hsteps, Hpreset. unfold preset_steps.
    cbn [In] in Hname.
    destruct (String.eqb name "temporal_splits") eqn:H1;
      [apply String.eqb_eq in H1; symmetry in H1; exfalso; tauto|].
    destruct (String.eqb name "lussac") eqn:H2;
      [apply String.eqb_eq in H2; symmetry in H2; exfalso; tauto|].
    destruct (String.eqb name "knn") eqn:H3;
      [apply String.eqb_eq in H3; symmetry in H3; exfalso; tauto|].
    reflexivity.
Qed.

(** X10. With the same other arguments, every pair the preset
    [temporal_splits] returns is returned by the default preset. *)
Theorem temporal_splits_refines_default (analyzer : Analyzer F U) (p : Params F)
  (merges_default merges_temporal : list (U * U))
  (diagnostics_default diagnostics_temporal : option (list (string * diagnostic F U))) :
  steps p = None ->
  merge analyzer (with_preset p None) = Ok (merges_default, diagnostics_default) ->
  merge analyzer (with_preset p (Some "temporal_splits"%string))
    = Ok (merges_temporal, diagnostics_temporal) ->
  incl merges_temporal merges_default.
Proof.
  intros Hsteps Hdefault Htemporal.
  assert (Hres : forall name, resolve_steps (with_preset p name) = preset_steps name).
  { intros name. unfold resolve_steps. cbn [with_preset steps preset]. rewrite Hsteps.
    reflexivity. }
  destruct (merge_resolved analyzer
              (with_preset p None) _ _ _ (Hres None) Hdefault) as (st1 & Hrun1 & -> & _).
  destruct (merge_resolved analyzer
              (with_preset p (Some "temporal_splits"%string)) _ _ _
              (Hres (Some "temporal_splits"%string)) Htemporal) as (st2 & Hrun2 & -> & _).
  rewrite run_steps_with_preset in Hrun1, Hrun2.
  apply potential_merges_incl. intros i j _ _.
  apply (loops_incl analyzer p _ _ st1 st2) with (3 := Hrun1) (4 := Hrun2).
  - intros s Hs. cbn [In] in Hs |- *. tauto.
  - cbn [In]. intros Hin.
    repeat (destruct Hin as [Hin|Hin]; [discriminate|]). exact Hin.
Qed.

(** ** The functions on their own *)


Lemma unique_counts_single (n : nat) (values : list nat) :
  (forall x y, In x values -> In y values -> x = y) ->
  (length (unique_counts n values) <= 1)%nat.
Proof.
  intros Hsame. unfold unique_counts. rewrite length_map.
  assert (Hgen : forall l, NoDup l ->
            (length (filter (fun u => existsb (Nat.eqb u) values) l) <= 1)%nat).
  { intros l Hnd.
    assert (Hnd' : NoDup (filter (fun u => existsb (Nat.eqb u) values) l))
      by (apply NoDup_filter, Hnd).
    assert (Hall : forall u v, In u (filter (fun u => existsb (Nat.eqb u) values) l) ->
              In v (filter (fun u => existsb (Nat.eqb u) values) l) -> u = v).
    { intros u v Hu Hv. apply filter_In in Hu as [_ Hu]. apply filter_In in Hv as [_ Hv].
      apply existsb_exists in Hu as (x & Hx & Hux). apply existsb_exists in Hv as (y & Hy & Hvy).
      apply Nat.eqb_eq in Hux. apply Nat.eqb_eq in Hvy. subst x y. apply Hsame; assumption. }
    destruct (filter _ l) as [|u [|v rest]]; cbn [length]; try lia.
    exfalso. inversion Hnd' as [|? ? Hnotin _]; subst. apply Hnotin.
    rewrite (Hall u v); [left; reflexivity | left; reflexivity | right; left; reflexivity]. }
  apply Hgen, seq_NoDup.
Qed.

(** X12. A unit whose spikes have all their nearest neighbours in one
    unit (itself, for a well isolated unit) loses its whole row in
    [get_pairs_via_nntree]: [best_indices] drops the only unit found. *)
Theorem nntree_isolated_unit (analyzer : Analyzer F U) (k_nn : nat)
  (pair_mask : option (matrix bool)) (kneighbors : nat -> nat -> list nat)
  (mask' : matrix bool) (unit_ind : nat) :
  (forall x, length (argsort x) = length x) ->
  ext_spike_neighbours analyzer = Some kneighbors ->
  get_pairs_via_nntree argsort analyzer k_nn pair_mask = Ok mask' ->
  (unit_ind < num_units (sorting analyzer))%nat ->
  (forall x y, In x (kneighbors k_nn unit_ind) -> In y (kneighbors k_nn unit_ind) -> x = y) ->
  forall b, mask' unit_ind b = false.
Proof.
  intros Hlen Hext Hrun Hlt Hsame b.
  rewrite (nntree_entries analyzer k_nn pair_mask kneighbors mask' Hext Hrun).
  replace (unit_ind <? num_units (sorting analyzer))%nat with true
    by (symmetry; apply Nat.ltb_lt; exact Hlt).
  cbn [implb].
  assert (Hnone : kept_neighbours argsort analyzer kneighbors k_nn unit_ind = []).
  { unfold kept_neighbours.
    pose proof (unique_counts_single (num_units (sorting analyzer))
                  (kneighbors k_nn unit_ind) Hsame) as Hle.
    set (found := unique_counts _ _) in *.
    assert (Hrev : (length (rev (argsort (map (fun uc => of_nat (snd uc)) found))) <= 1)%nat)
      by (rewrite length_rev, Hlen, length_map; exact Hle).
    destruct (rev _) as [|x [|y rest]]; cbn [length] in Hrev; try lia; reflexivity. }
  rewrite Hnone. cbn [existsb]. apply andb_false_r.
Qed.

(** X13. [compute_cross_contaminations] entry by entry: at a candidate
    pair above the diagonal both arrays hold the estimate, stored as
    [float32]; every other entry is zero. *)
Theorem cross_contaminations_entries (analyzer : Analyzer F U)
  (pair_mask : option (matrix bool)) (CC_threshold : F) (refractory_period : F * F)
  (i j : nat) :
  let n := num_units (sorting analyzer) in
  let res := compute_cross_contaminations analyzer pair_mask CC_threshold refractory_period in
  let visited := (i <? j)%nat && (j <? n)%nat && mask_or_ones pair_mask i j in
  let estimate := estimate_cross_contamination analyzer i j refractory_period CC_threshold in
  fst res i j = (if visited then f32 (fst estimate) else f32 zero)
  /\ snd res i j = (if visited then f32 (snd estimate) else f32 zero).
Proof. apply cross_contaminations_visited. Qed.

Lemma compute_correlogram_diff_any_mask n num_spikes (c : tensor F) win_sizes pair_mask :
  compute_correlogram_diff n num_spikes c win_sizes pair_mask
  = pair_loop n (mask_or_ones pair_mask) (correlogram_pair_diff num_spikes c win_sizes).
Proof. destruct pair_mask; reflexivity. Qed.

Lemma compute_templates_diff_any_mask n (T : templates F) num_channels num_shift pair_mask
  metric sparsity :
  existsb (String.eqb metric) ["l1"; "l2"; "cosine"]%string = true ->
  compute_templates_diff argsort n T num_channels num_shift pair_mask metric sparsity
  = pair_loop n (mask_or_ones pair_mask)
      (template_pair_diff argsort T num_channels num_shift metric
         (adaptative_masks_of num_channels sparsity) (sparsity_mask_of sparsity)).
Proof.
  intros Hmetric. unfold compute_templates_diff. rewrite Hmetric.
  destruct sparsity, pair_mask; reflexivity.
Qed.

Lemma pair_loop_filled n (mask : matrix bool) (body : nat -> nat -> result F) D i j :
  pair_loop n mask body = Ok D ->
  (D i j <> None <-> (i < j < n)%nat /\ mask i j = true).
Proof.
  intros Hrun. split.
  - intros Hsome. rewrite (pair_loop_entries n mask body D Hrun i j) in Hsome.
    destruct (i <? j)%nat eqn:Hij; [|exfalso; apply Hsome; reflexivity].
    destruct (j <? n)%nat eqn:Hjn; [|exfalso; apply Hsome; reflexivity].
    destruct (mask i j); [|exfalso; apply Hsome; reflexivity].
    apply Nat.ltb_lt in Hij. apply Nat.ltb_lt in Hjn. split; [lia | reflexivity].
  - intros [Hij Hm].
    destruct (pair_loop_entry n mask body D i j Hrun Hij Hm) as (d & _ & HD).
    rewrite HD. discriminate.
Qed.

(** X14. [compute_correlogram_diff] and [compute_templates_diff] assign
    the entry of a pair exactly when the pair lies above the diagonal and
    is a candidate; every other entry keeps the nan the array is filled
    with. *)
Theorem difference_arrays_are_filled_at_candidates (n : nat) (pair_mask : option (matrix bool)) :
  (forall num_spikes (c : tensor F) win_sizes D,
     compute_correlogram_diff n num_spikes c win_sizes pair_mask = Ok D ->
     forall i j, D i j <> None <-> (i < j < n)%nat /\ mask_or_ones pair_mask i j = true)
  /\ (forall (T : templates F) num_channels num_shift metric sparsity D,
        compute_templates_diff argsort n T num_channels num_shift pair_mask metric sparsity
          = Ok D ->
        forall i j, D i j <> None <-> (i < j < n)%nat /\ mask_or_ones pair_mask i j = true).
Proof.
  split.
  - intros num_spikes c win_sizes D Hrun i j.
    rewrite compute_correlogram_diff_any_mask in Hrun.
    apply (pair_loop_filled _ _ _ _ _ _ Hrun).
  - intros T num_channels num_shift metric sparsity D Hrun i j.
    pose proof (compute_templates_diff_metric _ _ _ _ _ _ _ _ _ Hrun) as Hmetric.
    rewrite (compute_templates_diff_any_mask _ _ _ _ _ _ _ Hmetric) in Hrun.
    apply (pair_loop_filled _ _ _ _ _ _ Hrun).
Qed.

Lemma nonzero_and n (m : matrix bool) (q : nat -> nat -> bool) :
  Np.nonzero n (fun i j => m i j && q i j)
  = filter (fun ind => q (fst ind) (snd ind)) (Np.nonzero n m).
Proof.
  unfold Np.nonzero. generalize (seq 0 n) at 2 4. intros rows.
  induction rows as [|i rows IH]; [reflexivity|].
  cbn [flat_map]. rewrite filter_app, IH. f_equal.
  generalize (seq 0 n). intros cols.
  induction cols as [|j cols IHc]; [reflexivity|]. cbn [filter].
  destruct (m i j) eqn:Hm; cbn [andb map filter fst snd].
  - destruct (q i j); cbn [map]; rewrite IHc; reflexivity.
  - exact IHc.
Qed.

Lemma filter_split_length {A} (f : A -> bool) (l : list A) :
  (length (filter f l) + length (filter (fun x => negb (f x)) l) = length l)%nat.
Proof.
  induction l as [|x l IH]; [reflexivity|]. cbn [filter].
  destruct (f x); cbn [negb length]; lia.
Qed.

Lemma nonzero_ext n (m m' : matrix bool) :
  (forall i j, (i < n)%nat -> (j < n)%nat -> m i j = m' i j) ->
  Np.nonzero n m = Np.nonzero n m'.
Proof.
  intros Heq. unfold Np.nonzero.
  assert (Hrows : forall rows, (forall i, In i rows -> (i < n)%nat) ->
            flat_map (fun i => map (pair i) (filter (m i) (seq 0 n))) rows
            = flat_map (fun i => map (pair i) (filter (m' i) (seq 0 n))) rows).
  { induction rows as [|i rows IH]; intros Hlt; [reflexivity|]. cbn [flat_map].
    rewrite IH by (intros k Hk; apply Hlt; right; exact Hk). f_equal. f_equal.
    apply filter_ext_in. intros j Hj. apply in_seq in Hj.
    apply Heq; [apply Hlt; left; reflexivity | lia]. }
  apply Hrows. intros i Hi. apply in_seq in Hi. lia.
Qed.

(** X17. [check_improve_contaminations_score] lists every pair it
    clears once: the length of the list and the number of True entries it
    returns add up to the number of True entries it was given, and every
    listed pair was a candidate. *)
Theorem rejected_pairs_are_counted (analyzer : Analyzer F U) (mask : matrix bool)
  (contaminations : nat -> F) (k r c : F) :
  let n := num_units (sorting analyzer) in
  let res := check_improve_contaminations_score analyzer mask contaminations k r c in
  (length (snd res) + count_true n (fst res) = count_true n mask)%nat
  /\ incl (snd res) (potential_merges (sorting analyzer) mask).
Proof.
  cbn zeta.
  destruct (check_improve_entries analyzer mask contaminations k r c) as [Hm Hl].
  cbn zeta in Hm, Hl. split.
  - rewrite Hl, length_map. unfold count_true.
    rewrite (nonzero_ext _ (fst (check_improve_contaminations_score analyzer mask
                                   contaminations k r c))
               (fun i j => mask i j
                           && negb (score_decreases analyzer contaminations k r c i j))).
    + rewrite nonzero_and. cbv beta. apply filter_split_length.
    + intros i j Hi Hj. rewrite Hm.
      apply Nat.ltb_lt in Hi. apply Nat.ltb_lt in Hj. rewrite Hi, Hj. reflexivity.
  - rewrite Hl. unfold potential_merges. intros pair Hin.
    apply in_map_iff in Hin as (ind & Heq & Hin). apply filter_In in Hin as [Hin _].
    apply in_map_iff. exists ind. split; [exact Heq | exact Hin].
Qed.

(** X18. [check_improve_contaminations_score] applied to the matrix it
    returned clears nothing more and lists nothing. *)
Theorem validator_is_idempotent (analyzer : Analyzer F U) (mask : matrix bool)
  (contaminations : nat -> F) (k r c : F) :
  let n := num_units (sorting analyzer) in
  let once := check_improve_contaminations_score analyzer mask contaminations k r c in
  let twice := check_improve_contaminations_score analyzer (fst once) contaminations k r c in
  (forall i j, fst twice i j = fst once i j) /\ snd twice = [].
Proof.
  cbn zeta.
  destruct (check_improve_entries analyzer mask contaminations k r c) as [Hm1 _].
  destruct (check_improve_entries analyzer
              (fst (check_improve_contaminations_score analyzer mask contaminations k r c))
              contaminations k r c) as [Hm2 Hl2].
  cbn zeta in Hm1, Hm2, Hl2. split.
  - intros i j. rewrite Hm2, Hm1.
    destruct (mask i j), (negb _); reflexivity.
  - rewrite Hl2.
    assert (Hnone : forall l : list (nat * nat),
              (forall ind, In ind l ->
                 score_decreases analyzer contaminations k r c (fst ind) (snd ind) = false) ->
              filter (fun ind => score_decreases analyzer contaminations k r c
                                   (fst ind) (snd ind)) l = []).
    { induction l as [|ind l IH]; intros Hall; [reflexivity|]. cbn [filter].
      rewrite (Hall ind (or_introl eq_refl)). apply IH.
      intros ind' Hin. apply Hall. right. exact Hin. }
    rewrite Hnone; [reflexivity|].
    intros [i j] Hin. apply in_nonzero in Hin as (Hi & Hj & Hij). cbn [fst snd].
    rewrite Hm1 in Hij. apply andb_true_iff in Hij as [_ Hij].
    apply Nat.ltb_lt in Hi. apply Nat.ltb_lt in Hj. rewrite Hi, Hj in Hij. cbn [andb] in Hij.
    apply negb_true_iff in Hij. exact Hij.
Qed.

End Stages.

(** ** The correlogram difference out of bounds *)

Section Bounds.
Context {F : Type} `{Number F}.

Lemma map_result_raises {A B} (f : A -> result B) (l : list A) (x : A) :
  In x l -> returned (f x) = false -> returned (map_result f l) = false.
Proof.
  induction l as [|y l IH]; intros Hin Hx; [destruct Hin|]. cbn [map_result].
  destruct Hin as [->|Hin].
  - destruct (f x); [discriminate | reflexivity].
  - destruct (f y); [|reflexivity]. cbn [bind].
    specialize (IH Hin Hx). destruct (map_result f l); [discriminate | reflexivity].
Qed.

Lemma getitem_beyond {A} (a : list A) (k : Z) :
  (Z.of_nat (length a) <= k)%Z -> Np.getitem a k = Raise IndexError.
Proof.
  intros Hk. unfold Np.getitem.
  replace (k <? 0)%Z with false by (symmetry; apply Z.ltb_ge; lia).
  replace (k <? Z.of_nat (length a))%Z with false by (symmetry; apply Z.ltb_ge; lia).
  rewrite andb_false_r. reflexivity.
Qed.

Lemma pair_loop_raises n (mask : matrix bool) (body : nat -> nat -> result F) i j :
  (i < j < n)%nat -> mask i j = true -> returned (body i j) = false ->
  returned (pair_loop n mask body) = false.
Proof.
  intros Hij Hm Hbody. destruct (pair_loop n mask body) as [D|e] eqn:Hrun; [|reflexivity].
  destruct (pair_loop_entry n mask body D i j Hrun Hij Hm) as (d & Hd & _).
  rewrite Hd in Hbody. discriminate.
Qed.

(** X15. When the rounded window of a candidate pair reaches beyond the
    last bin of the correlogram, the index raises [IndexError] and
    [compute_correlogram_diff] does not return. *)
Theorem window_beyond_correlogram (n : nat) (num_spikes : nat -> Z) (c : tensor F)
  (win_sizes : nat -> Z) (pair_mask : option (matrix bool)) (i j : nat) (w : Z) :
  (i < j < n)%nat ->
  mask_or_ones pair_mask i j = true ->
  int_round (weighted_window num_spikes win_sizes i j) = Some w ->
  length (corr c i j) = num_bins c ->
  (Z.of_nat (num_bins c) < Z.of_nat (num_bins c / 2) + w)%Z ->
  correlogram_pair_diff num_spikes c win_sizes i j = Raise IndexError
  /\ returned (compute_correlogram_diff n num_spikes c win_sizes pair_mask) = false.
Proof.
  intros Hij Hm Hw Hlen Hbeyond.
  assert (Hbody : correlogram_pair_diff num_spikes c win_sizes i j = Raise IndexError).
  { unfold correlogram_pair_diff, py_int_round.
    fold (weighted_window num_spikes win_sizes i j). rewrite Hw. cbn [bind].
    set (m := Z.of_nat (num_bins c / 2)) in *.
    assert (Hm_le : (m <= Z.of_nat (num_bins c))%Z).
    { subst m. apply Nat2Z.inj_le. apply Nat.Div0.div_le_upper_bound. lia. }
    assert (Hshift : map (fun k => (k - 0)%Z) (Np.arange (m - w) (m + w))
                     = Np.arange (m - w) (m + w)).
    { rewrite <- (map_id (Np.arange (m - w) (m + w))) at 2.
      apply map_ext. intros k. apply Z.sub_0_r. }
    rewrite Hshift.
    assert (Htake : Np.take (normalize_correlogram (corr c i j)) (Np.arange (m - w) (m + w))
                    = Raise IndexError).
    { unfold Np.take, Np.arange.
      set (row := normalize_correlogram (corr c i j)).
      assert (Hrow : length row = num_bins c)
        by (subst row; rewrite normalize_correlogram_length; exact Hlen).
      assert (Hcases : forall k, returned (Np.getitem row k) = true
                                 \/ Np.getitem row k = Raise IndexError).
      { intros k. unfold Np.getitem.
        destruct ((0 <=? _)%Z && (_ <? _)%Z); [|right; reflexivity].
        destruct (nth_error row _); [left; reflexivity | right; reflexivity]. }
      assert (Hgen : forall ks, (exists k, In k ks /\ (Z.of_nat (length row) <= k)%Z) ->
                map_result (Np.getitem row) ks = Raise IndexError).
      { induction ks as [|k ks IH]; intros (k0 & Hin & Hk0); [destruct Hin|].
        cbn [map_result]. destruct (Hcases k) as [Hok|Hraise]; [|rewrite Hraise; reflexivity].
        destruct (Np.getitem row k) as [v|e] eqn:Hget; [|discriminate]. cbn [bind].
        destruct Hin as [->|Hin].
        - rewrite (getitem_beyond row k0 Hk0) in Hget. discriminate.
        - rewrite IH; [reflexivity | exists k0; tauto]. }
      apply Hgen. exists (m + w - 1)%Z. split; [|lia].
      apply in_map_iff. exists (Z.to_nat (2 * w - 1)). split; [lia|].
      apply in_seq. lia. }
    rewrite Htake. reflexivity. }
  split; [exact Hbody|].
  rewrite compute_correlogram_diff_any_mask. apply pair_loop_raises with (i := i) (j := j);
    try assumption. rewrite Hbody. reflexivity.
Qed.

End Bounds.

(** X16. For a candidate pair of two units without any spike the
    weighted window is [0 / 0]: [round] gets a nan, raises [ValueError],
    and [compute_correlogram_diff] does not return. *)
Theorem silent_pair_has_no_window (n : nat) (num_spikes : nat -> Z) (c : tensor float)
  (win_sizes : nat -> Z) (pair_mask : option (matrix bool)) (i j : nat) :
  (i < j < n)%nat ->
  mask_or_ones pair_mask i j = true ->
  num_spikes i = 0%Z -> num_spikes j = 0%Z ->
  correlogram_pair_diff num_spikes c win_sizes i j
    = Raise (ValueError "cannot convert float NaN to integer")
  /\ returned (compute_correlogram_diff n num_spikes c win_sizes pair_mask) = false.
Proof.
  intros Hij Hm Hi Hj.
  assert (Hbody : correlogram_pair_diff num_spikes c win_sizes i j
                  = Raise (ValueError "cannot convert float NaN to integer")).
  { unfold correlogram_pair_diff. rewrite Hi, Hj. reflexivity. }
  split; [exact Hbody|].
  rewrite compute_correlogram_diff_any_mask. apply pair_loop_raises with (i := i) (j := j);
    try assumption. rewrite Hbody. reflexivity.
Qed.

(** ** The adaptive window, again *)

Section Peaks.
Context {F : Type} `{Number F}.

Lemma plateau_end_ge (x : list F) (xi : F) (i_max fuel : nat) : forall i_ahead,
  (i_ahead <= Scipy.plateau_end x xi i_max fuel i_ahead)%nat.
Proof.
  induction fuel as [|fuel IH]; intros i_ahead; cbn [Scipy.plateau_end]; [lia|].
  destruct ((i_ahead <? i_max)%nat && eqb (nth i_ahead x zero) xi); [|lia].
  specialize (IH (S i_ahead)). lia.
Qed.

Lemma local_maxima_ge (x : list F) (i_max fuel : nat) : forall i p,
  In p (Scipy.local_maxima x i_max fuel i) -> (i <= p)%nat.
Proof.
  induction fuel as [|fuel IH]; intros i p Hin; cbn [Scipy.local_maxima] in Hin;
    [destruct Hin|].
  destruct (i <? i_max)%nat; [|destruct Hin].
  destruct (ltb (nth (i - 1) x zero) (nth i x zero)).
  - pose proof (plateau_end_ge x (nth i x zero) i_max (i_max - i) (i + 1)) as Hahead.
    set (i_ahead := Scipy.plateau_end x (nth i x zero) i_max (i_max - i) (i + 1)) in *.
    destruct (ltb (nth i_ahead x zero) (nth i x zero)).
    + destruct Hin as [<-|Hin].
      * apply Nat.div_le_lower_bound; lia.
      * specialize (IH _ _ Hin). lia.
    + specialize (IH _ _ Hin). lia.
  - specialize (IH _ _ Hin). lia.
Qed.

(** The first sample is never a peak. *)
Lemma find_peaks_positive (x : list F) (p : nat) :
  In p (Scipy.find_peaks x) -> (1 <= p)%nat.
Proof. unfold Scipy.find_peaks. apply local_maxima_ge. Qed.

Lemma gradient_returns (f : list F) :
  (2 <= length f)%nat -> exists g, Scipy.gradient f = Ok g /\ length g = length f.
Proof.
  intros Hlen. unfold Scipy.gradient.
  replace (2 <=? length f)%nat with true by (symmetry; apply Nat.leb_le; exact Hlen).
  eexists. split; [reflexivity|]. rewrite length_map, length_seq. reflexivity.
Qed.

Lemma gradient_too_short (f : list F) :
  (length f < 2)%nat ->
  Scipy.gradient f
  = Raise (ValueError "Shape of array too small to calculate a numerical gradient").
Proof.
  intros Hlen. unfold Scipy.gradient.
  replace (2 <=? length f)%nat with false by (symmetry; apply Nat.leb_gt; exact Hlen).
  reflexivity.
Qed.

Lemma left_peaks_positive (x : list F) ps p :
  left_peaks x = Ok ps -> In p ps -> (1 <= p < length x / 2)%nat.
Proof.
  intros Hps Hin. split; [|eapply left_peaks_left; eassumption].
  unfold left_peaks in Hps.
  destruct (Scipy.gradient x) as [g1|e]; cbn [bind] in Hps; [|discriminate].
  destruct (Scipy.gradient g1) as [g2|e]; cbn [bind] in Hps; [|discriminate].
  assert (Heq : ps = filter (fun p => (p <? length x / 2)%nat) (Scipy.find_peaks (map neg g2)))
    by congruence.
  rewrite Heq in Hin. apply filter_In in Hin as [Hin _].
  eapply find_peaks_positive, Hin.
Qed.

Lemma left_peaks_returns (x : list F) :
  (2 <= length x)%nat -> exists ps, left_peaks x = Ok ps.
Proof.
  intros Hlen. unfold left_peaks.
  destruct (gradient_returns x Hlen) as (g1 & Hg1 & Hl1). rewrite Hg1. cbn [bind].
  destruct (gradient_returns g1) as (g2 & Hg2 & _); [lia|]. rewrite Hg2. cbn [bind].
  eexists. reflexivity.
Qed.

(** X19. A window [get_unit_adaptive_window] returns is the fallback 20,
    for a correlogram whose absolute values sum to zero, or lies between 1
    and the centre index minus 1: the first bin is never a peak and the
    peaks kept lie left of the centre. *)
Theorem adaptive_window_range (depth : nat) (auto_corr : list F) (threshold : F) (w : Z) :
  get_unit_adaptive_window depth auto_corr threshold = Ok w ->
  (eqb (Np.sum (map abs auto_corr)) zero = true /\ w = 20%Z)
  \/ (eqb (Np.sum (map abs auto_corr)) zero = false
      /\ (1 <= w <= Z.of_nat (length auto_corr / 2) - 1)%Z).
Proof.
  destruct (eqb (Np.sum (map abs auto_corr)) zero) eqn:Hz.
  - rewrite (identically_zero_fallback depth auto_corr threshold Hz).
    intros Heq. left. split; [reflexivity | congruence].
  - intros Hrun. right. split; [reflexivity|].
    destruct (left_peaks auto_corr) as [ps|e] eqn:Hps.
    + revert threshold Hrun. induction depth as [|depth IH]; intros threshold Hrun;
        rewrite (get_unit_adaptive_window_unfold _ auto_corr threshold ps Hz Hps) in Hrun;
        (destruct (rev (filter _ ps)) as [|q qs] eqn:Hrev;
         [|assert (Hq : In q ps);
           [assert (Hq' : In q (rev (filter (fun p => geb (nth p auto_corr zero) threshold) ps)))
              by (rewrite Hrev; left; reflexivity);
            apply in_rev, filter_In in Hq'; tauto|];
           pose proof (left_peaks_positive auto_corr ps q Hps Hq);
           assert (Hw : w = (Z.of_nat (length auto_corr / 2) - Z.of_nat q)%Z) by congruence;
           rewrite Hw; lia]).
      * discriminate.
      * exact (IH _ Hrun).
    + exfalso. unfold left_peaks in Hps.
      destruct depth; cbn [get_unit_adaptive_window] in Hrun; rewrite Hz in Hrun;
        (destruct (Scipy.gradient auto_corr) as [g1|e1]; cbn [bind] in Hps, Hrun;
         [|discriminate]);
        (destruct (Scipy.gradient g1) as [g2|e2]; cbn [bind] in Hps, Hrun; discriminate).
Qed.

(** X20. Correlograms of fewer than four bins that are not silent get no
    window: with fewer than two bins [np.gradient] raises [ValueError],
    with two or three bins no peak lies left of the centre and the
    recursion never returns. *)
Theorem adaptive_window_short_correlogram (auto_corr : list F) (threshold : F) :
  eqb (Np.sum (map abs auto_corr)) zero = false ->
  ((length auto_corr < 2)%nat ->
     forall depth, get_unit_adaptive_window depth auto_corr threshold
       = Raise (ValueError "Shape of array too small to calculate a numerical gradient"))
  /\ ((2 <= length auto_corr <= 3)%nat -> never_returns auto_corr threshold).
Proof.
  intros Hz. split.
  - intros Hlen depth.
    destruct depth; cbn [get_unit_adaptive_window]; rewrite Hz, (gradient_too_short _ Hlen);
      reflexivity.
  - intros [Hlo Hhi].
    destruct (left_peaks_returns auto_corr Hlo) as [ps Hps].
    apply no_left_peak_never_returns; [exact Hz|].
    destruct ps as [|p ps]; [exact Hps|].
    pose proof (left_peaks_positive auto_corr (p :: ps) p Hps (or_introl eq_refl)) as [H1 H2].
    assert (length auto_corr / 2 <= 1)%nat.
    { destruct auto_corr as [|a [|b [|c [|d rest]]]]; cbn [length] in *; try lia;
        cbn; lia. }
    lia.
Qed.

End Peaks.

(** *** A nan in the correlogram *)

Lemma prim2sf_inj (x y : float) : Prim2SF x = Prim2SF y -> x = y.
Proof. intros Heq. rewrite <- (SF2Prim_Prim2SF x), <- (SF2Prim_Prim2SF y), Heq. reflexivity. Qed.

Lemma isnan_is_nan (v : float) : isnan v = true -> v = nan.
Proof.
  unfold isnan. cbn [eqb binary64]. rewrite FloatAxioms.eqb_spec. intros Hnan.
  apply prim2sf_inj. change (Prim2SF nan) with S754_nan.
  destruct (Prim2SF v) as [s|s| |s m e] eqn:Hv; try reflexivity; exfalso.
  - destruct s; discriminate.
  - destruct s; discriminate.
  - unfold SFeqb, SFcompare in Hnan.
    destruct s; rewrite Z.compare_refl, Pos.compare_cont_refl in Hnan; discriminate.
Qed.

Lemma nan_leb (v : float) : PrimFloat.leb nan v = false.
Proof. rewrite leb_spec. reflexivity. Qed.

Lemma nan_add_l (v : float) : (nan + v)%float = nan.
Proof. apply prim2sf_inj. rewrite add_spec. reflexivity. Qed.

Lemma nan_add_r (v : float) : (v + nan)%float = nan.
Proof.
  apply prim2sf_inj. rewrite add_spec. change (Prim2SF nan) with S754_nan.
  destruct (Prim2SF v); reflexivity.
Qed.

Lemma nan_mul_l (v : float) : (nan * v)%float = nan.
Proof. apply prim2sf_inj. rewrite mul_spec. reflexivity. Qed.

Lemma sum_from_nan (l : list float) : fold_left PrimFloat.add l nan = nan.
Proof. induction l as [|v l IH]; cbn [fold_left]; [reflexivity|]. rewrite nan_add_l. exact IH. Qed.

Lemma sum_with_nan (l : list float) : forall acc,
  In nan l -> fold_left PrimFloat.add l acc = nan.
Proof.
  induction l as [|v l IH]; intros acc Hin; [destruct Hin|]. cbn [fold_left].
  destruct Hin as [->|Hin]; [rewrite nan_add_r; apply sum_from_nan | apply IH, Hin].
Qed.

Lemma max_from_nan (l : list float) : fold_left Np.max2 l nan = nan.
Proof. induction l as [|v l IH]; cbn [fold_left]; [reflexivity|]. exact IH. Qed.

Lemma max_with_nan (l : list float) : forall acc,
  In nan l -> fold_left Np.max2 l acc = nan.
Proof.
  induction l as [|v l IH]; intros acc Hin; [destruct Hin|]. cbn [fold_left].
  destruct Hin as [->|Hin]; [|apply IH, Hin].
  assert (Hmax : Np.max2 acc nan = nan).
  { unfold Np.max2. destruct (isnan acc) eqn:Hacc; [apply isnan_is_nan, Hacc | reflexivity]. }
  rewrite Hmax. apply max_from_nan.
Qed.

(** X21. An auto-correlogram of two bins or more that holds a nan: its
    maximum is nan, so is the threshold the stage computes from it, no peak
    passes a nan threshold, and the recursion never returns. *)
Theorem nan_correlogram_has_no_window (auto_corr : list float) (factor : float) :
  In nan auto_corr -> (2 <= length auto_corr)%nat ->
  Np.max auto_corr = Ok nan
  /\ never_returns auto_corr (mul nan factor).
Proof.
  intros Hin Hlen. split.
  - destruct auto_corr as [|a rest]; [destruct Hin|]. unfold Np.max, Np.reduce. f_equal.
    destruct Hin as [->|Hin]; [apply max_from_nan | apply max_with_nan, Hin].
  - cbn [mul binary64]. rewrite nan_mul_l.
    assert (Hz : eqb (Np.sum (map abs auto_corr)) zero = false).
    { unfold Np.sum. cbn [add zero eqb abs binary64].
      rewrite sum_with_nan; [reflexivity|].
      apply in_map_iff. exists nan. split; [reflexivity | exact Hin]. }
    destruct (left_peaks_returns auto_corr Hlen) as [ps Hps].
    intros depth. induction depth as [|depth IH];
      rewrite (get_unit_adaptive_window_unfold _ auto_corr nan ps Hz Hps);
      assert (Hnone : filter (fun p => geb (nth p auto_corr zero) nan) ps = [])
        by (clear; induction ps as [|p ps IHps]; [reflexivity|]; cbn [filter];
            unfold geb; cbn [leb binary64]; rewrite nan_leb; exact IHps);
      rewrite Hnone; cbn [rev].
    + reflexivity.
    + exact IH.
Qed.

(** ** Normalization and scale *)

Section NormalizeScale.
Variable qsqrt : Q -> Q.

#[local] Abbreviation mean := (Np.mean (H := exact qsqrt)).
#[local] Abbreviation normalize := (normalize_correlogram (H := exact qsqrt)).

Lemma sum_scaled_by (x : list Q) (c : Q) :
  (fold_right Qplus 0 (map (Qmult c) x) == c * fold_right Qplus 0 x)%Q.
Proof.
  induction x as [|v x IH]; cbn [map fold_right]; [ring|]. rewrite IH. ring.
Qed.

Lemma mean_nonzero_parts (x : list Q) :
  ~ (mean x == 0)%Q ->
  ~ (fold_right Qplus 0 x == 0)%Q /\ ~ (inject_Z (Z.of_nat (length x)) == 0)%Q.
Proof.
  intros Hm. split.
  - intros Hs. apply Hm. rewrite (mean_exact qsqrt), Hs. unfold Qdiv. ring.
  - intros HL. apply Hm. rewrite (mean_exact qsqrt), HL. unfold Qdiv.
    change (/ 0)%Q with 0%Q. ring.
Qed.

Lemma normalized_mean (x : list Q) :
  ~ (mean x == 0)%Q -> (mean (normalize x) == 1)%Q.
Proof.
  intros Hm. destruct (mean_nonzero_parts x Hm) as [Hs HL].
  rewrite (normalize_exact_unfold qsqrt).
  destruct (Qeq_bool (mean x) 0) eqn:Hz; [apply Qeq_bool_iff in Hz; contradiction|].
  rewrite (mean_exact qsqrt), length_map, sum_scaled, (mean_exact qsqrt).
  field. split; assumption.
Qed.

Lemma normalized_scaled (x : list Q) (c : Q) :
  ~ (mean x == 0)%Q -> ~ (c == 0)%Q ->
  Forall2 Qeq (normalize (map (Qmult c) x)) (normalize x).
Proof.
  intros Hm Hc. destruct (mean_nonzero_parts x Hm) as [Hs HL].
  assert (Hmc : (mean (map (Qmult c) x) == c * mean x)%Q).
  { rewrite !(mean_exact qsqrt), length_map, sum_scaled_by. field. exact HL. }
  rewrite !(normalize_exact_unfold qsqrt).
  destruct (Qeq_bool (mean x) 0) eqn:Hz; [apply Qeq_bool_iff in Hz; contradiction|].
  destruct (Qeq_bool (mean (map (Qmult c) x)) 0) eqn:Hzc.
  - apply Qeq_bool_iff in Hzc. rewrite Hmc in Hzc.
    apply Qmult_integral in Hzc. tauto.
  - rewrite map_map.
    assert (Hgen : forall l, Forall2 Qeq
              (map (fun v => c * v / mean (map (Qmult c) x))%Q l)
              (map (fun v => v / mean x)%Q l)).
    { induction l as [|v l IH]; cbn [map]; constructor; [|exact IH].
      rewrite Hmc. field. split; assumption. }
    apply Hgen.
Qed.

End NormalizeScale.

(** X22. In exact arithmetic a correlogram whose mean is not zero is
    normalized to mean one, and the normalized correlogram does not change
    when the correlogram is multiplied by a factor other than zero. *)
Theorem normalized_mean_is_one (qsqrt : Q -> Q) (x : list Q) :
  ~ (Np.mean (H := exact qsqrt) x == 0)%Q ->
  (Np.mean (H := exact qsqrt) (normalize_correlogram (H := exact qsqrt) x) == 1)%Q
  /\ forall c : Q, ~ (c == 0)%Q ->
       Forall2 Qeq (normalize_correlogram (H := exact qsqrt) (map (Qmult c) x))
                   (normalize_correlogram (H := exact qsqrt) x).
Proof.
  intros Hm. split.
  - apply normalized_mean, Hm.
  - intros c Hc. apply normalized_scaled; assumption.
Qed.

(** ** Template differences: shapes and bounds *)

Section Shapes.
Context {F : Type} `{Number F}.
Variable argsort : list F -> list nat.

Lemma slice_length {A} (a : list A) (start stop : Z) :
  (0 <= start <= stop)%Z -> (stop <= Z.of_nat (length a))%Z ->
  length (Np.slice a start stop) = Z.to_nat (stop - start).
Proof.
  intros Hss Hstop. unfold Np.slice.
  replace (start <? 0)%Z with false by (symmetry; apply Z.ltb_ge; lia).
  replace (stop <? 0)%Z with false by (symmetry; apply Z.ltb_ge; lia).
  rewrite length_firstn, length_skipn. lia.
Qed.

Lemma slice_empty {A} (a : list A) (k : Z) :
  (0 <= k)%Z -> (Z.of_nat (length a) < 2 * k)%Z ->
  Np.slice a k (Z.of_nat (length a) - k) = [].
Proof.
  intros Hk Hshort. unfold Np.slice.
  replace (k <? 0)%Z with false by (symmetry; apply Z.ltb_ge; lia).
  set (n := Z.of_nat (length a)) in *.
  assert (Hle : (Z.to_nat (Z.min n (Z.max 0 (if (n - k <? 0)%Z then n - k + n else n - k)))
                 <= Z.to_nat (Z.min n (Z.max 0 k)))%nat).
  { destruct (n - k <? 0)%Z eqn:Hneg; [apply Z.ltb_lt in Hneg | apply Z.ltb_ge in Hneg]; lia. }
  replace (_ - _)%nat with 0%nat by lia. reflexivity.
Qed.

Lemma columns_length (t : list (list F)) (chan_inds : list nat) :
  length (columns t chan_inds) = length t.
Proof. unfold columns. apply length_map. Qed.

Lemma map2_rows_same_length (op : F -> F -> F) (a b : list (list F)) :
  length a = length b ->
  map2_rows op a b
  = Ok (map (fun p => map (fun q => op (fst q) (snd q)) (combine (fst p) (snd p)))
            (combine a b)).
Proof.
  intros Hlen. unfold map2_rows, Np.broadcast.
  replace (length a =? length b)%nat with true by (symmetry; apply Nat.eqb_eq; exact Hlen).
  reflexivity.
Qed.

Lemma map_result_returns {A B} (f : A -> result B) (l : list A) :
  (forall x, In x l -> returned (f x) = true) ->
  exists out, map_result f l = Ok out /\ length out = length l.
Proof.
  induction l as [|x l IH]; intros Hall.
  - exists []. split; reflexivity.
  - cbn [map_result].
    pose proof (Hall x (or_introl eq_refl)) as Hx.
    destruct (f x) as [y|e]; [|discriminate]. cbn [bind].
    destruct IH as (ys & Hys & Hlen); [intros z Hz; apply Hall; right; exact Hz|].
    rewrite Hys. cbn [bind]. exists (y :: ys). split; [reflexivity|]. cbn [length]. lia.
Qed.

(** The two trimmed templates of a shift have the same number of samples
    when the templates have, and at least [2 * num_shift] of them. *)
Lemma shifted_slices_same_length (t1 t2 : list (list F)) (num_shift : nat) (shift : Z) :
  length t1 = length t2 ->
  (2 * num_shift <= length t1)%nat ->
  (- Z.of_nat num_shift <= shift <= Z.of_nat num_shift)%Z ->
  length (Np.slice t1 (Z.of_nat num_shift) (Z.of_nat (length t1) - Z.of_nat num_shift))
  = length (Np.slice t2 (Z.of_nat num_shift + shift)
              (Z.of_nat (length t1) - Z.of_nat num_shift + shift)).
Proof.
  intros Hlen Hlong Hshift. rewrite !slice_length by lia. lia.
Qed.

Lemma shift_diff_returns (metric : string) (norm : F) (num_shift : nat)
  (t1 t2 : list (list F)) (shift : Z) :
  existsb (String.eqb metric) ["l1"; "l2"; "cosine"]%string = true ->
  length t1 = length t2 ->
  (2 * num_shift <= length t1)%nat ->
  (- Z.of_nat num_shift <= shift <= Z.of_nat num_shift)%Z ->
  returned (shift_diff metric norm num_shift t1 t2 shift) = true.
Proof.
  intros Hmetric Hlen Hlong Hshift. unfold shift_diff.
  pose proof (shifted_slices_same_length t1 t2 num_shift shift Hlen Hlong Hshift) as Hsame.
  cbn [existsb] in Hmetric.
  destruct (String.eqb metric "l1");
    [rewrite (map2_rows_same_length _ _ _ Hsame); reflexivity|].
  destruct (String.eqb metric "l2");
    [rewrite (map2_rows_same_length _ _ _ Hsame); reflexivity|].
  destruct (String.eqb metric "cosine");
    [rewrite (map2_rows_same_length _ _ _ Hsame); reflexivity|].
  discriminate Hmetric.
Qed.

Lemma arange_nonempty lo hi : (lo < hi)%Z -> Np.arange lo hi <> [].
Proof.
  intros Hlt Heq. pose proof (arange_length lo hi) as Hlen. rewrite Heq in Hlen.
  cbn [length] in Hlen. lia.
Qed.

Lemma min_returns (l : list F) : l <> [] -> returned (Np.min l) = true.
Proof. destruct l; [congruence | reflexivity]. Qed.

Lemma max_returns (l : list F) : l <> [] -> returned (Np.max l) = true.
Proof. destruct l; [congruence | reflexivity]. Qed.

Lemma template_pair_diff_returns (T : templates F) num_channels num_shift metric
  adaptative sparsity_mask i j :
  existsb (String.eqb metric) ["l1"; "l2"; "cosine"]%string = true ->
  length (template T i) = length (template T j) ->
  (1 <= length (template T i))%nat ->
  (2 * num_shift <= length (template T i))%nat ->
  returned (template_pair_diff argsort T num_channels num_shift metric adaptative
              sparsity_mask i j) = true.
Proof.
  intros Hmetric Hlen Hone Hlong. unfold template_pair_diff.
  assert (Hchans : exists chans,
            best_channels argsort T num_channels adaptative sparsity_mask i j = Ok chans).
  { unfold best_channels. destruct adaptative; cbn [negb]; [eexists; reflexivity|].
    unfold channel_amplitudes. rewrite (map2_rows_same_length _ _ _ Hlen). cbn [bind].
    destruct (map_result_returns
                (fun c => Np.max (map (fun row => nth c row zero)
                   (abs2 (map (fun p => map (fun q => add (fst q) (snd q))
                                            (combine (fst p) (snd p)))
                              (combine (template T i) (template T j))))))
                (seq 0 (num_chans T))) as (amps & Hamps & _).
    - intros c _. apply max_returns. intros Hnil.
      apply (f_equal (@length F)) in Hnil. unfold abs2 in Hnil.
      rewrite !length_map, length_combine in Hnil. cbn [length] in Hnil. lia.
    - rewrite Hamps. cbn [bind]. eexists. reflexivity. }
  destruct Hchans as [chans Hchans]. rewrite Hchans. cbn [bind].
  unfold all_shift_diffs.
  destruct (0 <? length chans)%nat.
  - destruct (map_result_returns
                (shift_diff metric
                   (template_norm metric (columns (template T i) chans)
                      (columns (template T j) chans))
                   num_shift (columns (template T i) chans) (columns (template T j) chans))
                (Np.arange (- Z.of_nat num_shift) (Z.of_nat num_shift + 1)))
      as (ds & Hds & Hlen_ds).
    + intros shift Hin.
      pose proof (arange_bounds (- Z.of_nat num_shift) (Z.of_nat num_shift + 1)) as Hb.
      rewrite Forall_forall in Hb. specialize (Hb shift Hin).
      apply shift_diff_returns; rewrite ?columns_length; try assumption. lia.
    + rewrite Hds. cbn [bind]. apply min_returns. intros Hnil.
      rewrite Hnil, arange_length in Hlen_ds. cbn [length] in Hlen_ds. lia.
  - cbn [bind]. apply min_returns. intros Hnil.
    apply (f_equal (@length F)) in Hnil. rewrite length_map, arange_length in Hnil.
    cbn [length] in Hnil. lia.
Qed.

(** X23. [compute_templates_diff] returns when the metric is one of
    [l1], [l2], [cosine] and every template has the same number of
    samples, at least one and at least twice [num_shift]. *)
Theorem templates_diff_returns (n : nat) (T : templates F) (num_channels : option nat)
  (num_shift : nat) (pair_mask : option (matrix bool)) (metric : string)
  (sparsity : option (nat -> list bool)) (num_samples : nat) :
  In metric ["l1"; "l2"; "cosine"]%string ->
  (forall u, (u < n)%nat -> length (template T u) = num_samples) ->
  (1 <= num_samples)%nat ->
  (2 * num_shift <= num_samples)%nat ->
  returned (compute_templates_diff argsort n T num_channels num_shift pair_mask metric
              sparsity) = true.
Proof.
  intros Hmetric Hshape Hone Hlong.
  assert (Hvalid : existsb (String.eqb metric) ["l1"; "l2"; "cosine"]%string = true)
    by (apply existsb_eqb_in, Hmetric).
  rewrite (compute_templates_diff_any_mask argsort _ _ _ _ _ _ _ Hvalid).
  apply pair_loop_returns. intros i j Hij _.
  apply template_pair_diff_returns; try assumption;
    rewrite !Hshape by lia; (reflexivity || assumption).
Qed.

End Shapes.

Section L1.
Variable qsqrt : Q -> Q.
Let exactQ : Number Q := exact qsqrt.
#[local] Existing Instance exactQ.
Variable argsort : list Q -> list nat.

(** The sum of the absolute values of a row, and of an array. *)
Let rowsum (r : list Q) : Q := fold_right Qplus 0%Q (map Qabs r).
Let total (t : list (list Q)) : Q := fold_right Qplus 0%Q (map rowsum t).

Lemma fold_right_plus_app (l1 l2 : list Q) :
  (fold_right Qplus 0 (l1 ++ l2) == fold_right Qplus 0 l1 + fold_right Qplus 0 l2)%Q.
Proof. induction l1 as [|x l1 IH]; cbn [app fold_right]; [ring|]. rewrite IH. ring. Qed.

Lemma np_sum_as_fold (l : list Q) : (Np.sum l == fold_right Qplus 0 l)%Q.
Proof. apply (np_sum_exact qsqrt). Qed.

Lemma forall2_all_from {A B} (R : A -> B -> Prop) (P : A -> Prop) (P' : B -> Prop)
  (l : list A) (l' : list B) :
  Forall2 R l l' -> Forall P l -> (forall x y, P x -> R x y -> P' y) -> Forall P' l'.
Proof.
  induction 1 as [|x y l l' Hxy Hrest IH]; intros Hl HP; constructor.
  - inversion Hl; subst. eapply HP; eassumption.
  - inversion Hl; subst. apply IH; assumption.
Qed.

Lemma sum2_abs2_total (t : list (list Q)) : (sum2 (abs2 t) == total t)%Q.
Proof.
  unfold sum2, abs2. rewrite np_sum_as_fold. unfold total.
  induction t as [|r t IH]; cbn [map concat fold_right]; [reflexivity|].
  rewrite fold_right_plus_app, IH. reflexivity.
Qed.

Lemma rowsum_nonneg (r : list Q) : (0 <= rowsum r)%Q.
Proof. unfold rowsum. apply sum_nonneg, abs_all_nonneg. Qed.

Lemma total_nonneg (t : list (list Q)) : (0 <= total t)%Q.
Proof.
  unfold total. apply sum_nonneg. apply Forall_forall. intros v Hv.
  apply in_map_iff in Hv as (r & <- & _). apply rowsum_nonneg.
Qed.

Lemma row_triangle (r1 : list Q) : forall r2,
  (rowsum (map (fun q => sub (fst q) (snd q)) (combine r1 r2)) <= rowsum r1 + rowsum r2)%Q.
Proof.
  unfold rowsum. induction r1 as [|x r1 IH]; intros r2; cbn [combine map fold_right].
  - rewrite Qplus_0_l. apply sum_nonneg, abs_all_nonneg.
  - destruct r2 as [|y r2]; cbn [combine map fold_right fst snd].
    + rewrite Qplus_0_r.
      replace 0%Q with (0 + 0)%Q by reflexivity.
      apply Qplus_le_compat; [apply Qabs_nonneg | apply sum_nonneg, abs_all_nonneg].
    + specialize (IH r2). change (sub x y) with (x - y)%Q.
      assert (Hxy : (Qabs (x - y) <= Qabs x + Qabs y)%Q).
      { unfold Qminus. rewrite <- (Qabs_opp y). apply Qabs_triangle. }
      setoid_replace (Qabs x + fold_right Qplus 0 (map Qabs r1)
                      + (Qabs y + fold_right Qplus 0 (map Qabs r2)))%Q
        with ((Qabs x + Qabs y)
              + (fold_right Qplus 0 (map Qabs r1) + fold_right Qplus 0 (map Qabs r2)))%Q
        by ring.
      apply Qplus_le_compat; assumption.
Qed.

Lemma rows_triangle (a : list (list Q)) : forall b,
  (total (map (fun p => map (fun q => sub (fst q) (snd q)) (combine (fst p) (snd p)))
              (combine a b))
   <= total a + total b)%Q.
Proof.
  unfold total. induction a as [|r1 a IH]; intros b; cbn [combine map fold_right].
  - rewrite Qplus_0_l. apply (total_nonneg b).
  - destruct b as [|r2 b]; cbn [combine map fold_right fst snd].
    + rewrite Qplus_0_r.
      replace 0%Q with (0 + 0)%Q by reflexivity.
      apply Qplus_le_compat; [apply rowsum_nonneg | apply (total_nonneg a)].
    + specialize (IH b). pose proof (row_triangle r1 r2) as Hrow.
      setoid_replace (rowsum r1 + fold_right Qplus 0 (map rowsum a)
                      + (rowsum r2 + fold_right Qplus 0 (map rowsum b)))%Q
        with ((rowsum r1 + rowsum r2)
              + (fold_right Qplus 0 (map rowsum a) + fold_right Qplus 0 (map rowsum b)))%Q
        by ring.
      apply Qplus_le_compat; assumption.
Qed.

Lemma total_skipn (k : nat) : forall t, (total (skipn k t) <= total t)%Q.
Proof.
  unfold total. induction k as [|k IH]; intros t; [apply Qle_refl|].
  destruct t as [|r t]; cbn [skipn map fold_right]; [apply Qle_refl|].
  eapply Qle_trans; [apply IH|].
  rewrite <- (Qplus_0_l (fold_right Qplus 0%Q (map rowsum t))) at 1.
  apply Qplus_le_compat; [apply rowsum_nonneg | apply Qle_refl].
Qed.

Lemma total_firstn (k : nat) : forall t, (total (firstn k t) <= total t)%Q.
Proof.
  unfold total. induction k as [|k IH]; intros t; cbn [firstn map fold_right].
  - apply (total_nonneg t).
  - destruct t as [|r t]; cbn [map fold_right]; [apply Qle_refl|].
    apply Qplus_le_compat; [apply Qle_refl | apply IH].
Qed.

Lemma total_slice (t : list (list Q)) (start stop : Z) :
  (total (Np.slice t start stop) <= total t)%Q.
Proof.
  unfold Np.slice. eapply Qle_trans; [apply total_firstn | apply total_skipn].
Qed.

Lemma map2_rows_of_nothing (op : Q -> Q -> Q) (b d : list (list Q)) :
  map2_rows op [] b = Ok d -> d = [].
Proof.
  unfold map2_rows, Np.broadcast.
  destruct (length (@nil (list Q)) =? length b)%nat.
  - intros Heq. inversion Heq. reflexivity.
  - destruct b as [|b0 [|b1 rest]]; intros Heq; inversion Heq; reflexivity.
Qed.

(** The L1 distance at one shift. *)
Lemma shift_diff_l1_bounds (num_shift : nat) (t1 t2 : list (list Q)) (shift : Z) (d : Q) :
  length t1 = length t2 ->
  (- Z.of_nat num_shift <= shift <= Z.of_nat num_shift)%Z ->
  (0 < total t1 + total t2)%Q ->
  shift_diff "l1" (template_norm "l1" t1 t2) num_shift t1 t2 shift = Ok d ->
  (0 <= d <= 1)%Q.
Proof.
  intros Hlen Hshift Hpos. unfold shift_diff, template_norm.
  cbn [String.eqb Ascii.eqb Bool.eqb andb].
  destruct (map2_rows sub _ _) as [dd|e] eqn:Hdd; cbn [bind]; [|discriminate].
  intros Hd. inversion Hd; subst d; clear Hd.
  change (div ?a ?b) with (a / b)%Q. change (add ?a ?b) with (a + b)%Q.
  rewrite !sum2_abs2_total.
  assert (Hbound : (total dd <= total t1 + total t2)%Q).
  { destruct (Nat.le_gt_cases (2 * num_shift) (length t1)) as [Hlong|Hshort].
    - rewrite (map2_rows_same_length _ _ _
                 (shifted_slices_same_length t1 t2 num_shift shift Hlen Hlong Hshift)) in Hdd.
      inversion Hdd; subst dd; clear Hdd.
      eapply Qle_trans; [apply rows_triangle|].
      apply Qplus_le_compat; apply total_slice.
    - rewrite slice_empty in Hdd by lia.
      apply map2_rows_of_nothing in Hdd. subst dd.
      apply Qlt_le_weak, Hpos. }
  split.
  - apply Qle_shift_div_l; [exact Hpos|]. rewrite Qmult_0_l. apply total_nonneg.
  - apply Qle_shift_div_r; [exact Hpos|]. rewrite Qmult_1_l. exact Hbound.
Qed.

Lemma min_is_member (l : list Q) (m : Q) : Np.min l = Ok m -> In m l.
Proof.
  unfold Np.min, Np.reduce. destruct l as [|a l]; [discriminate|].
  intros Hmin. inversion Hmin; subst m; clear Hmin.
  destruct (fold_min2_bounds qsqrt l a) as (_ & _ & [Heq|Hin]); cbn zeta in *.
  - left. symmetry. exact Heq.
  - right. exact Hin.
Qed.

Lemma l1_pair_bounds n (T : templates Q) num_channels num_shift mask sparsity D i j :
  compute_templates_diff argsort n T num_channels num_shift (Some mask) "l1" sparsity = Ok D ->
  (i < j < n)%nat -> mask i j = true ->
  length (template T i) = length (template T j) ->
  (forall chans, compared_channels argsort T num_channels sparsity i j = Ok chans ->
     chans <> [] ->
     (0 < sum2 (abs2 (columns (template T i) chans))
          + sum2 (abs2 (columns (template T j) chans)))%Q) ->
  exists d, D i j = Some d /\ (0 <= d <= 1)%Q.
Proof.
  intros Hrun Hij Hm Hlen Hnorm.
  pose proof (compute_templates_diff_metric _ _ _ _ _ _ _ _ _ Hrun) as Hvalid.
  rewrite (compute_templates_diff_as_loop _ _ _ _ _ _ _ _ Hvalid) in Hrun.
  destruct (pair_loop_entry n mask _ D i j Hrun Hij Hm) as (d & Hbody & HD).
  exists d. split; [exact HD|].
  unfold template_pair_diff in Hbody.
  fold (compared_channels argsort T num_channels sparsity i j) in Hbody.
  destruct (compared_channels argsort T num_channels sparsity i j) as [chans|e] eqn:Hchans;
    cbn [bind] in Hbody; [|discriminate].
  specialize (Hnorm chans eq_refl).
  unfold all_shift_diffs in Hbody.
  destruct (0 <? length chans)%nat eqn:Hsome.
  - destruct (map_result _ _) as [ds|e] eqn:Hds; cbn [bind] in Hbody; [|discriminate].
    apply map_result_forall2 in Hds.
    apply min_is_member in Hbody.
    assert (Hall : Forall (fun v => 0 <= v <= 1)%Q ds).
    { eapply forall2_all_from;
        [exact Hds | apply (arange_bounds (- Z.of_nat num_shift) (Z.of_nat num_shift + 1))|].
      cbn beta. intros shift v Hshift Hv.
      apply (shift_diff_l1_bounds num_shift (columns (template T i) chans)
               (columns (template T j) chans) shift v).
      - rewrite !columns_length. exact Hlen.
      - lia.
      - rewrite <- !sum2_abs2_total. apply Hnorm. intros ->. discriminate Hsome.
      - exact Hv. }
    rewrite Forall_forall in Hall. apply Hall, Hbody.
  - cbn [bind] in Hbody. apply min_is_member in Hbody.
    apply in_map_iff in Hbody as (k & <- & _).
    change (of_Z 1) with 1%Q. split; discriminate.
Qed.

End L1.

(** X24. In exact arithmetic the L1 template difference of a candidate
    pair lies between 0 and 1, when the two templates have the same number
    of samples and are not both zero on the channels compared. *)
Theorem l1_difference_in_unit_interval (qsqrt : Q -> Q) (argsort : list Q -> list nat)
  (n : nat) (T : templates Q) (num_channels : option nat) (num_shift : nat)
  (mask : matrix bool) (sparsity : option (nat -> list bool))
  (D : matrix (option Q)) (i j : nat) :
  compute_templates_diff (H := exact qsqrt) argsort n T num_channels num_shift (Some mask)
    "l1" sparsity = Ok D ->
  (i < j < n)%nat ->
  mask i j = true ->
  length (template T i) = length (template T j) ->
  (forall chans,
     compared_channels (H := exact qsqrt) argsort T num_channels sparsity i j = Ok chans ->
     chans <> [] ->
     (0 < sum2 (H := exact qsqrt) (abs2 (H := exact qsqrt)
                 (columns (H := exact qsqrt) (template T i) chans))
          + sum2 (H := exact qsqrt) (abs2 (H := exact qsqrt)
                 (columns (H := exact qsqrt) (template T j) chans)))%Q) ->
  exists d, D i j = Some d /\ (0 <= d <= 1)%Q.
Proof. apply l1_pair_bounds. Qed.

(** ** Runs of the further properties on the small recordings *)

Section FurtherRuns.
Import Demo.
#[local] Set Warnings "-inexact-float".
#[local] Open Scope string_scope.

#[local] Abbreviation merge3 :=
  (get_potential_auto_merge (U := string) argsort_insertion (@no_smoothing float) 1000).

(** [argsort_insertion] returns one index for every element. *)
Lemma insert_index_length {F} `{Number F} (v : F) (i : nat) (sorted : list (F * nat)) :
  length (insert_index v i sorted) = S (length sorted).
Proof.
  induction sorted as [|[w j] rest IH]; cbn [insert_index]; [reflexivity|].
  destruct (ltb v w); cbn [length]; [reflexivity | now rewrite IH].
Qed.

Lemma argsort_insertion_length {F} `{Number F} (x : list F) :
  length (argsort_insertion x) = length x.
Proof.
  unfold argsort_insertion. rewrite length_map.
  assert (Hfold : forall (l : list (F * nat)) acc,
            length (fold_left (fun sorted vi => insert_index (fst vi) (snd vi) sorted) l acc)
            = (length l + length acc)%nat).
  { induction l as [|vi l IH]; intros acc; cbn [fold_left length]; [reflexivity|].
    rewrite IH, insert_index_length. lia. }
  rewrite Hfold, length_combine, length_seq. cbn [length]. lia.
Qed.

(** The count stage alone, and with the position stage after it. *)
Lemma more_stages_fewer_pairs_witness :
  merge3 analyzer3 (with_steps defaults (Some ["min_spikes"]))
    = Ok ([("a", "b"); ("a", "c"); ("b", "b"); ("b", "c"); ("c", "c")], None)
  /\ merge3 analyzer3 (with_steps defaults (Some ["min_spikes"; "unit_positions"]))
     = Ok ([("a", "b"); ("b", "b"); ("c", "c")], None)
  /\ incl [("a", "b"); ("b", "b"); ("c", "c")]
          [("a", "b"); ("a", "c"); ("b", "b"); ("b", "c"); ("c", "c")].
Proof.
  split; [vm_compute; reflexivity|]. split; [vm_compute; reflexivity|].
  apply (more_stages_fewer_pairs argsort_insertion (@no_smoothing float) 1000 analyzer3 defaults
           ["min_spikes"] ["min_spikes"; "unit_positions"]
           [("a", "b"); ("a", "c"); ("b", "b"); ("b", "c"); ("c", "c")]
           [("a", "b"); ("b", "b"); ("c", "c")] None None).
  - intros step Hstep. cbn [In] in *. tauto.
  - cbn [In]. intros [Hpd|[]]. discriminate Hpd.
  - vm_compute. reflexivity.
  - vm_compute. reflexivity.
Defined.

(** The two stages in the other order, one of them twice. *)
Lemma stage_order_is_irrelevant_witness :
  merge3 analyzer3 (with_steps defaults (Some ["min_spikes"; "unit_positions"]))
    = Ok ([("a", "b"); ("b", "b"); ("c", "c")], None)
  /\ returned_merges
       (merge3 analyzer3
          (with_steps defaults (Some ["unit_positions"; "min_spikes"; "unit_positions"])))
     = [("a", "b"); ("b", "b"); ("c", "c")].
Proof.
  split; [vm_compute; reflexivity|].
  symmetry.
  apply (stage_order_is_irrelevant argsort_insertion (@no_smoothing float) 1000 analyzer3
           defaults ["min_spikes"; "unit_positions"]
           ["unit_positions"; "min_spikes"; "unit_positions"]
           [("a", "b"); ("b", "b"); ("c", "c")]
           (returned_merges
              (merge3 analyzer3
                 (with_steps defaults (Some ["unit_positions"; "min_spikes"; "unit_positions"]))))
           None None).
  - intros step Hstep. cbn [In] in *. tauto.
  - intros step Hstep. cbn [In] in *. tauto.
  - cbn [In]. intros [Hpd|[Hpd|[]]]; discriminate Hpd.
  - vm_compute. reflexivity.
  - vm_compute. reflexivity.
Defined.

(** The pair of the first two units after the three unit-level stages. *)
Lemma returned_pairs_pass_unit_filters_witness :
  let given := ["min_spikes"; "remove_contaminated"; "unit_positions"] in
  let p := with_steps defaults (Some given) in
  let s := sorting analyzer3_clean in
  merge3 analyzer3_clean p = Ok ([("a", "b"); ("b", "b"); ("c", "c")], None)
  /\ exists i j,
      (i <= j < num_units s)%nat /\ (0 < j)%nat /\ "a" = unit_ids s i /\ "b" = unit_ids s j
      /\ (In "min_spikes" given ->
            (minimum_spikes p <= count_num_spikes_per_unit s i)%Z
            /\ (minimum_spikes p <= count_num_spikes_per_unit s j)%Z)
      /\ (In "remove_contaminated" given ->
            let contaminations := compute_refrac_period_violations analyzer3_clean
                                    (refractory_period_ms p) (censored_period_ms p) in
            gtb (contaminations i) (contamination_threshold p) = false
            /\ gtb (contaminations j) (contamination_threshold p) = false)
      /\ (In "unit_positions" given ->
            leb (euclidean (unit_locations analyzer3_clean p i)
                           (unit_locations analyzer3_clean p j))
                (maximum_distance_um p) = true).
Proof.
  split; [vm_compute; reflexivity|].
  apply (returned_pairs_pass_unit_filters argsort_insertion (@no_smoothing float) 1000
           analyzer3_clean
           (with_steps defaults (Some ["min_spikes"; "remove_contaminated"; "unit_positions"]))
           ["min_spikes"; "remove_contaminated"; "unit_positions"]
           [("a", "b"); ("b", "b"); ("c", "c")] None).
  - reflexivity.
  - vm_compute. reflexivity.
  - left. reflexivity.
Defined.

(** The pair of the first two units after the pairwise stages. *)
Lemma returned_pairs_pass_pair_filters_witness :
  let given := ["correlogram"; "template_similarity"; "cross_contamination";
                "remove_contaminated"; "check_increase_score"] in
  let p := with_steps defaults (Some given) in
  let s := sorting analyzer3_clean in
  merge3 analyzer3_clean p = Ok ([("a", "b"); ("b", "c")], None)
  /\ exists i j,
      (i <= j < num_units s)%nat /\ "a" = unit_ids s i /\ "b" = unit_ids s j
      /\ (In "correlogram" given ->
            exists win_sizes d,
              window_sizes (@no_smoothing float) 1000 analyzer3_clean p = Ok win_sizes
              /\ correlogram_pair_diff (count_num_spikes_per_unit s)
                   (smoothed_correlograms (@no_smoothing float) analyzer3_clean p)
                   win_sizes i j = Ok d
              /\ ltb d (corr_diff_thresh p) = true)
      /\ (In "template_similarity" given ->
            match ext_template_similarity analyzer3_clean with
            | Some templates_similarity =>
                ltb (sub (of_Z 1) (templates_similarity i j)) (template_diff_thresh p) = true
            | None =>
                exists templates_array d,
                  ext_templates analyzer3_clean = Some templates_array
                  /\ template_pair_diff argsort_insertion templates_array (num_channels p)
                       (num_shift p) (template_metric p)
                       (adaptative_masks_of (num_channels p) (sparsity analyzer3_clean))
                       (sparsity_mask_of (sparsity analyzer3_clean)) i j = Ok d
                  /\ ltb d (template_diff_thresh p) = true
            end)
      /\ (In "cross_contamination" given ->
            gtb (if (i <? j)%nat
                 then f32 (snd (estimate_cross_contamination analyzer3_clean i j
                                  (censored_period_ms p, refractory_period_ms p)
                                  (CC_threshold p)))
                 else f32 zero) (f32 (p_value p)) = true)
      /\ (In "check_increase_score" given ->
            score_decreases analyzer3_clean
              (compute_refrac_period_violations analyzer3_clean (refractory_period_ms p)
                 (censored_period_ms p))
              (firing_contamination_balance p) (refractory_period_ms p)
              (censored_period_ms p) i j = false).
Proof.
  split; [vm_compute; reflexivity|].
  apply (returned_pairs_pass_pair_filters argsort_insertion (@no_smoothing float) 1000
           analyzer3_clean
           (with_steps defaults
              (Some ["correlogram"; "template_similarity"; "cross_contamination";
                     "remove_contaminated"; "check_increase_score"]))
           ["correlogram"; "template_similarity"; "cross_contamination";
            "remove_contaminated"; "check_increase_score"]
           [("a", "b"); ("b", "c")] None).
  - reflexivity.
  - vm_compute. reflexivity.
  - left. reflexivity.
Defined.

(** The correlogram stage alone on the three units. *)
Lemma pairwise_stages_drop_self_pairs_witness :
  let p := with_steps defaults (Some ["correlogram"]) in
  let s := sorting analyzer3 in
  merge3 analyzer3 p = Ok ([("a", "b"); ("a", "c"); ("b", "c")], None)
  /\ (exists i j, (i < j < num_units s)%nat /\ "a" = unit_ids s i /\ "c" = unit_ids s j)
  /\ (distinct_ids s -> "a" <> "c").
Proof.
  split; [vm_compute; reflexivity|].
  apply (pairwise_stages_drop_self_pairs argsort_insertion (@no_smoothing float) 1000
           analyzer3 (with_steps defaults (Some ["correlogram"])) ["correlogram"]
           [("a", "b"); ("a", "c"); ("b", "c")] None).
  - reflexivity.
  - left. left. reflexivity.
  - vm_compute. reflexivity.
  - right. left. reflexivity.
Defined.

(** A list with a validation after [remove_contaminated]. *)
Lemma stage_lists_that_return_witness :
  returned
    (merge3 analyzer3
       (with_steps defaults
          (Some ["min_spikes"; "remove_contaminated"; "cross_contamination";
                 "check_increase_score"])))
  = true.
Proof.
  apply (stage_lists_that_return argsort_insertion (@no_smoothing float) 1000 analyzer3
           defaults
           ["min_spikes"; "remove_contaminated"; "cross_contamination";
            "check_increase_score"]).
  - intros step Hstep. cbn [In] in *. tauto.
  - cbn [In]. intros [Hts|[Hts|[Hts|[Hts|[]]]]]; discriminate Hts.
  - intros pre post Hsplit.
    destruct pre as [|s1 [|s2 pre]].
    + discriminate Hsplit.
    + discriminate Hsplit.
    + injection Hsplit as _ <- _. right. left. reflexivity.
Defined.

(** The list after the count and the position stages. *)
Lemma returned_pairs_are_listed_once_witness :
  merge3 analyzer3 (with_steps defaults (Some ["min_spikes"; "unit_positions"]))
    = Ok ([("a", "b"); ("b", "b"); ("c", "c")], None)
  /\ NoDup [("a", "b"); ("b", "b"); ("c", "c")].
Proof.
  split; [vm_compute; reflexivity|].
  apply (returned_pairs_are_listed_once argsort_insertion (@no_smoothing float) 1000 analyzer3
           (with_steps defaults (Some ["min_spikes"; "unit_positions"]))
           [("a", "b"); ("b", "b"); ("c", "c")] None).
  - exact sorting3_distinct.
  - vm_compute. reflexivity.
Defined.

(** The dictionary of the count and the position stages: the distances,
    and nothing else. *)
Lemma diagnostics_keys_witness :
  let given := ["min_spikes"; "unit_positions"] in
  let p := with_extra_outputs (with_steps defaults (Some given)) true in
  exists outs,
    returned_diagnostics (merge3 analyzer3 p) = Some outs
    /\ (forall key, dict_get outs key <> None
                    <-> exists step, In step given /\ In key (stage_keys step))
    /\ (In "unit_positions" given ->
        dict_get outs "unit_distances"
        = Some (Distances string (fun i j => euclidean (unit_locations analyzer3 p i)
                                                       (unit_locations analyzer3 p j)))).
Proof.
  refine (proj2 (diagnostics_keys argsort_insertion (@no_smoothing float) 1000 analyzer3
                  (with_extra_outputs
                     (with_steps defaults (Some ["min_spikes"; "unit_positions"])) true)
                  ["min_spikes"; "unit_positions"]
                  [("a", "b"); ("b", "b"); ("c", "c")]
                  (returned_diagnostics
                     (merge3 analyzer3
                        (with_extra_outputs
                           (with_steps defaults (Some ["min_spikes"; "unit_positions"])) true)))
                  eq_refl _) eq_refl).
  vm_compute. reflexivity.
Defined.

(** The two presets on the three clean units. *)
Lemma temporal_splits_refines_default_witness :
  merge3 analyzer3_clean (with_preset defaults None) = Ok ([("a", "b")], None)
  /\ merge3 analyzer3_clean (with_preset defaults (Some "temporal_splits"))
     = Ok ([("a", "b")], None)
  /\ incl [("a", "b")] [("a", "b")].
Proof.
  split; [vm_compute; reflexivity|]. split; [vm_compute; reflexivity|].
  apply (temporal_splits_refines_default argsort_insertion (@no_smoothing float) 1000
           analyzer3_clean defaults [("a", "b")] [("a", "b")] None None).
  - reflexivity.
  - vm_compute. reflexivity.
  - vm_compute. reflexivity.
Defined.

(** The first of the three clean units has all its neighbours in itself. *)
Lemma nntree_isolated_unit_witness :
  returned (get_pairs_via_nntree argsort_insertion analyzer3_clean 5 None) = true
  /\ returned_matrix (get_pairs_via_nntree argsort_insertion analyzer3_clean 5 None) 0 1
     = false.
Proof.
  split; [vm_compute; reflexivity|].
  apply (nntree_isolated_unit argsort_insertion analyzer3_clean 5 None neighbours3
           (returned_matrix (get_pairs_via_nntree argsort_insertion analyzer3_clean 5 None))
           0).
  - intros x. apply argsort_insertion_length.
  - reflexivity.
  - reflexivity.
  - cbn. lia.
  - intros x y Hx Hy. cbn in Hx, Hy.
    repeat match goal with H : _ \/ _ |- _ => destruct H as [H|H] end;
      solve [congruence | contradiction].
Defined.

(** With the second unit silent, the nearest-neighbour stage ends in the
    error of the empty query, also after [min_spikes] has cleared the rows
    and columns of that unit; on the clean units the same list returns. *)
Example silent_unit_knn_run :
  get_pairs_via_nntree argsort_insertion analyzer3_silent 5 None = Raise no_sample_error
  /\ merge3 analyzer3_silent (with_steps defaults (Some ["min_spikes"; "knn"]))
     = Raise no_sample_error
  /\ merge3 analyzer3_clean (with_steps defaults (Some ["min_spikes"; "knn"]))
     = Ok ([("b", "c")], None).
Proof. vm_compute. repeat split; reflexivity. Qed.

(** Windows of four bins on the six-bin correlograms of the two units. *)
Lemma window_beyond_correlogram_witness :
  correlogram_pair_diff spikes2 tensor2 (fun _ => 4%Z) 0 1 = Raise IndexError
  /\ returned (compute_correlogram_diff 2 spikes2 tensor2 (fun _ => 4%Z) None) = false.
Proof.
  apply (window_beyond_correlogram 2 spikes2 tensor2 (fun _ => 4%Z) None 0 1 4).
  - lia.
  - reflexivity.
  - vm_compute. reflexivity.
  - reflexivity.
  - vm_compute. reflexivity.
Defined.

(** Two units without a spike. *)
Lemma silent_pair_has_no_window_witness :
  correlogram_pair_diff (fun _ => 0%Z) tensor2 windows2 0 1
    = Raise (ValueError "cannot convert float NaN to integer")
  /\ returned (compute_correlogram_diff 2 (fun _ => 0%Z) tensor2 windows2 None) = false.
Proof.
  apply (silent_pair_has_no_window 2 (fun _ => 0%Z) tensor2 windows2 None 0 1).
  - lia.
  - reflexivity.
  - reflexivity.
  - reflexivity.
Defined.

(** A correlogram of thirteen bins with side peaks four bins from the
    centre. *)
Lemma adaptive_window_range_witness :
  let auto_corr := [0; 0; 5; 1; 0; 2; 9; 2; 0; 1; 5; 0; 0]%float in
  get_unit_adaptive_window 1 auto_corr 8%float = Ok 4%Z
  /\ ((eqb (Np.sum (map abs auto_corr)) zero = true /\ 4%Z = 20%Z)
      \/ (eqb (Np.sum (map abs auto_corr)) zero = false
          /\ (1 <= 4 <= Z.of_nat (length auto_corr / 2) - 1)%Z)).
Proof.
  split; [vm_compute; reflexivity|].
  apply (adaptive_window_range 1 [0; 0; 5; 1; 0; 2; 9; 2; 0; 1; 5; 0; 0]%float 8%float 4%Z).
  vm_compute. reflexivity.
Defined.

(** A correlogram of three bins. *)
Lemma adaptive_window_short_correlogram_witness :
  let auto_corr := [1; 2; 1]%float in
  ((length auto_corr < 2)%nat ->
     forall depth, get_unit_adaptive_window depth auto_corr 8%float
       = Raise (ValueError "Shape of array too small to calculate a numerical gradient"))
  /\ ((2 <= length auto_corr <= 3)%nat -> never_returns auto_corr 8%float).
Proof.
  apply (adaptive_window_short_correlogram [1; 2; 1]%float 8%float).
  vm_compute. reflexivity.
Defined.

(** A nan in the middle of three bins. *)
Lemma nan_correlogram_has_no_window_witness :
  Np.max [1; nan; 2]%float = Ok nan
  /\ never_returns [1; nan; 2]%float (mul nan 0.5%float).
Proof.
  apply (nan_correlogram_has_no_window [1; nan; 2]%float 0.5%float).
  - right. left. reflexivity.
  - cbn [length]. lia.
Defined.

(** The correlogram [0, 1, 6], of mean [7/3]. *)
Lemma normalized_mean_is_one_witness :
  let x := [0; 1; 6]%Q in
  (Np.mean (H := exact Qsqrt_floor) (normalize_correlogram (H := exact Qsqrt_floor) x) == 1)%Q
  /\ forall c : Q, ~ (c == 0)%Q ->
       Forall2 Qeq (normalize_correlogram (H := exact Qsqrt_floor) (map (Qmult c) x))
                   (normalize_correlogram (H := exact Qsqrt_floor) x).
Proof.
  apply (normalized_mean_is_one Qsqrt_floor [0; 1; 6]%Q).
  intros Hmean. vm_compute in Hmean. discriminate Hmean.
Defined.

(** Two templates of three samples, shifted by one sample. *)
Lemma templates_diff_returns_witness :
  returned (compute_templates_diff argsort_insertion 2 identical2 None 1 None "l1" None)
  = true.
Proof.
  apply (templates_diff_returns argsort_insertion 2 identical2 None 1 None "l1" None 3).
  - left. reflexivity.
  - intros u _. reflexivity.
  - lia.
  - lia.
Defined.

(** The two identical templates on the rationals. *)
Lemma l1_difference_in_unit_interval_witness :
  exists d,
    returned_array
      (compute_templates_diff (H := exact Qsqrt_floor)
         (argsort_insertion (H := exact Qsqrt_floor)) 2 identical2_exact
         None 1 (Some all_pairs) "l1" None) 0%nat 1%nat = Some d
    /\ (0 <= d <= 1)%Q.
Proof.
  apply (l1_difference_in_unit_interval Qsqrt_floor
           (argsort_insertion (H := exact Qsqrt_floor)) 2 identical2_exact
           None 1 all_pairs None
           (returned_array
              (compute_templates_diff (H := exact Qsqrt_floor)
                 (argsort_insertion (H := exact Qsqrt_floor)) 2 identical2_exact None 1 (Some all_pairs) "l1" None))
           0%nat 1%nat).
  - vm_compute. reflexivity.
  - lia.
  - reflexivity.
  - reflexivity.
  - intros chans Hchans _. vm_compute in Hchans.
    injection Hchans as <-. vm_compute. reflexivity.
Defined.

End FurtherRuns.


End Properties.
